(** * RAG processor: enrichment, embedding, batch orchestration and search

  A shallow embedding of [rag_processor.py] (class [RAGProcessor]) and the
  properties of its pipeline.

  Conventions of the embedding:
  - a Python [str] is a Rocq [string] holding its UTF-8 bytes;
  - a Python [float] is a primitive binary64 [float];
  - a Python [dict] is an insertion-ordered association list;
  - [dict] objects live in a heap and are handled through references, so
    that [copy()] and item assignment show their aliasing;
  - an exception is the outcome [Raised]; [try ... except Exception] is
    [try_except];
  - the OpenAI client, [json.loads], [str()] of a non-string, [str.strip]
    and scikit-learn's [cosine_similarity] are parameters gathered in
    [Env], the last one with the laws the properties rely on;
  - logging, the progress bar and [time.sleep] have no effect on the data
    and are left out. *)

From Stdlib Require Import ZArith List String Ascii Bool Lia Floats.
From Stdlib Require Import Sorting.Sorted Sorting.Permutation.
From stdpp Require Import base list sorting.
Import ListNotations.

Set Warnings "-register-all,-inexact-float".

Local Open Scope string_scope.
Local Open Scope list_scope.
Local Open Scope Z_scope.

(** ** Python values and builtins *)

Module Py.

Inductive value : Type :=
| VNone
| VBool (b : bool)
| VInt (n : Z)
| VFloat (x : float)
| VStr (s : string)
| VList (l : list value)
| VDict (d : list (string * value)).

Abbreviation dict := (list (string * value)).

(** [d.get(k)], and [d[k]] when [None] is read as [KeyError]. *)
Fixpoint dict_get (k : string) (d : dict) : option value :=
  match d with
  | [] => None
  | (k', v) :: d' => if String.eqb k k' then Some v else dict_get k d'
  end.

(** [d.get(k, dflt)] *)
Definition dict_get_default (k : string) (dflt : value) (d : dict) : value :=
  match dict_get k d with
  | Some v => v
  | None => dflt
  end.

(** [d[k] = v]: an existing key keeps its place, a new key goes last. *)
Fixpoint dict_set (k : string) (v : value) (d : dict) : dict :=
  match d with
  | [] => [(k, v)]
  | (k', v') :: d' =>
      if String.eqb k k' then (k, v) :: d' else (k', v') :: dict_set k v d'
  end.

(** [d.update(upd)] for a dict [upd], item by item. *)
Definition dict_update (d upd : dict) : dict :=
  fold_left (fun acc kv => dict_set (fst kv) (snd kv) acc) upd d.

Definition has_key (k : string) (d : dict) : bool :=
  match dict_get k d with Some _ => true | None => false end.

(** [sep.join(parts)] *)
Fixpoint str_join (sep : string) (parts : list string) : string :=
  match parts with
  | [] => ""
  | [p] => p
  | p :: ps => (p ++ sep ++ str_join sep ps)%string
  end.

(** The characters (code points) of a string, each as its UTF-8 bytes. *)
Definition is_continuation (a : ascii) : bool :=
  let n := nat_of_ascii a in (128 <=? n)%nat && (n <? 192)%nat.

Fixpoint utf8_chars (s : string) : list string :=
  match s with
  | EmptyString => []
  | String a s' =>
      match s' with
      | String b _ =>
          if is_continuation b then
            match utf8_chars s' with
            | c :: cs => String a c :: cs
            | [] => [String a EmptyString]
            end
          else String a EmptyString :: utf8_chars s'
      | EmptyString => [String a EmptyString]
      end
  end.

Definition as_str (v : value) : option string :=
  match v with VStr s => Some s | _ => None end.

(** [sep.join(v)] for a value [v]: a list must hold strings only, a string
    is joined character by character, a dict by its keys; anything else is
    not iterable ([TypeError], here [None]). *)
Definition str_join_value (sep : string) (v : value) : option string :=
  match v with
  | VList l => option_map (str_join sep) (mapM as_str l)
  | VStr s => Some (str_join sep (utf8_chars s))
  | VDict d => Some (str_join sep (map fst d))
  | _ => None
  end.

(** [l[lo:hi]] with Python's treatment of negative and large bounds. *)
Definition clamp_index (len i : Z) : Z :=
  if i <? 0 then Z.max 0 (i + len) else Z.min i len.

Definition slice {A} (l : list A) (lo hi : Z) : list A :=
  let len := Z.of_nat (length l) in
  let lo' := clamp_index len lo in
  let hi' := clamp_index len hi in
  take (Z.to_nat (hi' - lo')) (drop (Z.to_nat lo') l).

(** [l[:hi]] *)
Definition slice_to {A} (l : list A) (hi : Z) : list A := slice l 0 hi.

(** [range(start, stop, step)]; a zero step raises [ValueError]. *)
Definition range_len (start stop step : Z) : Z :=
  if 0 <? step then (stop - start + step - 1) / step
  else (start - stop - step - 1) / (- step).

Definition range (start stop step : Z) : option (list Z) :=
  if step =? 0 then None
  else Some (map (fun k => start + Z.of_nat k * step)
                 (seq 0 (Z.to_nat (range_len start stop step)))).

End Py.
Export Py.

(** ** Floating point *)

Module Flt.

Local Open Scope float_scope.

(** The literal [0.3] of the source: the binary64 number nearest to it. *)
Definition threshold_literal : float := 0x1.3333333333333p-2.

(** Conversion of a Python [int] to binary64, rounding to nearest even. *)
Definition of_Z (n : Z) : float :=
  SF2Prim (binary_normalize prec emax n 0 false).

(** A signed zero or a NaN: what a sum of products with zero factors can
    be. *)
Definition zero_or_nan (x : float) : bool :=
  match Prim2SF x with
  | S754_zero _ | S754_nan => true
  | _ => false
  end.

End Flt.

(** ** scikit-learn's [cosine_similarity]

  The library function is not part of the repository, and its numbers are
  those of the installed version and of its linear algebra backend (the
  order of the sums, the norms it takes for zero).  The processor is
  therefore stated over any function that satisfies the laws listed with
  the collaborators ([Env]).  This module holds the vocabulary of these
  laws, a list of numbers read as a row ([as_row]) and a finite row of a
  given length ([row_ok]), and a reference implementation, which serves as
  the library of the examples: both arguments are validated, every row is
  divided by its Euclidean norm, a zero norm being replaced by one, and the
  rows are multiplied, each sum taken from left to right. *)

Module Sklearn.

Local Open Scope float_scope.

Definition dot (a b : list float) : float :=
  fold_left (fun acc p => acc + fst p * snd p) (combine a b) 0.

Definition row_norm (a : list float) : float := sqrt (dot a a).

Definition handle_zeros_in_scale (n : float) : float :=
  if n =? 0 then 1 else n.

Definition normalize (a : list float) : list float :=
  let n := handle_zeros_in_scale (row_norm a) in
  map (fun x => x / n) a.

(** The similarity of two rows. *)
Definition similarity (x y : list float) : float :=
  dot (normalize x) (normalize y).

(** An entry of a list of numbers: floats, integers and booleans.  (The
    library converts more, numeric strings for one; a list that holds
    anything else is not a row in the sense of the properties below.) *)
Definition as_float (v : value) : option float :=
  match v with
  | VFloat x => Some x
  | VInt n => Some (Flt.of_Z n)
  | VBool b => Some (if b then 1 else 0)
  | _ => None
  end.

Definition as_row (v : value) : option (list float) :=
  match v with
  | VList l => mapM as_float l
  | _ => None
  end.

Definition row_ok (n : nat) (r : list float) : bool :=
  Nat.eqb (length r) n && forallb is_finite r.

(** The validation of the reference implementation; [None] stands for a
    [ValueError]. *)
Definition check_pairwise_arrays (X Y : list value)
  : option (list (list float) * list (list float)) :=
  match mapM as_row X, mapM as_row Y with
  | Some (x :: xs), Some (y :: ys) =>
      let n := length x in
      if negb (Nat.eqb n 0)
         && forallb (row_ok n) (x :: xs) && forallb (row_ok n) (y :: ys)
      then Some (x :: xs, y :: ys) else None
  | _, _ => None
  end.

(** The similarity matrix, one row per row of [X]. *)
Definition cosine_similarity (X Y : list value) : option (list (list float)) :=
  match check_pairwise_arrays X Y with
  | Some (xs, ys) =>
      Some (map (fun x => map (similarity x) ys) xs)
  | None => None
  end.

End Sklearn.

(** ** Outcomes, state and the object heap *)

Inductive outcome (A : Type) : Type :=
| Ok (a : A)
| Raised.
Arguments Ok {A} a.
Arguments Raised {A}.

(** A computation over a state [S] that returns or raises; the state it
    leaves behind is kept in both cases. *)
Definition M (S A : Type) : Type := S -> outcome A * S.

Definition ret {S A} (a : A) : M S A := fun s => (Ok a, s).

Definition bind {S A B} (m : M S A) (k : A -> M S B) : M S B :=
  fun s =>
    match m s with
    | (Ok a, s') => k a s'
    | (Raised, s') => (Raised, s')
    end.

Definition raise {S A} : M S A := fun s => (Raised, s).

Definition gets {S A} (f : S -> A) : M S A := fun s => (Ok (f s), s).

(** [try: body except Exception: handler] *)
Definition try_except {S A} (body handler : M S A) : M S A :=
  fun s =>
    match body s with
    | (Ok a, s') => (Ok a, s')
    | (Raised, s') => handler s'
    end.

Definition of_option {S A} (o : option A) : M S A :=
  match o with
  | Some a => ret a
  | None => raise
  end.

Notation "'let*' x ':=' m 'in' k" := (bind m (fun x => k))
  (at level 10, x name, m at level 100, k at level 200).
Notation "'run' m 'in' k" := (bind m (fun _ => k))
  (at level 10, m at level 100, k at level 200).

Fixpoint for_each {S A} (f : A -> M S unit) (l : list A) : M S unit :=
  match l with
  | [] => ret tt
  | x :: l' => run f x in for_each f l'
  end.

Fixpoint map_m {S A B} (f : A -> M S B) (l : list A) : M S (list B) :=
  match l with
  | [] => ret []
  | x :: l' => let* y := f x in let* ys := map_m f l' in ret (y :: ys)
  end.

(** References to [dict] objects. *)
Abbreviation loc := nat (only parsing).

(** The dimension of [text-embedding-3-small]. *)
Definition EMBEDDING_DIM : nat := 1536.

(** The collaborators of the processor: the chat and embedding endpoints of
    the OpenAI client ([None] when the call raises, the response has no
    usable content, ...), each free to answer differently from call to call
    through the [World] it threads; [json.loads]; [str()] of a value that is
    not a string; [str.strip]; and scikit-learn's [cosine_similarity]
    ([None] when it raises), of which only this much is used:
    - the result has one row per row of [X] and one column per row of [Y];
    - lists of numbers that form two non-empty arrays of finite entries with
      the same, positive, number of columns are accepted;
    - an entry of the result is a zero (or not a number) when its row of
      [X], or its row of [Y], is a list of zeros;
    - a list in [X] and a list in [Y] of different lengths are refused, and
      so is a list in [Y] that holds an infinite or not-a-number float. *)
Record Env : Type := {
  World : Type;
  chat_completions_create : string -> World -> option string * World;
  embeddings_create : value -> World -> option (list float) * World;
  json_loads : string -> option value;
  py_repr : value -> string;
  str_strip : string -> string;
  cosine_similarity : list value -> list value -> option (list (list float));
  cosine_similarity_shape :
    forall X Y m,
      cosine_similarity X Y = Some m ->
      length m = length X /\ Forall (fun r => length r = length Y) m;
  cosine_similarity_accepts :
    forall X Y xs ys n,
      mapM Sklearn.as_row X = Some xs ->
      mapM Sklearn.as_row Y = Some ys ->
      xs <> [] -> ys <> [] -> n <> 0%nat ->
      forallb (Sklearn.row_ok n) xs = true ->
      forallb (Sklearn.row_ok n) ys = true ->
      is_Some (cosine_similarity X Y);
  cosine_similarity_zero_l :
    forall X Y m i r u zs,
      cosine_similarity X Y = Some m ->
      m !! i = Some r ->
      X !! i = Some u ->
      Sklearn.as_row u = Some zs ->
      Forall (fun z => is_zero z = true) zs ->
      Forall (fun x => Flt.zero_or_nan x = true) r;
  cosine_similarity_zero_r :
    forall X Y m i r j x v zs,
      cosine_similarity X Y = Some m ->
      m !! i = Some r ->
      r !! j = Some x ->
      Y !! j = Some v ->
      Sklearn.as_row v = Some zs ->
      Forall (fun z => is_zero z = true) zs ->
      Flt.zero_or_nan x = true;
  cosine_similarity_dimension :
    forall X Y lx ly,
      VList lx ∈ X -> VList ly ∈ Y -> length lx <> length ly ->
      cosine_similarity X Y = None;
  cosine_similarity_finite :
    forall X Y l x,
      VList l ∈ Y -> VFloat x ∈ l -> is_finite x = false ->
      cosine_similarity X Y = None
}.

Section Processor.

Context (E : Env).

Record store : Type := {
  world : World E;
  heap : list dict
}.

(** The attributes [self.companies] and [self.enriched_companies], with the
    store. *)
Record state : Type := {
  mem : store;
  companies : list loc;
  enriched_companies : list loc
}.

Definition on_store {A} (m : M store A) : M state A :=
  fun s =>
    let (r, m') := m (mem s) in
    (r, {| mem := m'; companies := companies s;
           enriched_companies := enriched_companies s |}).

Definition deref (l : loc) : M store dict :=
  fun s => (match heap s !! l with Some d => Ok d | None => Raised end, s).

Definition alloc (d : dict) : M store loc :=
  fun s => (Ok (length (heap s)), {| world := world s; heap := heap s ++ [d] |}).

Definition write (l : loc) (d : dict) : M store unit :=
  fun s => (Ok tt, {| world := world s; heap := <[l := d]> (heap s) |}).

(** [d.copy()]: a new object with the same items. *)
Definition dict_copy (l : loc) : M store loc :=
  let* d := deref l in alloc d.

(** [d[k] = v] on the object itself. *)
Definition setitem (l : loc) (k : string) (v : value) : M store unit :=
  let* d := deref l in write l (dict_set k v d).

(** [d.update(upd)] on the object itself. *)
Definition update (l : loc) (upd : dict) : M store unit :=
  let* d := deref l in write l (dict_update d upd).

Definition call_chat (prompt : string) : M store string :=
  fun s =>
    let (r, w) := chat_completions_create E prompt (world s) in
    (match r with Some c => Ok c | None => Raised end,
     {| world := w; heap := heap s |}).

Definition call_embeddings (text : value) : M store (list float) :=
  fun s =>
    let (r, w) := embeddings_create E text (world s) in
    (match r with Some v => Ok v | None => Raised end,
     {| world := w; heap := heap s |}).

(** [f"{v}"] *)
Definition fmt (v : value) : string :=
  match v with
  | VStr s => s
  | _ => py_repr E v
  end.

(** *** The enrichment service *)

Definition nl : string := String "010" EmptyString.
Definition dq : string := String "034" EmptyString.
Definition quoted (s : string) : string := (dq ++ s ++ dq)%string.

Definition company_context (company : dict) : string :=
  (nl ++ "Company Name: " ++ fmt (dict_get_default "companyName" (VStr "Unknown") company)
   ++ nl ++ "Type: " ++ fmt (dict_get_default "companyType" (VStr "Unknown") company)
   ++ nl ++ "Region: " ++ fmt (dict_get_default "region" (VStr "Unknown") company)
   ++ nl ++ "Comment: " ++ fmt (dict_get_default "comment" (VStr "N/A") company)
   ++ nl ++ nl
   ++ "This is an Israeli company that may need architectural services." ++ nl)%string.

Definition json_field (k v : string) : string :=
  ("  " ++ quoted k ++ ": " ++ v)%string.

Definition json_array (items : list string) : string :=
  ("[" ++ str_join ", " (map quoted items) ++ "]")%string.

Definition prompt (company : dict) : string :=
  str_join nl
    [ "Analyze this Israeli company for architectural opportunities:";
      "";
      company_context company;
      "";
      "Based on the company type and context, provide a detailed analysis in Hebrew including:";
      "";
      "1. What types of architectural projects they likely need";
      "2. Specializations that would be valuable for architects";
      "3. Project complexity and typical scale";
      "4. Current trends affecting this sector in Israel";
      "5. How architects typically collaborate with this type of organization";
      "";
      "Please respond with a JSON object in the following format:";
      "{";
      (json_field "aiDescription"
         (quoted "detailed Hebrew description of architectural opportunities") ++ ",")%string;
      (json_field "projectTypes"
         (json_array ["list"; "of"; "likely"; "project"; "types"]) ++ ",")%string;
      (json_field "architectSpecialties"
         (json_array ["relevant"; "architectural"; "specializations"]) ++ ",")%string;
      (json_field "complexity" (quoted "low/medium/high") ++ ",")%string;
      (json_field "typicalScale" (quoted "small/medium/large") ++ ",")%string;
      (json_field "collaborationStyle"
         (quoted "typical approach for working with this organization") ++ ",")%string;
      json_field "marketTrends" (quoted "current relevant trends in Israeli market");
      "}";
      "";
      "Ensure all text is in Hebrew and relevant to the Israeli architectural market." ].

Definition as_dict (v : value) : option dict :=
  match v with VDict d => Some d | _ => None end.

(** The text sent to the embedding model, before [strip()]; the two joins
    raise on a value that is not an iterable of strings. *)
Definition searchable_text (company ai_data : dict) : option string :=
  let ind := (nl ++ "            ")%string in
  match str_join_value " " (dict_get_default "projectTypes" (VList []) ai_data),
        str_join_value " " (dict_get_default "architectSpecialties" (VList []) ai_data) with
  | Some project_types, Some specialties =>
      Some (ind ++ fmt (dict_get_default "companyName" (VStr "") company)
            ++ ind ++ fmt (dict_get_default "companyType" (VStr "") company)
            ++ ind ++ fmt (dict_get_default "region" (VStr "") company)
            ++ ind ++ fmt (dict_get_default "aiDescription" (VStr "") ai_data)
            ++ ind ++ project_types
            ++ ind ++ specialties
            ++ ind ++ fmt (dict_get_default "collaborationStyle" (VStr "") ai_data)
            ++ ind ++ fmt (dict_get_default "marketTrends" (VStr "") ai_data)
            ++ ind)%string
  | _, _ => None
  end.

(** The items of the [except] branch of [enrich_company_description]. *)
Definition fallback_description (company : dict) : string :=
  ("חברה מסוג " ++ fmt (dict_get_default "companyType" (VStr "לא ידוע") company)
   ++ " הממוקמת ב" ++ fmt (dict_get_default "region" (VStr "לא ידוע") company))%string.

Definition fallback_fields (company : dict) : dict :=
  [ ("aiDescription", VStr (fallback_description company));
    ("projectTypes", VList []);
    ("architectSpecialties", VList []);
    ("complexity", VStr "medium");
    ("typicalScale", VStr "medium");
    ("searchableText",
       VStr (fmt (dict_get_default "companyName" (VStr "") company) ++ " "
             ++ fmt (dict_get_default "companyType" (VStr "") company) ++ " "
             ++ fmt (dict_get_default "region" (VStr "") company))%string) ].

(** [enrich_company_description]: the [try] block.  A response that parses
    to something other than a JSON object raises in [update] or, at the
    latest, at the first [ai_data.get]; the object copied for it is then
    dropped. *)
Definition enrich_try (company : loc) : M store loc :=
  let* c := deref company in
  let* content := call_chat (prompt c) in
  let* ai_value := of_option (json_loads E content) in
  let* enhanced_company := dict_copy company in
  let* ai_data := of_option (as_dict ai_value) in
  run update enhanced_company ai_data in
  let* text := of_option (searchable_text c ai_data) in
  run setitem enhanced_company "searchableText" (VStr (str_strip E text)) in
  ret enhanced_company.

(** The [except] block: the original company with a minimal enhancement. *)
Definition enrich_except (company : loc) : M store loc :=
  let* c := deref company in
  let* enhanced_company := dict_copy company in
  run update enhanced_company (fallback_fields c) in
  ret enhanced_company.

Definition enrich_company_description (company : loc) : M store loc :=
  try_except (enrich_try company) (enrich_except company).

(** *** The embedding service *)

Definition generate_embedding (text : value) : M store (list float) :=
  try_except
    (call_embeddings text)
    (ret (replicate EMBEDDING_DIM 0%float)).

(** *** The batch orchestrator *)

Definition append_enriched (l : loc) : M state unit :=
  fun s =>
    (Ok tt, {| mem := mem s; companies := companies s;
               enriched_companies := enriched_companies s ++ [l] |}).

Definition zero_embedding : value :=
  VList (replicate EMBEDDING_DIM (VFloat 0%float)).

Section Orchestrator.

(** The two [time.sleep] calls of the loop are left out: they change no
    attribute and no object.  What the pauses mean to the services (their
    rate limits) is outside this model, so nothing below compares runs that
    pause differently. *)

(** The two calls made inside the [try] of the loop body.  The loop is
    stated over any pair of steps, which may raise; the processor runs it
    with [enrich_company_description] and [generate_embedding]. *)
Variable enrich_step : loc -> M store loc.
Variable embed_step : value -> M store (list float).

(** The body of the inner loop for one company: its [try] block, its
    [except] block, and the two together. *)
Definition process_try (company : loc) : M state unit :=
  let* enhanced_company := on_store (enrich_step company) in
  let* d := on_store (deref enhanced_company) in
  let* text := of_option (dict_get "searchableText" d) in
  let* embedding := on_store (embed_step text) in
  run on_store (setitem enhanced_company "embedding"
                  (VList (map VFloat embedding))) in
  append_enriched enhanced_company.

Definition process_except (company : loc) : M state unit :=
  let* fallback_company := on_store (dict_copy company) in
  run on_store (setitem fallback_company "embedding" zero_embedding) in
  append_enriched fallback_company.

Definition process_company (company : loc) : M state unit :=
  try_except (process_try company) (process_except company).

Definition process_batch (batch_size i : Z) : M state unit :=
  let* batch := gets (fun s => slice (companies s) i (i + batch_size)) in
  for_each process_company batch.

Definition batch_loop (batch_size : Z) : M state unit :=
  let* n := gets (fun s => Z.of_nat (length (companies s))) in
  let* starts := of_option (range 0 n batch_size) in
  for_each (process_batch batch_size) starts.

End Orchestrator.

(** [batch_enrich_companies] *)
Definition batch_enrich_companies (batch_size : Z) : M state unit :=
  batch_loop enrich_company_description generate_embedding batch_size.

(** *** Search *)

(** [list.sort(key=..., reverse=True)] on the keys computed beforehand:
    stable, descending, comparing keys with [<] only. *)
Fixpoint insert_desc {A} (x : float * A) (l : list (float * A)) : list (float * A) :=
  match l with
  | [] => [x]
  | y :: l' => if (fst x <? fst y)%float then y :: insert_desc x l' else x :: y :: l'
  end.

Definition sort_desc {A} (l : list (float * A)) : list (float * A) :=
  foldr insert_desc [] l.

(** The order [sort_desc] produces on items that carry an index: keys go
    down, and items with equal keys keep the order of their indices. *)
Definition item_before {A} (idx : A -> nat) (x y : float * A) : Prop :=
  (fst y <=? fst x)%float = true
  /\ ((fst x <=? fst y)%float = true -> (idx (snd x) < idx (snd y))%nat).

(** A sort key as a float; the keys of [semantic_search] are the floats its
    loop has just stored. *)
Definition float_key (v : value) : option float :=
  match v with VFloat x => Some x | _ => None end.

(** [x['similarity_score']] *)
Definition similarity_score (r : loc) : M state float :=
  let* d := on_store (deref r) in
  let* v := of_option (dict_get "similarity_score" d) in
  of_option (float_key v).

(** [comp['embedding']] *)
Definition embedding_of (comp : loc) : M state value :=
  let* d := on_store (deref comp) in
  of_option (dict_get "embedding" d).

(** The loop over [enumerate(self.enriched_companies)]. *)
Fixpoint collect_results (similarities : list float) (items : list (nat * loc))
    (results : list loc) : M state (list loc) :=
  match items with
  | [] => ret results
  | (i, company) :: rest =>
      let* sim := of_option (similarities !! i) in
      if (Flt.threshold_literal <? sim)%float then
        let* company_with_score := on_store (dict_copy company) in
        run on_store (setitem company_with_score "similarity_score" (VFloat sim)) in
        collect_results similarities rest (results ++ [company_with_score])
      else collect_results similarities rest results
  end.

Definition enumerate {A} (l : list A) : list (nat * A) :=
  combine (seq 0 (length l)) l.

(** [semantic_search]: the [try] block, and the method. *)
Definition search_try (query : string) (top_k : Z) (enriched : list loc)
    : M state (list loc) :=
  let* query_embedding := on_store (generate_embedding (VStr query)) in
  let* company_embeddings := map_m embedding_of enriched in
  let* matrix := of_option
    (cosine_similarity E [VList (map VFloat query_embedding)]
       company_embeddings) in
  let* similarities := of_option (matrix !! 0%nat) in
  let* results := collect_results similarities (enumerate enriched) [] in
  let* keys := map_m similarity_score results in
  ret (slice_to (map snd (sort_desc (combine keys results))) top_k).

Definition semantic_search (query : string) (top_k : Z) : M state (list loc) :=
  let* enriched := gets enriched_companies in
  match enriched with
  | [] => ret []
  | _ :: _ => try_except (search_try query top_k enriched) (ret [])
  end.

(** *** Vocabulary of the properties *)

(** A computation that leaves every object of the heap as it was: it may
    only allocate. *)
Definition preserves {A} (m : M store A) : Prop :=
  forall s r s', m s = (r, s') -> heap s `prefix_of` heap s'.

(** The text-generation call fails for a record: the request raises, or the
    content of the response does not parse. *)
Definition generation_fails (c : dict) (w : World E) : bool :=
  match chat_completions_create E (prompt c) w with
  | (None, _) => true
  | (Some content, _) =>
      match json_loads E content with
      | None => true
      | Some _ => false
      end
  end.

(** The fields of the EnrichmentResult shape, as the specification lists
    them, and a record that carries all of them. *)
Definition enrichment_result_shape : list string :=
  [ "aiDescription"; "projectTypes"; "architectSpecialties"; "complexity";
    "typicalScale"; "collaborationStyle"; "marketTrends" ].

Definition fully_populated (d : dict) : bool :=
  forallb (fun k => has_key k d) enrichment_result_shape.

(** The embedding capability answers with vectors of the dimension of the
    model whenever it answers. *)
Definition capability_dimension : Prop :=
  forall t w v w',
    embeddings_create E t w = (Some v, w') -> length v = EMBEDDING_DIM.

(** The object at [e] carries an embedding of [EMBEDDING_DIM] floats. *)
Definition has_embedding (h : list dict) (e : loc) : Prop :=
  exists d v,
    h !! e = Some d
    /\ dict_get "embedding" d = Some (VList (map VFloat v))
    /\ length v = EMBEDDING_DIM.

(** The object at [e] stores, under [embedding], an array-like that reads
    as the row [y]. *)
Definition stores_row (h : list dict) (e : loc) (y : list float) : Prop :=
  exists d v,
    h !! e = Some d
    /\ dict_get "embedding" d = Some v
    /\ Sklearn.as_row v = Some y.

(** The query row and the rows of the collection are finite rows of one
    positive length: arrays that [cosine_similarity] accepts. *)
Definition compatible_rows (q : list float) (ys : list (list float)) : bool :=
  negb (Nat.eqb (length q) 0)
  && forallb (Sklearn.row_ok (length q)) [q]
  && forallb (Sklearn.row_ok (length q)) ys.

(** A record with its score attached. *)
Definition with_score (x : float) (d : dict) : dict :=
  dict_set "similarity_score" (VFloat x) d.

(** What the loop of [semantic_search] picks: for every item above the
    threshold, its score, its index in the collection, its reference and
    the reference of the copy made for it ([next], [next + 1], ...). *)
Fixpoint picks (sims : list float) (items : list (nat * loc)) (next : loc)
    : list (float * (nat * (loc * loc))) :=
  match items with
  | [] => []
  | (i, e) :: rest =>
      match sims !! i with
      | Some x =>
          if (Flt.threshold_literal <? x)%float
          then (x, (i, (e, next))) :: picks sims rest (Datatypes.S next)
          else picks sims rest next
      | None => []
      end
  end.

Definition pick_index (t : float * (nat * (loc * loc))) : nat := fst (snd t).
Definition pick_source (t : float * (nat * (loc * loc))) : loc := fst (snd (snd t)).
Definition pick_copy (t : float * (nat * (loc * loc))) : loc := snd (snd (snd t)).

(** The copy made for a pick. *)
Definition scored_copy (h : list dict) (t : float * (nat * (loc * loc))) : dict :=
  with_score (fst t) (default [] (h !! pick_source t)).

(** The order of the results: by score, descending; equal scores by index
    in the collection. *)
Definition ranked_before (sim : nat -> float) (i j : nat) : Prop :=
  (sim j <=? sim i)%float = true
  /\ ((sim i <=? sim j)%float = true -> (i < j)%nat).

(** [comp['embedding']] as a function of the heap. *)
Definition read_embedding (h : list dict) (e : loc) : outcome value :=
  match h !! e with
  | Some d => match dict_get "embedding" d with
              | Some v => Ok v
              | None => Raised
              end
  | None => Raised
  end.

(** The object at [l] stores an all-zero embedding. *)
Definition has_zero_embedding (h : list dict) (l : loc) : Prop :=
  exists zs, stores_row h l zs /\ Forall (fun z => is_zero z = true) zs.

(** The embedding [semantic_search] computes for a query. *)
Definition query_embedding (query : string) (s : state) : list float :=
  match fst (generate_embedding (VStr query) (mem s)) with
  | Ok q => q
  | Raised => []
  end.

(** [[comp['embedding'] for comp in self.enriched_companies]] as a
    function of the heap: [None] when a record has no [embedding]. *)
Definition read_embeddings (h : list dict) (es : list loc) : option (list value) :=
  mapM (fun e => match read_embedding h e with
                 | Ok v => Some v
                 | Raised => None
                 end) es.

(** The similarities [semantic_search] obtains for a query: row 0 of
    [cosine_similarity([query_embedding], company_embeddings)], [None] when
    an embedding cannot be read or the library raises. *)
Definition search_scores (query : string) (s : state) : option (list float) :=
  match read_embeddings (heap (mem s)) (enriched_companies s) with
  | Some company_embeddings =>
      match cosine_similarity E [VList (map VFloat (query_embedding query s))]
              company_embeddings with
      | Some matrix => matrix !! 0%nat
      | None => None
      end
  | None => None
  end.

(** The search of the specification (section 4.4), with its threshold
    parameter, over the similarities of the records to the query and the
    records: keep the scores above the threshold, sort by score
    (descending, stable), return the first [top_k] with their scores. *)
Definition search_spec (sims : list float) (records : list dict)
    (top_k : nat) (threshold : float) : list dict :=
  take top_k
    (map (fun p => with_score (fst p) (snd p))
       (sort_desc
          (List.filter (fun p => (threshold <? fst p)%float)
             (combine sims records)))).

(** Every reference of a list points into the heap. *)
Definition valid_refs (h : list dict) (ls : list loc) : Prop :=
  Forall (fun l => (l < length h)%nat) ls.

(** [processed f cs s es s']: running [f] on the records [cs] one after the
    other, from [s], never raises, ends in [s'], and appends exactly the
    entry [es !! i] to [enriched_companies] while it handles [cs !! i]. *)
Inductive processed (f : loc -> M state unit)
  : list loc -> state -> list loc -> state -> Prop :=
| processed_nil s : processed f [] s [] s
| processed_cons c cs s e s1 es s2 :
    f c s = (Ok tt, s1) ->
    companies s1 = companies s ->
    enriched_companies s1 = enriched_companies s ++ [e] ->
    processed f cs s1 es s2 ->
    processed f (c :: cs) s (e :: es) s2.

End Processor.

Arguments mem {E} s.
Arguments companies {E} s.
Arguments enriched_companies {E} s.
Arguments world {E} s.
Arguments heap {E} s.
Arguments preserves {E A} m.
Arguments generation_fails {E} c w.
Arguments capability_dimension E : clear implicits.
Arguments has_embedding h e : clear implicits.
Arguments stores_row h e y : clear implicits.
Arguments compatible_rows q ys : clear implicits.
Arguments with_score x d : clear implicits.
Arguments picks sims items next : clear implicits.
Arguments scored_copy h t : clear implicits.
Arguments read_embedding h e : clear implicits.
Arguments has_zero_embedding h l : clear implicits.
Arguments query_embedding E query s : clear implicits.
Arguments read_embeddings h es : clear implicits.
Arguments search_scores E query s : clear implicits.
Arguments search_spec sims records top_k threshold : clear implicits.
Arguments ranked_before sim i j : clear implicits.

(** ** The rest of the class: [test_search], [save_enhanced_data] *)

Section Wrappers.

Context (E : Env).

(** [f"{x:.3f}"] goes through for a number that converts to a float, and
    raises for anything else. *)
Definition format_3f_ok (v : value) : bool :=
  match v with
  | VFloat _ | VBool _ => true
  | VInt n => is_finite (Flt.of_Z n)
  | _ => false
  end.

(** The line [test_search] logs for one result: two [result.get], which
    cannot raise, and [result['similarity_score']] formatted with [.3f]. *)
Definition log_result (result : loc) : M (state E) unit :=
  let* d := on_store E (deref E result) in
  let* score := of_option (dict_get "similarity_score" d) in
  if format_3f_ok score then ret tt else raise.

(** The body of the loop of [test_search], for one query. *)
Definition test_query (query : string) : M (state E) unit :=
  let* results := semantic_search E query 5 in
  match results with
  | [] => ret tt
  | _ :: _ => for_each log_result (slice_to results 3)
  end.

(** [test_search] *)
Definition test_search (test_queries : list string) : M (state E) unit :=
  for_each test_query test_queries.

(** The clock and the output file: [time.strftime], and [open] followed by
    [json.dump] ([false] when one of the two raises). *)
Record IO : Type := {
  strftime : string -> World E -> string * World E;
  dump_json : string -> value -> World E -> bool * World E
}.

(** The processor with the two attributes [load_company_data] sets;
    [__init__] sets neither, so that each of them may be missing. *)
Record processor : Type := {
  core : state E;
  regions : option value;
  company_types : option value
}.

(** [RAGProcessor(api_key)] *)
Definition new_processor (w : World E) (h : list dict) : processor :=
  {| core := {| mem := {| world := w; heap := h |}; companies := [];
                enriched_companies := [] |};
     regions := None;
     company_types := None |}.

Definition on_core {A} (m : M (state E) A) : M processor A :=
  fun p =>
    let (r, c) := m (core p) in
    (r, {| core := c; regions := regions p; company_types := company_types p |}).

Definition on_world {A} (f : World E -> A * World E) : M (state E) A :=
  fun s =>
    let (a, w) := f (world (mem s)) in
    (Ok a, {| mem := {| world := w; heap := heap (mem s) |};
              companies := companies s;
              enriched_companies := enriched_companies s |}).

(** The dictionary [save_enhanced_data] dumps. *)
Definition enhanced_data (regions company_types : value) (total : Z)
    (records : list dict) (processed_at : string) : value :=
  VDict
    [ ("regions", regions);
      ("companyTypes", company_types);
      ("companies", VList (map VDict records));
      ("metadata",
         VDict [ ("total_companies", VInt total);
                 ("rag_enhanced", VBool true);
                 ("embedding_model", VStr "text-embedding-3-small");
                 ("processed_at", VStr processed_at) ]) ].

(** [save_enhanced_data].  Its handler logs and raises again, so the method
    is its [try] block; [json.dump] reads the records when it writes. *)
Definition save_enhanced_data (io : IO) (output_file : string) : M processor unit :=
  let* r := (fun p => of_option (regions p) p) in
  let* t := (fun p => of_option (company_types p) p) in
  let* total := gets (fun p => Z.of_nat (length (enriched_companies (core p)))) in
  let* processed_at := on_core (on_world (strftime io "%Y-%m-%d %H:%M:%S")) in
  let* enriched := gets (fun p => enriched_companies (core p)) in
  let* records := on_core (map_m (fun e => on_store E (deref E e)) enriched) in
  let* written :=
    on_core (on_world (dump_json io output_file
                         (enhanced_data r t total records processed_at))) in
  if written then ret tt else raise.

(** *** Vocabulary of the further properties *)

(** A parsed response the [try] block of [enrich_company_description]
    rejects: not a JSON object, or one whose tags do not join. *)
Definition shape_rejected (c : dict) (v : value) : bool :=
  match v with
  | VDict ai =>
      match searchable_text E c ai with
      | Some _ => false
      | None => true
      end
  | _ => true
  end.

(** The embedding capability answers with finite vectors of the dimension
    of the model whenever it answers. *)
Definition capability_finite : Prop :=
  forall t w v w',
    embeddings_create E t w = (Some v, w') ->
    length v = EMBEDDING_DIM /\ forallb is_finite v = true.

(** The object at [e] carries a finite embedding of [EMBEDDING_DIM]
    floats. *)
Definition has_finite_embedding (h : list dict) (e : loc) : Prop :=
  exists d v,
    h !! e = Some d
    /\ dict_get "embedding" d = Some (VList (map VFloat v))
    /\ length v = EMBEDDING_DIM
    /\ forallb is_finite v = true.

(** The entry at [e] made for the record at [c]: another object, the
    record with items set or added, among them a searchable text and an
    embedding. *)
Definition entry_of (h : list dict) (c e : loc) : Prop :=
  exists d upd text v,
    c <> e
    /\ h !! c = Some d
    /\ h !! e = Some (dict_update d upd)
    /\ dict_get "searchableText" (dict_update d upd) = Some (VStr text)
    /\ dict_get "embedding" (dict_update d upd) = Some (VList (map VFloat v)).

(** A record whose embedding cannot take part in a search with a query
    embedding of [n] entries: it has none, or it is a list of another
    length, or a list that holds an infinite or not-a-number float. *)
Definition unusable_embedding (n : nat) (d : dict) : Prop :=
  dict_get "embedding" d = None
  \/ exists l,
       dict_get "embedding" d = Some (VList l)
       /\ (length l <> n
           \/ exists x, VFloat x ∈ l /\ is_finite x = false).

(** The keys of a record that [enrich_company_description] reads, and two
    records that agree on them. *)
Definition fields_read : list string :=
  [ "companyName"; "companyType"; "region"; "comment" ].

Definition agree_on_fields_read (c1 c2 : dict) : Prop :=
  Forall (fun k => dict_get k c1 = dict_get k c2) fields_read.

(** The text [enrich_company_description] leaves under [searchableText]
    for a record, in a world: the stripped text of its [try] block when the
    response can be used, the text of its [except] block otherwise. *)
Definition enrichment_text (c : dict) (w : World E) : string :=
  let fallback :=
    (fmt E (dict_get_default "companyName" (VStr "") c) ++ " "
     ++ fmt E (dict_get_default "companyType" (VStr "") c) ++ " "
     ++ fmt E (dict_get_default "region" (VStr "") c))%string in
  match fst (chat_completions_create E (prompt E c) w) with
  | Some content =>
      match json_loads E content with
      | Some (VDict ai) =>
          match searchable_text E c ai with
          | Some text => str_strip E text
          | None => fallback
          end
      | _ => fallback
      end
  | None => fallback
  end.

End Wrappers.

Arguments core {E} p.
Arguments regions {E} p.
Arguments company_types {E} p.
Arguments strftime {E} _ _ _.
Arguments dump_json {E} _ _ _ _.
Arguments has_finite_embedding h e : clear implicits.
Arguments entry_of h c e : clear implicits.

(** * Properties *)

(** ** Binary64 comparisons and zeros *)

Module FloatFacts.

Local Open Scope float_scope.

Ltac cmp_cases :=
  repeat match goal with
  | |- context [Pos.compare_cont Eq ?a ?b] =>
      change (Pos.compare_cont Eq a b) with (Pos.compare a b);
      destruct (Pos.compare_spec a b)
  | H : context [Pos.compare_cont Eq ?a ?b] |- _ =>
      change (Pos.compare_cont Eq a b) with (Pos.compare a b) in H;
      destruct (Pos.compare_spec a b)
  | |- context [Z.compare ?a ?b] => destruct (Z.compare_spec a b)
  | H : context [Z.compare ?a ?b] |- _ => destruct (Z.compare_spec a b)
  end.

Lemma SFcompare_antisym a b :
  SFcompare b a = option_map CompOpp (SFcompare a b).
Proof.
  destruct a as [sa|sa| |sa ma ea], b as [sb|sb| |sb mb eb];
    try destruct sa; try destruct sb; try reflexivity; simpl;
    cmp_cases; simpl; subst; try reflexivity; try lia.
Qed.

Lemma SFleb_trans a b c :
  SFleb a b = true -> SFleb b c = true -> SFleb a c = true.
Proof.
  unfold SFleb.
  destruct a as [sa|sa| |sa ma ea], b as [sb|sb| |sb mb eb], c as [sc|sc| |sc mc ec];
    try destruct sa; try destruct sb; try destruct sc; simpl;
    try (intros; congruence);
    intros H1 H2; cmp_cases; simpl in *; subst; try congruence; try lia.
Qed.

Lemma is_nan_spec x : is_nan x = false <-> Prim2SF x <> S754_nan.
Proof.
  unfold is_nan. rewrite FloatAxioms.eqb_spec. unfold SFeqb.
  destruct (Prim2SF x) as [s|s| |s m e]; simpl.
  - split; [discriminate | reflexivity].
  - destruct s; (split; [discriminate | reflexivity]).
  - split; [discriminate | congruence].
  - rewrite Z.compare_refl.
    change (Pos.compare_cont Eq m m) with (Pos.compare m m).
    rewrite Pos.compare_refl. destruct s; (split; [discriminate | reflexivity]).
Qed.

Lemma SFcompare_defined a b :
  a <> S754_nan -> b <> S754_nan -> exists c, SFcompare a b = Some c.
Proof.
  destruct a as [sa|sa| |sa ma ea], b as [sb|sb| |sb mb eb];
    try congruence; intros _ _; simpl; try destruct sa; try destruct sb; eauto.
Qed.

Lemma ltb_not_nan a b : (a <? b) = true -> is_nan a = false /\ is_nan b = false.
Proof.
  rewrite FloatAxioms.ltb_spec, !is_nan_spec. unfold SFltb.
  destruct (Prim2SF a), (Prim2SF b); simpl; try discriminate; split; discriminate.
Qed.

Lemma ltb_leb_false a b : (a <? b) = true -> (b <=? a) = false.
Proof.
  rewrite FloatAxioms.ltb_spec, FloatAxioms.leb_spec. unfold SFltb, SFleb.
  rewrite (SFcompare_antisym (Prim2SF a) (Prim2SF b)).
  destruct (SFcompare (Prim2SF a) (Prim2SF b)) as [[]|]; simpl; congruence.
Qed.

Lemma ltb_leb a b : (a <? b) = true -> (a <=? b) = true.
Proof.
  rewrite FloatAxioms.ltb_spec, FloatAxioms.leb_spec. unfold SFltb, SFleb.
  destruct (SFcompare (Prim2SF a) (Prim2SF b)) as [[]|]; congruence.
Qed.

Lemma ltb_false_leb a b :
  is_nan a = false -> is_nan b = false -> (a <? b) = false -> (b <=? a) = true.
Proof.
  rewrite FloatAxioms.ltb_spec, FloatAxioms.leb_spec, !is_nan_spec. unfold SFltb, SFleb. intros Ha Hb.
  rewrite (SFcompare_antisym (Prim2SF a) (Prim2SF b)).
  destruct (SFcompare_defined _ _ Ha Hb) as [c ->].
  destruct c; simpl; congruence.
Qed.

Lemma leb_trans a b c : (a <=? b) = true -> (b <=? c) = true -> (a <=? c) = true.
Proof. rewrite !FloatAxioms.leb_spec. apply SFleb_trans. Qed.

Lemma leb_ltb_trans a b c : (a <=? b) = true -> (b <? c) = true -> (a <? c) = true.
Proof.
  intros Hab Hbc.
  destruct (ltb_not_nan _ _ Hbc) as [Hb Hc].
  assert (Ha : is_nan a = false).
  { apply is_nan_spec. rewrite FloatAxioms.leb_spec in Hab. unfold SFleb in Hab.
    intros Hn. rewrite Hn in Hab. discriminate. }
  destruct (a <? c) eqn:Hac; [reflexivity|].
  apply ltb_false_leb in Hac; try assumption.
  pose proof (leb_trans _ _ _ Hac Hab) as Hcb.
  apply ltb_leb_false in Hbc. congruence.
Qed.

Lemma is_zero_zero_or_nan x : is_zero x = true -> Flt.zero_or_nan x = true.
Proof.
  unfold is_zero, Flt.zero_or_nan. rewrite FloatAxioms.eqb_spec. unfold SFeqb.
  replace (Prim2SF zero) with (S754_zero false) by reflexivity.
  destruct (Prim2SF x) as [s|s| |s m e]; simpl; try reflexivity;
    destruct s; discriminate.
Qed.

Lemma mul_zero_or_nan_l x y : Flt.zero_or_nan x = true -> Flt.zero_or_nan (x * y) = true.
Proof.
  unfold Flt.zero_or_nan. rewrite FloatAxioms.mul_spec. unfold SF64mul, SFmul.
  destruct (Prim2SF x), (Prim2SF y); simpl; congruence.
Qed.

Lemma mul_zero_or_nan_r x y : Flt.zero_or_nan y = true -> Flt.zero_or_nan (x * y) = true.
Proof.
  unfold Flt.zero_or_nan. rewrite FloatAxioms.mul_spec. unfold SF64mul, SFmul.
  destruct (Prim2SF x), (Prim2SF y); simpl; congruence.
Qed.

Lemma add_zero_or_nan x y :
  Flt.zero_or_nan x = true -> Flt.zero_or_nan y = true -> Flt.zero_or_nan (x + y) = true.
Proof.
  unfold Flt.zero_or_nan. rewrite FloatAxioms.add_spec. unfold SF64add, SFadd.
  destruct (Prim2SF x) as [[]|[]| |], (Prim2SF y) as [[]|[]| |]; simpl; congruence.
Qed.

Lemma div_zero_or_nan x y : Flt.zero_or_nan x = true -> Flt.zero_or_nan (x / y) = true.
Proof.
  unfold Flt.zero_or_nan. rewrite FloatAxioms.div_spec. unfold SF64div, SFdiv.
  destruct (Prim2SF x), (Prim2SF y); simpl; congruence.
Qed.

Lemma ltb_zero_or_nan t x :
  (0 <=? t) = true -> Flt.zero_or_nan x = true -> (t <? x) = false.
Proof.
  unfold Flt.zero_or_nan. rewrite FloatAxioms.leb_spec, FloatAxioms.ltb_spec. unfold SFleb, SFltb.
  replace (Prim2SF 0) with (S754_zero false) by reflexivity.
  destruct (Prim2SF t) as [|[]| |[]], (Prim2SF x); simpl; congruence.
Qed.

End FloatFacts.

(** ** The reference implementation of the library *)

Section SklearnFacts.

Import FloatFacts.
Local Open Scope float_scope.

Lemma mapM_as_float_floats (q : list float) :
  mapM Sklearn.as_float (map VFloat q) = Some q.
Proof.
  apply mapM_Some. induction q; simpl; constructor; auto.
Qed.

Lemma as_row_floats (q : list float) :
  Sklearn.as_row (VList (map VFloat q)) = Some q.
Proof. apply mapM_as_float_floats. Qed.

Lemma fold_dot_zero_or_nan (ps : list (float * float)) acc :
  Flt.zero_or_nan acc = true ->
  Forall (fun p => Flt.zero_or_nan (fst p) = true \/ Flt.zero_or_nan (snd p) = true) ps ->
  Flt.zero_or_nan (fold_left (fun a p => a + fst p * snd p) ps acc) = true.
Proof.
  revert acc. induction ps as [|p ps IH]; intros acc Hacc Hps; simpl; [exact Hacc|].
  apply Forall_cons in Hps as [Hp Hps].
  apply IH; [|exact Hps].
  apply add_zero_or_nan; [exact Hacc|].
  destruct Hp; [now apply mul_zero_or_nan_l | now apply mul_zero_or_nan_r].
Qed.

Lemma dot_zero_or_nan_r a b :
  Forall (fun x => Flt.zero_or_nan x = true) b ->
  Flt.zero_or_nan (Sklearn.dot a b) = true.
Proof.
  intros Hb. unfold Sklearn.dot. apply fold_dot_zero_or_nan; [reflexivity|].
  revert a. induction Hb as [|y b Hy Hb IH]; intros [|x a]; simpl; constructor; auto.
Qed.

Lemma dot_zero_or_nan_l a b :
  Forall (fun x => Flt.zero_or_nan x = true) a ->
  Flt.zero_or_nan (Sklearn.dot a b) = true.
Proof.
  intros Ha. unfold Sklearn.dot. apply fold_dot_zero_or_nan; [reflexivity|].
  revert b. induction Ha as [|x a Hx Ha IH]; intros [|y b]; simpl; constructor; auto.
Qed.

Lemma normalize_zero_or_nan a :
  Forall (fun x => Flt.zero_or_nan x = true) a ->
  Forall (fun x => Flt.zero_or_nan x = true) (Sklearn.normalize a).
Proof.
  intros Ha. unfold Sklearn.normalize.
  generalize (Sklearn.handle_zeros_in_scale (Sklearn.row_norm a)). intros n.
  induction Ha; simpl; constructor; auto using div_zero_or_nan.
Qed.

(** The similarity with a row of zeros is a zero (or not a number),
    whatever the other row. *)
Lemma similarity_zero_r q y :
  Forall (fun x => is_zero x = true) y ->
  Flt.zero_or_nan (Sklearn.similarity q y) = true.
Proof.
  intros Hy. apply dot_zero_or_nan_r, normalize_zero_or_nan.
  eapply Forall_impl; [exact Hy|]. apply is_zero_zero_or_nan.
Qed.

Lemma similarity_zero_l q y :
  Forall (fun x => is_zero x = true) q ->
  Flt.zero_or_nan (Sklearn.similarity q y) = true.
Proof.
  intros Hq. apply dot_zero_or_nan_l, normalize_zero_or_nan.
  eapply Forall_impl; [exact Hq|]. apply is_zero_zero_or_nan.
Qed.

Lemma threshold_nonneg : (0 <=? Flt.threshold_literal) = true.
Proof. reflexivity. Qed.

End SklearnFacts.

(** *** The reference implementation satisfies the laws of the library *)

Section ReferenceLibrary.

Import FloatFacts.

Lemma reference_inv X Y m :
  Sklearn.cosine_similarity X Y = Some m ->
  exists xs ys n,
    mapM Sklearn.as_row X = Some xs
    /\ mapM Sklearn.as_row Y = Some ys
    /\ forallb (Sklearn.row_ok n) xs = true
    /\ forallb (Sklearn.row_ok n) ys = true
    /\ m = map (fun x => map (Sklearn.similarity x) ys) xs.
Proof.
  unfold Sklearn.cosine_similarity, Sklearn.check_pairwise_arrays.
  destruct (mapM Sklearn.as_row X) as [[|x xs]|]; try discriminate.
  destruct (mapM Sklearn.as_row Y) as [[|y ys]|]; try discriminate.
  destruct (negb (Nat.eqb (length x) 0)
            && forallb (Sklearn.row_ok (length x)) (x :: xs)
            && forallb (Sklearn.row_ok (length x)) (y :: ys)) eqn:Hc;
    [|discriminate].
  intros [= <-].
  apply andb_true_iff in Hc as [Hc Hy]. apply andb_true_iff in Hc as [_ Hx].
  exists (x :: xs), (y :: ys), (length x). auto.
Qed.

Lemma row_ok_length n r : Sklearn.row_ok n r = true -> length r = n.
Proof.
  unfold Sklearn.row_ok. intros H. apply andb_true_iff in H as [H _].
  now apply Nat.eqb_eq.
Qed.

Lemma row_ok_finite n r x :
  Sklearn.row_ok n r = true -> x ∈ r -> is_finite x = true.
Proof.
  unfold Sklearn.row_ok. intros H Hx. apply andb_true_iff in H as [_ H].
  rewrite forallb_forall in H. apply H. now apply list_elem_of_In.
Qed.

Lemma forallb_elem_of {A} (f : A -> bool) (l : list A) x :
  forallb f l = true -> x ∈ l -> f x = true.
Proof. rewrite forallb_forall. intros H Hx. apply H. now apply list_elem_of_In. Qed.

(** A row of a list that reads as rows. *)
Lemma as_row_member X xs u :
  mapM Sklearn.as_row X = Some xs -> u ∈ X ->
  exists x, x ∈ xs /\ Sklearn.as_row u = Some x.
Proof.
  intros HX Hu. apply mapM_Some in HX.
  apply list_elem_of_lookup in Hu as [i Hi].
  destruct (Forall2_lookup_l _ _ _ _ _ HX Hi) as (x & Hx & Hrow).
  exists x. split; [eapply list_elem_of_lookup_2, Hx | exact Hrow].
Qed.

Lemma reference_shape X Y m :
  Sklearn.cosine_similarity X Y = Some m ->
  length m = length X /\ Forall (fun r => length r = length Y) m.
Proof.
  intros H. destruct (reference_inv X Y m H) as (xs & ys & n & HX & HY & _ & _ & ->).
  apply length_mapM in HX. apply length_mapM in HY.
  split; [rewrite length_map; congruence|].
  apply Forall_forall. intros r Hr.
  change (map ?f xs) with (f <$> xs) in Hr.
  apply list_elem_of_fmap in Hr as (x & -> & _).
  rewrite length_map. congruence.
Qed.

Lemma reference_accepts X Y xs ys n :
  mapM Sklearn.as_row X = Some xs ->
  mapM Sklearn.as_row Y = Some ys ->
  xs <> [] -> ys <> [] -> n <> 0%nat ->
  forallb (Sklearn.row_ok n) xs = true ->
  forallb (Sklearn.row_ok n) ys = true ->
  is_Some (Sklearn.cosine_similarity X Y).
Proof.
  intros HX HY Hxs Hys Hn Hokx Hoky.
  unfold Sklearn.cosine_similarity, Sklearn.check_pairwise_arrays.
  rewrite HX, HY.
  destruct xs as [|x xs]; [congruence|]. destruct ys as [|y ys]; [congruence|].
  assert (Hlen : length x = n).
  { apply row_ok_length. eapply forallb_elem_of; [exact Hokx | constructor]. }
  rewrite Hlen, Hokx, Hoky.
  destruct (Nat.eqb_spec n 0) as [?|_]; [congruence|]. simpl. eauto.
Qed.

Lemma reference_zero_l X Y m i r u zs :
  Sklearn.cosine_similarity X Y = Some m ->
  m !! i = Some r ->
  X !! i = Some u ->
  Sklearn.as_row u = Some zs ->
  Forall (fun z => is_zero z = true) zs ->
  Forall (fun x => Flt.zero_or_nan x = true) r.
Proof.
  intros H Hr Hu Hrow Hzs.
  destruct (reference_inv X Y m H) as (xs & ys & n & HX & _ & _ & _ & ->).
  apply mapM_Some in HX.
  destruct (Forall2_lookup_l _ _ _ _ _ HX Hu) as (x & Hx & Hrow').
  rewrite Hrow in Hrow'. injection Hrow' as <-.
  change (map ?f xs) with (f <$> xs) in Hr.
  rewrite list_lookup_fmap, Hx in Hr. injection Hr as <-.
  apply Forall_forall. intros s Hs.
  change (map ?f ys) with (f <$> ys) in Hs.
  apply list_elem_of_fmap in Hs as (y & -> & _).
  now apply similarity_zero_l.
Qed.

Lemma reference_zero_r X Y m i r j x v zs :
  Sklearn.cosine_similarity X Y = Some m ->
  m !! i = Some r ->
  r !! j = Some x ->
  Y !! j = Some v ->
  Sklearn.as_row v = Some zs ->
  Forall (fun z => is_zero z = true) zs ->
  Flt.zero_or_nan x = true.
Proof.
  intros H Hr Hx Hv Hrow Hzs.
  destruct (reference_inv X Y m H) as (xs & ys & n & _ & HY & _ & _ & ->).
  apply mapM_Some in HY.
  destruct (Forall2_lookup_l _ _ _ _ _ HY Hv) as (y & Hy & Hrow').
  rewrite Hrow in Hrow'. injection Hrow' as <-.
  change (map ?f xs) with (f <$> xs) in Hr.
  rewrite list_lookup_fmap in Hr.
  destruct (xs !! i) as [q|]; [|discriminate]. injection Hr as <-.
  change (map ?f ys) with (f <$> ys) in Hx.
  rewrite list_lookup_fmap, Hy in Hx. injection Hx as <-.
  now apply similarity_zero_r.
Qed.

Lemma reference_dimension X Y lx ly :
  VList lx ∈ X -> VList ly ∈ Y -> length lx <> length ly ->
  Sklearn.cosine_similarity X Y = None.
Proof.
  intros Hx Hy Hne.
  destruct (Sklearn.cosine_similarity X Y) as [m|] eqn:H; [|reflexivity].
  exfalso.
  destruct (reference_inv X Y m H) as (xs & ys & n & HX & HY & Hokx & Hoky & _).
  destruct (as_row_member _ _ _ HX Hx) as (x & Hxin & Hxrow).
  destruct (as_row_member _ _ _ HY Hy) as (y & Hyin & Hyrow).
  apply length_mapM in Hxrow. apply length_mapM in Hyrow.
  pose proof (row_ok_length _ _ (forallb_elem_of _ _ _ Hokx Hxin)).
  pose proof (row_ok_length _ _ (forallb_elem_of _ _ _ Hoky Hyin)).
  congruence.
Qed.

Lemma reference_finite X Y l x :
  VList l ∈ Y -> VFloat x ∈ l -> is_finite x = false ->
  Sklearn.cosine_similarity X Y = None.
Proof.
  intros Hl Hx Hinf.
  destruct (Sklearn.cosine_similarity X Y) as [m|] eqn:H; [|reflexivity].
  exfalso.
  destruct (reference_inv X Y m H) as (xs & ys & n & _ & HY & _ & Hoky & _).
  destruct (as_row_member _ _ _ HY Hl) as (y & Hyin & Hyrow).
  simpl in Hyrow. apply mapM_Some in Hyrow.
  apply list_elem_of_lookup in Hx as [k Hk].
  destruct (Forall2_lookup_l _ _ _ _ _ Hyrow Hk) as (x' & Hx' & Hconv).
  simpl in Hconv. injection Hconv as <-.
  rewrite (row_ok_finite n y x) in Hinf; [discriminate| |].
  - eapply forallb_elem_of; eauto.
  - eapply list_elem_of_lookup_2, Hx'.
Qed.

End ReferenceLibrary.

(** ** Concrete collaborators, for the examples *)

(** Collaborators with the reference implementation as their library. *)
Definition reference_env (W : Type)
    (chat : string -> W -> option string * W)
    (embed : value -> W -> option (list float) * W)
    (loads : string -> option value) : Env := {|
  World := W;
  chat_completions_create := chat;
  embeddings_create := embed;
  json_loads := loads;
  py_repr := fun _ => "?";
  str_strip := fun t => t;
  cosine_similarity := Sklearn.cosine_similarity;
  cosine_similarity_shape := reference_shape;
  cosine_similarity_accepts := reference_accepts;
  cosine_similarity_zero_l := reference_zero_l;
  cosine_similarity_zero_r := reference_zero_r;
  cosine_similarity_dimension := reference_dimension;
  cosine_similarity_finite := reference_finite
|}.

(** A client whose every call raises. *)
Definition offline_env : Env :=
  reference_env unit
    (fun _ w => (None, w))
    (fun _ w => (None, w))
    (fun _ => None).

(** A client whose embedding endpoint answers, with a constant vector. *)
Definition online_env : Env :=
  reference_env unit
    (fun _ w => (None, w))
    (fun _ w => (Some (replicate EMBEDDING_DIM 1%float), w))
    (fun _ => None).

(** An enrichment step that always raises. *)
Definition failing_step {E : Env} (c : loc) : M (store E) loc := raise.

Definition offline_store (h : list dict) : store offline_env :=
  Build_store offline_env tt h.

Definition initial_state (E : Env) (w : World E) (h : list dict)
    (cs : list loc) : state E :=
  {| mem := {| world := w; heap := h |}; companies := cs;
     enriched_companies := [] |}.

(** A client whose embedding endpoint answers with a vector of two
    coordinates, and an enriched collection of four records: one along the
    query vector, one at similarity about 0.5, one with a zero embedding,
    one at similarity about 0.2. *)
Definition toy_env : Env :=
  reference_env unit
    (fun _ w => (None, w))
    (fun _ w => (Some [1%float; 0%float], w))
    (fun _ => None).

Definition toy_record (name : string) (embedding : list float) : dict :=
  [("companyName", VStr name); ("embedding", VList (map VFloat embedding))].

Definition toy_records : list dict :=
  [ toy_record "A" [2%float; 0%float];
    toy_record "B" [1%float; 1.75%float];
    toy_record "C" [0%float; 0%float];
    toy_record "D" [1%float; 4.75%float] ].

Definition toy_state : state toy_env :=
  {| mem := Build_store toy_env tt toy_records;
     companies := [];
     enriched_companies := [2%nat; 1%nat; 0%nat; 3%nat] |}.

(** The rows and the records of [toy_state], in the order of its
    collection. *)
Definition toy_collection_rows : list (list float) :=
  [ [0%float; 0%float]; [1%float; 1.75%float]; [2%float; 0%float];
    [1%float; 4.75%float] ].

Definition toy_collection : list dict :=
  [ toy_record "C" [0%float; 0%float];
    toy_record "B" [1%float; 1.75%float];
    toy_record "A" [2%float; 0%float];
    toy_record "D" [1%float; 4.75%float] ].

(** Three records, and a processor that has loaded them. *)
Definition sample_records : list dict :=
  [ [("companyName", VStr "Acme"); ("companyType", VStr "school")];
    [("companyName", VStr "Beta"); ("region", VStr "north")];
    [] ].

Definition sample_state (E : Env) (w : World E) : state E :=
  initial_state E w sample_records [0%nat; 1%nat; 2%nat].

(** A client whose chat endpoint answers, with a response that parses to an
    object renaming the company. *)
Definition chatty_env : Env :=
  reference_env unit
    (fun _ w => (Some "{...}", w))
    (fun _ w => (None, w))
    (fun _ =>
       Some (VDict [ ("companyName", VStr "Renamed");
                     ("projectTypes", VList [VStr "schools"; VStr "clinics"]) ])).

(** A client whose chat endpoint answers with a JSON array. *)
Definition listy_env : Env :=
  reference_env unit
    (fun _ w => (Some "[]", w))
    (fun _ w => (None, w))
    (fun _ => Some (VList [])).

(** A clock that stands still and a file that can be written. *)
Definition toy_io : IO toy_env := {|
  strftime := fun _ w => ("2024-01-01 00:00:00", w);
  dump_json := fun _ _ w => (true, w)
|}.

(** The toy collection in a processor that has loaded its data. *)
Definition toy_processor : processor toy_env := {|
  core := toy_state;
  regions := Some (VList [VStr "north"; VStr "south"]);
  company_types := Some (VList [VStr "school"])
|}.

(** ** Dictionaries *)

Lemma dict_get_set_eq k v d : dict_get k (dict_set k v d) = Some v.
Proof.
  induction d as [|[k' v'] d IH]; simpl.
  - now rewrite String.eqb_refl.
  - destruct (String.eqb k k') eqn:Hk; simpl; rewrite ?Hk, ?String.eqb_refl; auto.
Qed.

Lemma dict_get_set_ne k k' v d :
  String.eqb k k' = false -> dict_get k (dict_set k' v d) = dict_get k d.
Proof.
  intros Hne. induction d as [|[k2 v2] d IH]; simpl.
  - now rewrite Hne.
  - destruct (String.eqb k' k2) eqn:Hk; simpl.
    + apply String.eqb_eq in Hk. subst k2. now rewrite Hne.
    + now rewrite IH.
Qed.

Lemma dict_update_app d u1 u2 :
  dict_update d (u1 ++ u2) = dict_update (dict_update d u1) u2.
Proof. unfold dict_update. apply fold_left_app. Qed.

(** ** The monad *)

Section MonadLemmas.

Context {S : Type}.

Lemma bind_ok {A B} (m : M S A) (k : A -> M S B) s a s1 :
  m s = (Ok a, s1) -> bind m k s = k a s1.
Proof. unfold bind. now intros ->. Qed.

Lemma bind_raised {A B} (m : M S A) (k : A -> M S B) s s1 :
  m s = (Raised, s1) -> bind m k s = (Raised, s1).
Proof. unfold bind. now intros ->. Qed.

Lemma try_ok {A} (body handler : M S A) s a s1 :
  body s = (Ok a, s1) -> try_except body handler s = (Ok a, s1).
Proof. unfold try_except. now intros ->. Qed.

Lemma try_raised {A} (body handler : M S A) s s1 :
  body s = (Raised, s1) -> try_except body handler s = handler s1.
Proof. unfold try_except. now intros ->. Qed.

End MonadLemmas.

(** ** The heap *)

Section HeapLemmas.

Context {E : Env}.

Lemma prefix_lookup (h h' : list dict) l d :
  h `prefix_of` h' -> h !! l = Some d -> h' !! l = Some d.
Proof. intros [ext ->] Hl. now apply lookup_app_l_Some. Qed.

Lemma deref_eq l (s : store E) :
  deref E l s = (match heap s !! l with Some d => Ok d | None => Raised end, s).
Proof. reflexivity. Qed.

Lemma dict_copy_ok l d (s : store E) :
  heap s !! l = Some d ->
  dict_copy E l s
  = (Ok (length (heap s)), {| world := world s; heap := heap s ++ [d] |}).
Proof. intros H. unfold dict_copy, bind, deref, alloc. now rewrite H. Qed.

(** Item assignment on the object allocated last. *)
Lemma setitem_last k v d (w : World E) (h : list dict) :
  setitem E (length h) k v {| world := w; heap := h ++ [d] |}
  = (Ok tt, {| world := w; heap := h ++ [dict_set k v d] |}).
Proof.
  unfold setitem, bind, deref, write. simpl.
  rewrite lookup_app_r, Nat.sub_diag by lia. simpl.
  rewrite insert_app_r_alt, Nat.sub_diag by lia. reflexivity.
Qed.

Lemma update_last upd d (w : World E) (h : list dict) :
  update E (length h) upd {| world := w; heap := h ++ [d] |}
  = (Ok tt, {| world := w; heap := h ++ [dict_update d upd] |}).
Proof.
  unfold update, bind, deref, write. simpl.
  rewrite lookup_app_r, Nat.sub_diag by lia. simpl.
  rewrite insert_app_r_alt, Nat.sub_diag by lia. reflexivity.
Qed.

End HeapLemmas.

(** ** The enrichment service *)

Section Enrichment.

Context {E : Env}.

Lemma enrich_except_run company c (s : store E) :
  heap s !! company = Some c ->
  enrich_except E company s
  = (Ok (length (heap s)),
     {| world := world s;
        heap := heap s ++ [dict_update c (fallback_fields E c)] |}).
Proof.
  intros Hc. unfold enrich_except.
  rewrite (bind_ok _ _ s c s) by (rewrite deref_eq, Hc; reflexivity).
  erewrite bind_ok by (apply dict_copy_ok, Hc).
  erewrite bind_ok by apply update_last.
  reflexivity.
Qed.

(** What the [try] block leaves behind: at most one dropped object. *)
Lemma enrich_try_run company c (s : store E) :
  heap s !! company = Some c ->
  exists w' r garbage,
    enrich_try E company s = (r, {| world := w'; heap := heap s ++ garbage |})
    /\ match r with
       | Ok e => e = length (heap s)
                 /\ exists ai text,
                      garbage = [dict_set "searchableText" (VStr text)
                                   (dict_update c ai)]
       | Raised => (length garbage <= 1)%nat
       end.
Proof.
  intros Hc. unfold enrich_try.
  rewrite (bind_ok _ _ s c s) by (rewrite deref_eq, Hc; reflexivity).
  unfold bind at 1. unfold call_chat.
  destruct (chat_completions_create E (prompt E c) (world s)) as [[content|] w1].
  2:{ exists w1, Raised, []. rewrite app_nil_r. split; [reflexivity | simpl; lia]. }
  unfold bind at 1.
  destruct (json_loads E content) as [ai_value|]; simpl.
  2:{ exists w1, Raised, []. rewrite app_nil_r. split; [reflexivity | simpl; lia]. }
  erewrite bind_ok by (apply dict_copy_ok; simpl; exact Hc). simpl.
  unfold bind at 1.
  destruct (as_dict ai_value) as [ai|]; simpl.
  2:{ exists w1, Raised, [c]. split; [reflexivity | simpl; lia]. }
  erewrite bind_ok by apply update_last.
  unfold bind at 1.
  destruct (searchable_text E c ai) as [text|]; simpl.
  2:{ exists w1, Raised, [dict_update c ai]. split; [reflexivity | simpl; lia]. }
  erewrite bind_ok by apply setitem_last.
  exists w1, (Ok (length (heap s))), [dict_set "searchableText" (VStr (str_strip E text)) (dict_update c ai)].
  split; [reflexivity|]. split; [reflexivity|]. now exists ai, (str_strip E text).
Qed.

(** [enrich_company_description] never raises on a record: it returns a new
    object, the record updated with some items, and touches no other. *)
Lemma enrich_company_description_run company c (s : store E) :
  heap s !! company = Some c ->
  exists w' garbage upd,
    enrich_company_description E company s
    = (Ok (length (heap s ++ garbage)),
       {| world := w'; heap := (heap s ++ garbage) ++ [dict_update c upd] |})
    /\ (length garbage <= 1)%nat
    /\ exists text, dict_get "searchableText" (dict_update c upd) = Some (VStr text).
Proof.
  intros Hc. unfold enrich_company_description.
  destruct (enrich_try_run company c s Hc) as (w' & r & garbage & Hrun & Hr).
  destruct r as [e|].
  - destruct Hr as (-> & ai & text & ->).
    exists w', [], (ai ++ [("searchableText", VStr text)]).
    rewrite (try_ok _ _ _ _ _ Hrun), !app_nil_r.
    rewrite dict_update_app. simpl.
    split; [reflexivity|]. split; [lia|].
    exists text. unfold dict_update at 1. simpl. apply dict_get_set_eq.
  - rewrite (try_raised _ _ _ _ Hrun).
    rewrite (enrich_except_run company c) by (simpl; now apply lookup_app_l_Some).
    simpl. exists w', garbage, (fallback_fields E c).
    split; [reflexivity|]. split; [assumption|].
    eexists. unfold fallback_fields, dict_update. simpl. apply dict_get_set_eq.
Qed.

Lemma enrich_company_description_preserves company :
  preserves (enrich_company_description E company).
Proof.
  intros s r s' Hrun.
  destruct (heap s !! company) as [c|] eqn:Hc.
  - destruct (enrich_company_description_run company c s Hc)
      as (w' & garbage & upd & Heq & _).
    rewrite Heq in Hrun. injection Hrun as _ <-. simpl.
    rewrite <- app_assoc. now eexists.
  - unfold enrich_company_description, try_except, enrich_try, enrich_except in Hrun.
    unfold bind at 1 in Hrun. rewrite deref_eq, Hc in Hrun.
    unfold bind at 1 in Hrun. rewrite deref_eq, Hc in Hrun.
    injection Hrun as _ <-. reflexivity.
Qed.

End Enrichment.

(** ** The embedding service *)

Section Embedding.

Context {E : Env}.

(** [generate_embedding] never raises and leaves the heap alone. *)
Lemma generate_embedding_run text (s : store E) :
  exists v,
    generate_embedding E text s
    = (Ok v, {| world := snd (embeddings_create E text (world s));
                heap := heap s |})
    /\ match fst (embeddings_create E text (world s)) with
       | Some v' => v = v'
       | None => v = replicate EMBEDDING_DIM 0%float
       end.
Proof.
  unfold generate_embedding, try_except, call_embeddings, ret.
  destruct (embeddings_create E text (world s)) as [[v|] w]; simpl; eauto.
Qed.

Lemma generate_embedding_preserves text : preserves (generate_embedding E text).
Proof.
  intros s r s' Hrun.
  destruct (generate_embedding_run text s) as (v & Heq & _).
  rewrite Heq in Hrun. injection Hrun as _ <-. reflexivity.
Qed.

End Embedding.

(** ** The batch orchestrator *)

Section Batch.

Context {E : Env}.
Variable enrich_step : loc -> M (store E) loc.
Variable embed_step : value -> M (store E) (list float).
Hypothesis enrich_preserves : forall c, preserves (enrich_step c).
Hypothesis embed_preserves : forall t, preserves (embed_step t).

Lemma on_store_eq {A} (m : M (store E) A) (s : state E) r m' :
  m (mem s) = (r, m') ->
  on_store E m s
  = (r, {| mem := m'; companies := companies s;
           enriched_companies := enriched_companies s |}).
Proof. unfold on_store. now intros ->. Qed.

(** The [try] block either raises before it has changed any object or
    appended anything, or sets the embedding of the object the enrichment
    step returned and appends it. *)
Lemma process_try_run c (s : state E) :
  (exists m1,
      process_try E enrich_step embed_step c s
      = (Raised, {| mem := m1; companies := companies s;
                    enriched_companies := enriched_companies s |})
      /\ heap (mem s) `prefix_of` heap m1)
  \/ (exists e d1 v h1 w1 t sa sb,
         heap (mem s) `prefix_of` h1
         /\ h1 !! e = Some d1
         /\ embed_step t sa = (Ok v, sb)
         /\ process_try E enrich_step embed_step c s
            = (Ok tt,
               {| mem := {| world := w1;
                            heap := <[e := dict_set "embedding"
                                             (VList (map VFloat v)) d1]> h1 |};
                  companies := companies s;
                  enriched_companies := enriched_companies s ++ [e] |})).
Proof.
  unfold process_try.
  destruct (enrich_step c (mem s)) as [r1 m1] eqn:H1.
  pose proof (enrich_preserves _ _ _ _ H1) as P1.
  destruct r1 as [e|].
  2:{ left. exists m1. erewrite bind_raised by (apply on_store_eq, H1). auto. }
  erewrite bind_ok by (apply on_store_eq, H1).
  destruct (heap m1 !! e) as [d1|] eqn:He.
  2:{ left. exists m1. erewrite bind_raised.
      - split; [reflexivity | exact P1].
      - erewrite on_store_eq by (rewrite deref_eq; simpl; rewrite He; reflexivity).
        reflexivity. }
  erewrite bind_ok
    by (erewrite on_store_eq by (rewrite deref_eq; simpl; rewrite He; reflexivity);
        reflexivity).
  destruct (dict_get "searchableText" d1) as [text|].
  2:{ left. exists m1. simpl. rewrite bind_raised with (s1 := {| mem := m1;
        companies := companies s; enriched_companies := enriched_companies s |})
        by reflexivity. auto. }
  simpl of_option. erewrite bind_ok by reflexivity.
  destruct (embed_step text m1) as [r2 m2] eqn:H2.
  pose proof (embed_preserves _ _ _ _ H2) as P2.
  destruct r2 as [v|].
  2:{ left. exists m2. erewrite bind_raised by (apply on_store_eq; simpl; exact H2).
      simpl. split; [reflexivity | now transitivity (heap m1)]. }
  erewrite bind_ok by (apply on_store_eq; simpl; exact H2). simpl.
  pose proof (prefix_lookup _ _ _ _ P2 He) as He2.
  right. exists e, d1, v, (heap m2), (world m2), text, m1, m2.
  split; [now transitivity (heap m1)|]. split; [exact He2|]. split; [exact H2|].
  erewrite bind_ok.
  2:{ apply on_store_eq. simpl. unfold setitem.
      rewrite (bind_ok _ _ m2 d1 m2) by (rewrite deref_eq; simpl; rewrite He2; reflexivity).
      reflexivity. }
  reflexivity.
Qed.

(** The [except] block, entered after the [try] block raised. *)
Lemma process_except_run c d (s : state E) :
  heap (mem s) !! c = Some d ->
  process_except E c s
  = (Ok tt,
     {| mem := {| world := world (mem s);
                  heap := heap (mem s) ++ [dict_set "embedding" zero_embedding d] |};
        companies := companies s;
        enriched_companies := enriched_companies s ++ [length (heap (mem s))] |}).
Proof.
  intros Hc. unfold process_except.
  erewrite bind_ok by (apply on_store_eq, dict_copy_ok, Hc).
  erewrite bind_ok by (apply on_store_eq; simpl; apply setitem_last).
  reflexivity.
Qed.

(** One record: exactly one entry is appended, whatever the steps do. *)
Lemma process_company_run c d (s : state E) :
  heap (mem s) !! c = Some d ->
  exists e s',
    process_company E enrich_step embed_step c s = (Ok tt, s')
    /\ companies s' = companies s
    /\ enriched_companies s' = enriched_companies s ++ [e]
    /\ (length (heap (mem s)) <= length (heap (mem s')))%nat.
Proof.
  intros Hc. unfold process_company.
  destruct (process_try_run c s) as [(m1 & Hrun & P) | (e & d1 & v & h1 & w1 & t & sa & sb & P & He & _ & Hrun)].
  - rewrite (try_raised _ _ _ _ Hrun).
    rewrite (process_except_run c d) by (simpl; eapply prefix_lookup; eauto).
    simpl. eexists _, _. split; [reflexivity|]. repeat split.
    simpl. rewrite length_app. apply prefix_length in P. lia.
  - rewrite (try_ok _ _ _ _ _ Hrun). eexists _, _. split; [reflexivity|].
    simpl. repeat split. rewrite length_insert. now apply prefix_length.
Qed.

(** One record, in detail: either the [try] block raised and the entry is a
    copy of the record with a zero embedding, or the entry is the object
    returned by the enrichment step, with the embedding of the embedding
    step set on it. *)
Lemma process_company_cases c d (s : state E) :
  heap (mem s) !! c = Some d ->
  exists e s' h1,
    process_company E enrich_step embed_step c s = (Ok tt, s')
    /\ companies s' = companies s
    /\ enriched_companies s' = enriched_companies s ++ [e]
    /\ heap (mem s) `prefix_of` h1
    /\ ((e = length h1
         /\ heap (mem s') = h1 ++ [dict_set "embedding" zero_embedding d]
         /\ exists s1, process_try E enrich_step embed_step c s = (Raised, s1))
        \/ (exists d1 v t sa sb,
               h1 !! e = Some d1
               /\ embed_step t sa = (Ok v, sb)
               /\ heap (mem s')
                  = <[e := dict_set "embedding" (VList (map VFloat v)) d1]> h1)).
Proof.
  intros Hc. unfold process_company.
  destruct (process_try_run c s) as [(m1 & Hrun & P) | (e & d1 & v & h1 & w1 & t & sa & sb & P & He & Hv & Hrun)].
  - rewrite (try_raised _ _ _ _ Hrun).
    rewrite (process_except_run c d) by (simpl; eapply prefix_lookup; eauto).
    simpl. eexists _, _, (heap m1). split; [reflexivity|].
    split; [reflexivity|]. split; [reflexivity|]. split; [exact P|].
    left. split; [reflexivity|]. split; [reflexivity|]. eauto.
  - rewrite (try_ok _ _ _ _ _ Hrun). eexists e, _, h1. split; [reflexivity|].
    split; [reflexivity|]. split; [reflexivity|]. split; [exact P|].
    right. exists d1, v, t, sa, sb. auto.
Qed.

#[local] Abbreviation step := (process_company E enrich_step embed_step).

Lemma processed_length cs (s : state E) es s' :
  processed E step cs s es s' -> length es = length cs.
Proof. induction 1; simpl; congruence. Qed.

Lemma processed_enriched cs (s : state E) es s' :
  processed E step cs s es s' ->
  enriched_companies s' = enriched_companies s ++ es
  /\ companies s' = companies s.
Proof.
  induction 1 as [|c cs s e s1 es s2 _ Hc He _ [IH1 IH2]]; simpl.
  - now rewrite app_nil_r.
  - rewrite IH1, IH2, He, Hc, <- app_assoc. auto.
Qed.

Lemma processed_for_each cs (s : state E) es s' :
  processed E step cs s es s' -> for_each step cs s = (Ok tt, s').
Proof.
  induction 1 as [|c cs s e s1 es s2 Hrun _ _ _ IH]; simpl; [reflexivity|].
  now rewrite (bind_ok _ _ _ _ _ Hrun).
Qed.

Lemma processed_app cs1 cs2 (s : state E) es1 s1 es2 s2 :
  processed E step cs1 s es1 s1 -> processed E step cs2 s1 es2 s2 ->
  processed E step (cs1 ++ cs2) s (es1 ++ es2) s2.
Proof. induction 1; simpl; intros; [assumption | econstructor; eauto]. Qed.

(** A relation between the heap, a record and the entry appended for it,
    established by the loop body and kept by later iterations. *)
Variable Rel : list dict -> loc -> loc -> Prop.
Hypothesis Rel_step :
  forall c d (s : state E) e s',
    heap (mem s) !! c = Some d ->
    step c s = (Ok tt, s') ->
    enriched_companies s' = enriched_companies s ++ [e] ->
    Rel (heap (mem s')) c e
    /\ forall c0 e0, Rel (heap (mem s)) c0 e0 -> Rel (heap (mem s')) c0 e0.

Lemma processed_keeps_rel cs (s : state E) es s' :
  valid_refs (heap (mem s)) cs ->
  processed E step cs s es s' ->
  (length (heap (mem s)) <= length (heap (mem s')))%nat
  /\ Forall2 (Rel (heap (mem s'))) cs es
  /\ forall c0 e0, Rel (heap (mem s)) c0 e0 -> Rel (heap (mem s')) c0 e0.
Proof.
  intros Hv Hp. induction Hp as [|c cs s e s1 es s2 Hrun Hcs Hen Hp IH].
  - split; [lia|]. split; [constructor | auto].
  - apply Forall_cons in Hv as [Hc Hv].
    destruct (lookup_lt_is_Some_2 _ _ Hc) as [d Hd].
    destruct (process_company_run c d s Hd) as (e' & s1' & Hrun' & _ & _ & Hlen).
    rewrite Hrun in Hrun'. injection Hrun' as <-.
    destruct (Rel_step c d s e s1 Hd Hrun Hen) as [Hnew Hold].
    destruct IH as (Hlen2 & Hall & Hkeep).
    { eapply Forall_impl; [exact Hv|]. simpl. intros. lia. }
    split; [lia|]. split; [constructor; auto | auto].
Qed.

(** A run over valid references goes through. *)
Lemma for_each_processed cs (s : state E) :
  valid_refs (heap (mem s)) cs ->
  exists es s', processed E step cs s es s'.
Proof.
  revert s. induction cs as [|c cs IH]; intros s Hv.
  - exists [], s. constructor.
  - apply Forall_cons in Hv as [Hc Hv].
    destruct (lookup_lt_is_Some_2 _ _ Hc) as [d Hd].
    destruct (process_company_run c d s Hd) as (e & s1 & Hrun & Hcs & Hen & Hlen).
    destruct (IH s1) as (es & s2 & Hp).
    { eapply Forall_impl; [exact Hv|]. simpl. intros. lia. }
    exists (e :: es), s2. econstructor; eauto.
Qed.

(** A chunk [companies[i:i+batch_size]] of the outer loop. *)
Lemma slice_chunk {A} (l : list A) (i bs : Z) :
  0 <= i -> 0 < bs ->
  slice l i (i + bs) = take (Z.to_nat bs) (drop (Z.to_nat i) l).
Proof.
  intros Hi Hbs. unfold slice, clamp_index.
  destruct (Z.ltb_spec i 0) as [?|_]; [lia|].
  destruct (Z.ltb_spec (i + bs) 0) as [?|_]; [lia|].
  destruct (Z.le_gt_cases (Z.of_nat (length l)) i) as [Hout|Hin].
  - rewrite (Z.min_r i), (Z.min_r (i + bs)) by lia.
    rewrite (drop_ge l (Z.to_nat i)), (drop_ge l) by lia. now rewrite !take_nil.
  - rewrite (Z.min_l i) by lia.
    destruct (Z.le_gt_cases (i + bs) (Z.of_nat (length l))) as [Hfit|Hover].
    + rewrite (Z.min_l (i + bs)) by lia. f_equal. lia.
    + rewrite (Z.min_r (i + bs)) by lia.
      rewrite !take_ge; [reflexivity | rewrite length_drop; lia ..].
Qed.

(** The chunks [k0], [k0 + 1], ... of the outer loop handle what is left of
    the records from index [k0 * batch_size] on, in order. *)
Lemma chunks_processed (bs : Z) (m : nat) :
  0 < bs ->
  forall (k0 : nat) (s : state E),
    Z.of_nat (length (companies s)) <= Z.of_nat (k0 + m) * bs ->
    valid_refs (heap (mem s)) (companies s) ->
    exists es s',
      for_each (process_batch E enrich_step embed_step bs)
        (map (fun k => 0 + Z.of_nat k * bs) (seq k0 m)) s = (Ok tt, s')
      /\ processed E step
           (drop (Z.to_nat (Z.of_nat k0 * bs)) (companies s)) s es s'.
Proof.
  intros Hbs. induction m as [|m IH]; intros k0 s Hcover Hvalid.
  - exists [], s. split; [reflexivity|].
    rewrite drop_ge by (rewrite Nat.add_0_r in Hcover; lia). constructor.
  - cbn [seq map for_each].
    set (i := 0 + Z.of_nat k0 * bs).
    set (batch := take (Z.to_nat bs) (drop (Z.to_nat i) (companies s))).
    assert (Hvb : valid_refs (heap (mem s)) batch)
      by (unfold batch; apply Forall_take, Forall_drop, Hvalid).
    destruct (for_each_processed batch s Hvb) as (es1 & s1 & Hp1).
    destruct (processed_keeps_rel _ _ _ _ Hvb Hp1) as (Hlen1 & _ & _).
    destruct (processed_enriched _ _ _ _ Hp1) as [_ Hcs1].
    destruct (IH (Datatypes.S k0) s1) as (es2 & s2 & Hrun2 & Hp2).
    { rewrite Hcs1. lia. }
    { rewrite Hcs1. eapply Forall_impl; [exact Hvalid|]. simpl. intros; lia. }
    exists (es1 ++ es2), s2. split.
    + unfold bind at 1. unfold process_batch at 1. unfold bind at 1. unfold gets at 1.
      rewrite slice_chunk by lia. fold batch.
      rewrite (processed_for_each _ _ _ _ Hp1). exact Hrun2.
    + rewrite Hcs1 in Hp2.
      replace (drop (Z.to_nat (Z.of_nat k0 * bs)) (companies s))
        with (batch ++ drop (Z.to_nat (Z.of_nat (Datatypes.S k0) * bs)) (companies s)).
      * eapply processed_app; eauto.
      * unfold batch, i. rewrite Z.add_0_l.
        replace (Z.to_nat (Z.of_nat (Datatypes.S k0) * bs))
          with (Z.to_nat (Z.of_nat k0 * bs) + Z.to_nat bs)%nat by lia.
        rewrite <- drop_drop. apply take_drop.
Qed.

Lemma range_covers (n bs : Z) :
  0 <= n -> 0 < bs -> n <= Z.of_nat (Z.to_nat (range_len 0 n bs)) * bs.
Proof.
  intros Hn Hbs. unfold range_len.
  destruct (Z.ltb_spec 0 bs) as [_|?]; [|lia].
  rewrite Z.sub_0_r.
  pose proof (Z.div_mod (n + bs - 1) bs ltac:(lia)) as Hdm.
  pose proof (Z.mod_pos_bound (n + bs - 1) bs Hbs) as Hmod.
  assert (0 <= (n + bs - 1) / bs) by (apply Z.div_pos; lia).
  rewrite Z2Nat.id by assumption. nia.
Qed.

(** With a batch size of at least one, the two nested loops handle every
    record once, in the order of [companies]: one entry is appended per
    record. *)
Lemma batch_loop_processed (bs : Z) (s : state E) :
  1 <= bs ->
  valid_refs (heap (mem s)) (companies s) ->
  exists es s',
    batch_loop E enrich_step embed_step bs s = (Ok tt, s')
    /\ processed E step (companies s) s es s'
    /\ companies s' = companies s
    /\ enriched_companies s' = enriched_companies s ++ es
    /\ length es = length (companies s)
    /\ (length (heap (mem s)) <= length (heap (mem s')))%nat
    /\ Forall2 (Rel (heap (mem s'))) (companies s) es
    /\ forall c0 e0, Rel (heap (mem s)) c0 e0 -> Rel (heap (mem s')) c0 e0.
Proof.
  intros Hbs Hvalid.
  assert (exists es s',
             batch_loop E enrich_step embed_step bs s = (Ok tt, s')
             /\ processed E step (companies s) s es s')
    as (es & s' & Hrun & Hp).
  { unfold batch_loop.
    unfold bind at 1. unfold gets at 1.
    unfold range. destruct (Z.eqb_spec bs 0) as [?|_]; [lia|].
    simpl of_option. erewrite bind_ok by reflexivity.
    destruct (chunks_processed bs
                (Z.to_nat (range_len 0 (Z.of_nat (length (companies s))) bs))
                ltac:(lia) 0%nat s) as (es & s' & Hrun & Hp).
    - rewrite Nat.add_0_l. apply range_covers; lia.
    - exact Hvalid.
    - exists es, s'. split; [exact Hrun|]. simpl in Hp. now rewrite drop_0 in Hp. }
  exists es, s'.
  destruct (processed_enriched _ _ _ _ Hp) as [Hen Hcs].
  destruct (processed_keeps_rel _ _ _ _ Hvalid Hp) as (Hlen & Hall & Hkeep).
  pose proof (processed_length _ _ _ _ Hp). auto 10.
Qed.

End Batch.

(** ** C1: the fallback of the enrichment service *)

Section EnrichmentFallback.

Context {E : Env}.

Lemma enrich_try_fails company c (s : store E) :
  heap s !! company = Some c ->
  generation_fails c (world s) = true ->
  exists w', enrich_try E company s = (Raised, {| world := w'; heap := heap s |}).
Proof.
  intros Hc Hfail. unfold enrich_try.
  rewrite (bind_ok _ _ s c s) by (rewrite deref_eq, Hc; reflexivity).
  unfold generation_fails in Hfail.
  unfold bind at 1. unfold call_chat.
  destruct (chat_completions_create E (prompt E c) (world s)) as [[content|] w1].
  - destruct (json_loads E content) eqn:Hj; [discriminate|].
    unfold bind at 1. simpl. now exists w1.
  - now exists w1.
Qed.

Lemma fallback_description_nonempty (c : dict) :
  fallback_description E c <> "".
Proof. unfold fallback_description. simpl. discriminate. Qed.

(** C1 (as amended): when the text-generation call raises or its response
    does not parse, [enrich_company_description] returns a new record, the
    input record updated with a non-empty template-filled [aiDescription],
    empty [projectTypes] and [architectSpecialties], and [complexity] and
    [typicalScale] set to medium.  The fallback does not set
    [collaborationStyle] and [marketTrends]: the result carries them exactly
    when the input record did, with the input's values. *)
Theorem enrich_fallback_fields company c (s : store E) :
  heap s !! company = Some c ->
  generation_fails c (world s) = true ->
  exists e s' d,
    enrich_company_description E company s = (Ok e, s')
    /\ heap s' !! e = Some d
    /\ d = dict_update c (fallback_fields E c)
    /\ dict_get "aiDescription" d = Some (VStr (fallback_description E c))
    /\ fallback_description E c <> ""
    /\ dict_get "projectTypes" d = Some (VList [])
    /\ dict_get "architectSpecialties" d = Some (VList [])
    /\ dict_get "complexity" d = Some (VStr "medium")
    /\ dict_get "typicalScale" d = Some (VStr "medium")
    /\ dict_get "collaborationStyle" d = dict_get "collaborationStyle" c
    /\ dict_get "marketTrends" d = dict_get "marketTrends" c.
Proof.
  intros Hc Hfail.
  destruct (enrich_try_fails company c s Hc Hfail) as [w' Hrun].
  unfold enrich_company_description.
  rewrite (try_raised _ _ _ _ Hrun).
  rewrite (enrich_except_run company c) by exact Hc. simpl.
  eexists _, _, _. split; [reflexivity|].
  split; [apply list_lookup_middle; reflexivity|].
  split; [reflexivity|].
  unfold fallback_fields, dict_update. cbn [fold_left fst snd].
  repeat split;
    try (rewrite ?dict_get_set_ne by reflexivity;
         first [apply dict_get_set_eq | reflexivity]).
  apply fallback_description_nonempty.
Qed.

End EnrichmentFallback.

(** A record without [collaborationStyle]: the fallback is not fully
    populated (C1 as stated fails). *)
Lemma enrich_fallback_not_fully_populated :
  let s := offline_store [[("companyName", VStr "Acme")]] in
  generation_fails [("companyName", VStr "Acme")] (world s) = true
  /\ exists e s' d,
       enrich_company_description offline_env 0%nat s = (Ok e, s')
       /\ heap s' !! e = Some d
       /\ has_key "collaborationStyle" d = false
       /\ has_key "marketTrends" d = false
       /\ fully_populated d = false.
Proof.
  simpl. split; [reflexivity|].
  eexists _, _, _. split; [cbv -[Flt.of_Z]; reflexivity|].
  split; [reflexivity|]. cbv -[Flt.of_Z]. auto.
Qed.

Lemma enrich_fallback_fields_witness :
  exists e s' d,
    enrich_company_description offline_env 0%nat
      (offline_store [[("companyName", VStr "Acme")]]) = (Ok e, s')
    /\ heap s' !! e = Some d
    /\ dict_get "complexity" d = Some (VStr "medium").
Proof.
  destruct (@enrich_fallback_fields offline_env 0%nat
              [("companyName", VStr "Acme")]
              (offline_store [[("companyName", VStr "Acme")]])
              eq_refl eq_refl)
    as (e & s' & d & H1 & H2 & _ & _ & _ & _ & _ & H3 & _).
  exists e, s', d. auto.
Defined.

(** ** C2, C3, C7, C10: the batch orchestrator *)

Section BatchClaims.

Context {E : Env}.

Lemma trivial_rel_step (f : loc -> M (state E) unit) :
  forall c (d : dict) (s : state E) e s',
    heap (mem s) !! c = Some d ->
    f c s = (Ok tt, s') ->
    enriched_companies s' = enriched_companies s ++ [e] ->
    True /\ forall c0 e0 : loc, True -> True.
Proof. auto. Qed.


(** C3: when the [try] block of the loop body raises for a record, the
    orchestrator appends a copy of the record as it was, with an embedding
    of 1536 zeros as its only addition: every other key reads as in the
    record, so no enrichment field is added; no other object changes; the
    run goes on with the records that follow, all of which are handled. *)
Theorem failure_isolated
    (enrich_step : loc -> M (store E) loc)
    (embed_step : value -> M (store E) (list float))
    (c : loc) (d : dict) (rest : list loc) (s s1 : state E) :
  (forall c, preserves (enrich_step c)) ->
  (forall t, preserves (embed_step t)) ->
  heap (mem s) !! c = Some d ->
  valid_refs (heap (mem s)) rest ->
  process_try E enrich_step embed_step c s = (Raised, s1) ->
  exists e s2,
    process_company E enrich_step embed_step c s = (Ok tt, s2)
    /\ enriched_companies s2 = enriched_companies s ++ [e]
    /\ heap (mem s2) !! e
       = Some (dict_set "embedding" (VList (replicate 1536 (VFloat 0%float))) d)
    /\ (forall k, String.eqb k "embedding" = false ->
                  dict_get k (dict_set "embedding"
                                (VList (replicate 1536 (VFloat 0%float))) d)
                  = dict_get k d)
    /\ heap (mem s) `prefix_of` heap (mem s2)
    /\ for_each (process_company E enrich_step embed_step) (c :: rest) s
       = for_each (process_company E enrich_step embed_step) rest s2
    /\ exists es s3,
         processed E (process_company E enrich_step embed_step) rest s2 es s3
         /\ length es = length rest.
Proof.
  intros He Hm Hd Hv Hraised.
  destruct (process_try_run enrich_step embed_step He Hm c s)
    as [(m1 & Hrun & P) | (e & d1 & v & h1 & w1 & t & sa & sb & _ & _ & _ & Hrun)];
    [|congruence].
  assert (Hc1 : heap m1 !! c = Some d) by (eapply prefix_lookup; eauto).
  assert (Hstep : process_company E enrich_step embed_step c s
                  = (Ok tt,
                     {| mem := {| world := world m1;
                                  heap := heap m1 ++ [dict_set "embedding" zero_embedding d] |};
                        companies := companies s;
                        enriched_companies := enriched_companies s ++ [length (heap m1)] |})).
  { unfold process_company. rewrite (try_raised _ _ _ _ Hrun).
    now rewrite (process_except_run c d) by exact Hc1. }
  change (VList (replicate 1536 (VFloat 0%float))) with zero_embedding.
  eexists _, _. split; [exact Hstep|]. cbn [mem heap enriched_companies].
  split; [reflexivity|].
  split; [apply list_lookup_middle; reflexivity|].
  split; [intros k Hk; now apply dict_get_set_ne|].
  split; [etransitivity; [exact P | now apply prefix_app_r]|].
  split; [simpl; now rewrite (bind_ok _ _ _ _ _ Hstep)|].
  destruct (for_each_processed enrich_step embed_step He Hm rest
              {| mem := {| world := world m1;
                           heap := heap m1 ++ [dict_set "embedding" zero_embedding d] |};
                 companies := companies s;
                 enriched_companies := enriched_companies s ++ [length (heap m1)] |})
    as (es & s3 & Hp).
  { eapply Forall_impl; [exact Hv|]. simpl. intros l Hl.
    rewrite length_app. apply prefix_length in P. lia. }
  exists es, s3. split; [exact Hp|].
  eapply processed_length; eauto.
Qed.

Lemma map_VFloat_replicate n (x : float) :
  map VFloat (replicate n x) = replicate n (VFloat x).
Proof. induction n; simpl; congruence. Qed.

Lemma has_embedding_prefix (h h' : list dict) e :
  h `prefix_of` h' -> has_embedding h e -> has_embedding h' e.
Proof.
  intros P (d & v & Hd & Hg & Hl). exists d, v.
  split; [eapply prefix_lookup; eauto | auto].
Qed.

Lemma has_embedding_insert (h : list dict) l d v e :
  h !! l = Some d ->
  length v = EMBEDDING_DIM ->
  has_embedding h e ->
  has_embedding (<[l := dict_set "embedding" (VList (map VFloat v)) d]> h) e.
Proof.
  intros Hl Hv (d' & v' & Hd' & Hg & Hlen).
  destruct (decide (l = e)) as [->|Hne].
  - exists (dict_set "embedding" (VList (map VFloat v)) d), v.
    split; [apply list_lookup_insert_eq; eapply lookup_lt_Some; eauto|].
    split; [apply dict_get_set_eq | assumption].
  - exists d', v'. split; [now rewrite list_lookup_insert_ne | auto].
Qed.

(** The loop body establishes and keeps [has_embedding], for any enrichment
    step, when the embedding step is [generate_embedding]. *)
Lemma has_embedding_step (enrich_step : loc -> M (store E) loc) :
  (forall c, preserves (enrich_step c)) ->
  capability_dimension E ->
  forall c (d : dict) (s : state E) e s',
    heap (mem s) !! c = Some d ->
    process_company E enrich_step (generate_embedding E) c s = (Ok tt, s') ->
    enriched_companies s' = enriched_companies s ++ [e] ->
    has_embedding (heap (mem s')) e
    /\ forall c0 e0 : loc, has_embedding (heap (mem s)) e0 ->
                           has_embedding (heap (mem s')) e0.
Proof.
  intros He Hdim c d s e s' Hd Hrun Hen.
  destruct (process_company_cases enrich_step (generate_embedding E) He
              generate_embedding_preserves c d s Hd)
    as (e' & s2 & h1 & Hrun' & _ & Hen' & P & Hcases).
  rewrite Hrun in Hrun'. injection Hrun' as <-.
  rewrite Hen in Hen'. apply app_inj_tail in Hen' as [_ <-].
  destruct Hcases as [(-> & Hheap & _) | (d1 & v & t & sa & sb & Hd1 & Hv & Hheap)];
    rewrite Hheap.
  - split.
    + exists (dict_set "embedding" zero_embedding d), (replicate EMBEDDING_DIM 0%float).
      split; [apply list_lookup_middle; reflexivity|].
      split; [|apply length_replicate].
      rewrite dict_get_set_eq. unfold zero_embedding.
      now rewrite map_VFloat_replicate.
    + intros _ e0 H0. eapply has_embedding_prefix; [|exact H0].
      etransitivity; [exact P | now apply prefix_app_r].
  - assert (Hlen : length v = EMBEDDING_DIM).
    { destruct (generate_embedding_run t sa) as (v' & Heq & Hsrc).
      rewrite Heq in Hv. injection Hv as -> _.
      destruct (embeddings_create E t (world sa)) as [[v0|] w0] eqn:Hcall;
        cbn [fst] in Hsrc.
      - subst v0. eapply Hdim; eauto.
      - subst v. apply length_replicate. }
    split.
    + exists (dict_set "embedding" (VList (map VFloat v)) d1), v.
      split; [apply list_lookup_insert_eq; eapply lookup_lt_Some; eauto|].
      split; [apply dict_get_set_eq | assumption].
    + intros _ e0 H0. apply has_embedding_insert; auto.
      eapply has_embedding_prefix; eauto.
Qed.


(** C10: [batch_enrich_companies] appends to [enriched_companies] without
    clearing it: afterwards the collection is what it was, followed by one
    new entry per record; its length equals the number of records exactly
    when it was empty before; a second call appends as many entries again. *)
Theorem batch_appends_without_clearing (bs : Z) (s : state E) :
  1 <= bs ->
  valid_refs (heap (mem s)) (companies s) ->
  exists new s1,
    batch_enrich_companies E bs s = (Ok tt, s1)
    /\ companies s1 = companies s
    /\ enriched_companies s1 = enriched_companies s ++ new
    /\ length new = length (companies s)
    /\ (length (enriched_companies s1) = length (companies s)
        <-> enriched_companies s = [])
    /\ exists new2 s2,
         batch_enrich_companies E bs s1 = (Ok tt, s2)
         /\ enriched_companies s2 = enriched_companies s ++ new ++ new2
         /\ length (enriched_companies s2)
            = (length (enriched_companies s) + 2 * length (companies s))%nat.
Proof.
  intros Hbs Hv. unfold batch_enrich_companies.
  destruct (batch_loop_processed _ _ enrich_company_description_preserves
              generate_embedding_preserves
              (fun _ _ _ => True) (trivial_rel_step _) bs s Hbs Hv)
    as (new & s1 & Hrun & _ & Hcs & Hen & Hlen & Hheap & _).
  destruct (batch_loop_processed _ _ enrich_company_description_preserves
              generate_embedding_preserves
              (fun _ _ _ => True) (trivial_rel_step _) bs s1 Hbs)
    as (new2 & s2 & Hrun2 & _ & Hcs2 & Hen2 & Hlen2 & _).
  { rewrite Hcs. eapply Forall_impl; [exact Hv|]. simpl. intros. lia. }
  exists new, s1. split; [exact Hrun|]. split; [exact Hcs|].
  split; [exact Hen|]. split; [exact Hlen|]. split.
  - rewrite Hen, length_app, Hlen. split.
    + intros H. apply length_zero_iff_nil. lia.
    + intros ->. reflexivity.
  - exists new2, s2. split; [exact Hrun2|].
    rewrite Hen2, Hen, <- app_assoc. split; [reflexivity|].
    rewrite !length_app, Hlen, Hlen2, Hcs. lia.
Qed.

End BatchClaims.

(** *** Instances *)

Lemma sample_state_valid (E : Env) (w : World E) :
  valid_refs (heap (mem (sample_state E w))) (companies (sample_state E w)).
Proof. repeat constructor. Defined.

Lemma online_dimension : capability_dimension online_env.
Proof.
  intros t w v w' H.
  assert (Hv : Some (replicate EMBEDDING_DIM 1%float) = Some v)
    by exact (f_equal fst H).
  assert (Hl : length (replicate EMBEDDING_DIM 1%float) = length v)
    by exact (f_equal (fun o => match o with Some x => length x | None => 0%nat end) Hv).
  rewrite <- Hl. apply length_replicate.
Defined.


Lemma failing_step_preserves {E : Env} (c : loc) : preserves (@failing_step E c).
Proof. intros s r s' [= _ <-]. reflexivity. Defined.

Lemma failure_isolated_witness :
  exists e s2,
    process_company offline_env failing_step (generate_embedding offline_env)
      0%nat (sample_state offline_env tt) = (Ok tt, s2)
    /\ enriched_companies s2 = [] ++ [e]
    /\ heap (mem s2) !! e
       = Some (dict_set "embedding" (VList (replicate 1536 (VFloat 0%float)))
                 [("companyName", VStr "Acme"); ("companyType", VStr "school")])
    /\ (forall k, String.eqb k "embedding" = false ->
                  dict_get k (dict_set "embedding"
                                (VList (replicate 1536 (VFloat 0%float)))
                                [("companyName", VStr "Acme");
                                 ("companyType", VStr "school")])
                  = dict_get k [("companyName", VStr "Acme");
                                ("companyType", VStr "school")])
    /\ heap (mem (sample_state offline_env tt)) `prefix_of` heap (mem s2)
    /\ for_each (process_company offline_env failing_step
                   (generate_embedding offline_env))
         [0%nat; 1%nat; 2%nat] (sample_state offline_env tt)
       = for_each (process_company offline_env failing_step
                     (generate_embedding offline_env)) [1%nat; 2%nat] s2
    /\ exists es s3,
         processed offline_env
           (process_company offline_env failing_step
              (generate_embedding offline_env)) [1%nat; 2%nat] s2 es s3
         /\ length es = 2%nat.
Proof.
  apply (@failure_isolated offline_env failing_step
           (generate_embedding offline_env) 0%nat
           [("companyName", VStr "Acme"); ("companyType", VStr "school")]
           [1%nat; 2%nat] (sample_state offline_env tt)
           (sample_state offline_env tt)).
  - apply failing_step_preserves.
  - apply generate_embedding_preserves.
  - reflexivity.
  - repeat constructor.
  - reflexivity.
Defined.


Lemma batch_appends_without_clearing_witness :
  exists new s1,
    batch_enrich_companies offline_env 5 (sample_state offline_env tt) = (Ok tt, s1)
    /\ companies s1 = [0%nat; 1%nat; 2%nat]
    /\ enriched_companies s1 = [] ++ new
    /\ length new = 3%nat
    /\ (length (enriched_companies s1) = 3%nat <-> @nil nat = [])
    /\ exists new2 s2,
         batch_enrich_companies offline_env 5 s1 = (Ok tt, s2)
         /\ enriched_companies s2 = [] ++ new ++ new2
         /\ length (enriched_companies s2) = (0 + 2 * 3)%nat.
Proof.
  apply (@batch_appends_without_clearing offline_env 5 (sample_state offline_env tt)).
  - lia.
  - apply sample_state_valid.
Defined.

(** ** Sorting *)

Section SortFacts.

Import FloatFacts.
Context {A : Type}.
Implicit Types (x y : float * A) (l : list (float * A)).

Lemma insert_desc_perm x l : insert_desc x l ≡ₚ x :: l.
Proof.
  induction l as [|y l IH]; simpl; [reflexivity|].
  destruct (fst x <? fst y)%float; [|reflexivity].
  rewrite IH. apply perm_swap.
Qed.

Lemma sort_desc_perm l : sort_desc l ≡ₚ l.
Proof.
  induction l as [|x l IH]; simpl; [reflexivity|].
  now rewrite insert_desc_perm, IH.
Qed.

Lemma sort_desc_length l : length (sort_desc l) = length l.
Proof. apply Permutation_length, sort_desc_perm. Qed.

(** Sorting looks at the keys only. *)
Lemma insert_desc_map {B} (g : A -> B) x l :
  insert_desc (fst x, g (snd x)) (map (fun p => (fst p, g (snd p))) l)
  = map (fun p => (fst p, g (snd p))) (insert_desc x l).
Proof.
  induction l as [|y l IH]; simpl; [reflexivity|].
  destruct (fst x <? fst y)%float; simpl; [now rewrite IH | reflexivity].
Qed.

Lemma sort_desc_map {B} (g : A -> B) l :
  sort_desc (map (fun p => (fst p, g (snd p))) l)
  = map (fun p => (fst p, g (snd p))) (sort_desc l).
Proof.
  induction l as [|x l IH]; [reflexivity|].
  change (sort_desc (x :: l)) with (insert_desc x (sort_desc l)).
  rewrite <- insert_desc_map, <- IH. reflexivity.
Qed.

Variable idx : A -> nat.

Lemma insert_desc_sorted x l :
  is_nan (fst x) = false ->
  Forall (fun y => is_nan (fst y) = false) l ->
  Forall (fun y => (idx (snd x) < idx (snd y))%nat) l ->
  StronglySorted (item_before idx) l ->
  StronglySorted (item_before idx) (insert_desc x l).
Proof.
  intros Hx. induction l as [|y l IH]; intros Hnan Hidx Hs; simpl.
  - repeat constructor.
  - apply Forall_cons in Hnan as [Hy Hnan].
    apply Forall_cons in Hidx as [Hxy Hidx].
    apply StronglySorted_cons in Hs as [Hyl Hs].
    destruct (fst x <? fst y)%float eqn:Hlt.
    + apply StronglySorted_cons. split; [|auto].
      rewrite insert_desc_perm. constructor; [|exact Hyl].
      split.
      * now apply ltb_leb.
      * intros Hle. apply ltb_leb_false in Hlt. congruence.
    + apply StronglySorted_cons. split; [|apply StronglySorted_cons; auto].
      assert (Hyx : (fst y <=? fst x)%float = true) by (apply ltb_false_leb; auto).
      constructor; [split; auto|].
      rewrite Forall_forall in Hyl, Hidx |- *. intros z Hz.
      destruct (Hyl z Hz) as [Hzy _]. split.
      * eapply leb_trans; eauto.
      * intros _. apply Hidx, Hz.
Qed.

(** The result of [sort_desc] on items whose indices go up and whose keys
    are numbers: keys go down, equal keys keep their order. *)
Lemma sort_desc_sorted l :
  Forall (fun y => is_nan (fst y) = false) l ->
  StronglySorted (fun x y => (idx (snd x) < idx (snd y))%nat) l ->
  StronglySorted (item_before idx) (sort_desc l).
Proof.
  induction l as [|x l IH]; intros Hnan Hs; simpl; [constructor|].
  apply Forall_cons in Hnan as [Hx Hnan].
  apply StronglySorted_cons in Hs as [Hxl Hs].
  apply insert_desc_sorted;
    [exact Hx | now rewrite sort_desc_perm | now rewrite sort_desc_perm
    | apply IH; auto].
Qed.

(** No other arrangement of the items has this order: any stable descending
    sort returns the list [sort_desc] returns. *)
Lemma sort_desc_unique l l' :
  Forall (fun y => is_nan (fst y) = false) l ->
  StronglySorted (fun x y => (idx (snd x) < idx (snd y))%nat) l ->
  l' ≡ₚ l ->
  StronglySorted (item_before idx) l' ->
  l' = sort_desc l.
Proof.
  intros Hnan Hs Hperm Hs'.
  apply (StronglySorted_unique_strong (item_before idx)); auto.
  - intros x y _ _ [Hyx Hx] [Hxy Hy].
    specialize (Hx Hxy). specialize (Hy Hyx). lia.
  - apply sort_desc_sorted; auto.
  - now rewrite Hperm, sort_desc_perm.
Qed.

End SortFacts.

(** ** Search *)

Section PickFacts.

Variable sims : list float.

Lemma picks_items items next :
  Forall (fun t => (pick_index t, pick_source t) ∈ items) (picks sims items next).
Proof.
  revert next. induction items as [|[i e] items IH]; intros next; simpl.
  - constructor.
  - destruct (sims !! i) as [x|]; [|constructor].
    destruct (Flt.threshold_literal <? x)%float.
    + constructor; [left|].
      eapply Forall_impl; [apply IH|]. intros t Ht. now right.
    + eapply Forall_impl; [apply IH|]. intros t Ht. now right.
Qed.

Lemma picks_above items next :
  Forall (fun t => sims !! pick_index t = Some (fst t)
                   /\ (Flt.threshold_literal <? fst t)%float = true)
    (picks sims items next).
Proof.
  revert next. induction items as [|[i e] items IH]; intros next; simpl.
  - constructor.
  - destruct (sims !! i) as [x|] eqn:Hx; [|constructor].
    destruct (Flt.threshold_literal <? x)%float eqn:Hlt; [|apply IH].
    constructor; [split; assumption | apply IH].
Qed.

Lemma picks_copies items next :
  map pick_copy (picks sims items next)
  = seq next (length (picks sims items next)).
Proof.
  revert next. induction items as [|[i e] items IH]; intros next; simpl.
  - reflexivity.
  - destruct (sims !! i) as [x|]; [|reflexivity].
    destruct (Flt.threshold_literal <? x)%float; [|apply IH].
    simpl. f_equal. apply IH.
Qed.

Lemma picks_length items next : (length (picks sims items next) <= length items)%nat.
Proof.
  revert next. induction items as [|[i e] items IH]; intros next; simpl.
  - lia.
  - destruct (sims !! i) as [x|]; [|simpl; lia].
    destruct (Flt.threshold_literal <? x)%float; simpl.
    + specialize (IH (Datatypes.S next)). lia.
    + specialize (IH next). lia.
Qed.

(** Every item above the threshold is picked. *)
Lemma picks_complete items next i e x :
  Forall (fun p => is_Some (sims !! fst p)) items ->
  (i, e) ∈ items ->
  sims !! i = Some x ->
  (Flt.threshold_literal <? x)%float = true ->
  exists c, (x, (i, (e, c))) ∈ picks sims items next.
Proof.
  intros Hall Hin Hx Hlt. revert next.
  induction items as [|[i' e'] items IH]; intros next; [inversion Hin|].
  apply Forall_cons in Hall as [[x' Hx'] Hall]. simpl in Hx'. simpl. rewrite Hx'.
  apply elem_of_cons in Hin as [[= <- <-]|Hin].
  - rewrite Hx in Hx'. injection Hx' as <-. rewrite Hlt. eexists. left.
  - destruct (Flt.threshold_literal <? x')%float.
    + destruct (IH Hall Hin (Datatypes.S next)) as [c Hc]. exists c. now right.
    + apply IH; assumption.
Qed.

(** The picks keep the order of the items. *)
Lemma picks_increasing items next :
  StronglySorted (fun p1 p2 => (fst p1 < fst p2)%nat) items ->
  StronglySorted (fun t1 t2 => (pick_index t1 < pick_index t2)%nat)
    (picks sims items next).
Proof.
  revert next. induction items as [|[i e] items IH]; intros next Hs; simpl.
  - constructor.
  - apply StronglySorted_cons in Hs as [Hi Hs].
    destruct (sims !! i) as [x|]; [|constructor].
    destruct (Flt.threshold_literal <? x)%float; [|now apply IH].
    constructor; [now apply IH|].
    pose proof (picks_items items (Datatypes.S next)) as Hit.
    rewrite Forall_forall in Hit. rewrite Forall_forall in Hi.
    apply Forall_forall. intros t Ht. apply (Hi _ (Hit t Ht)).
Qed.

End PickFacts.

Lemma elem_of_enumerate {A} (l : list A) i x :
  (i, x) ∈ enumerate l <-> l !! i = Some x.
Proof.
  unfold enumerate.
  assert (G : forall k, (i, x) ∈ combine (seq k (length l)) l
                        <-> (k <= i)%nat /\ l !! (i - k)%nat = Some x).
  { induction l as [|y l IH]; intros k; simpl.
    - split; [inversion 1 | intros [_ H]; discriminate].
    - rewrite elem_of_cons, IH. split.
      + intros [[= -> ->] | [Hk Hl]].
        * split; [lia|]. now rewrite Nat.sub_diag.
        * split; [lia|]. replace (i - k)%nat with (Datatypes.S (i - Datatypes.S k)) by lia.
          exact Hl.
      + intros [Hk Hl]. destruct (decide (i = k)) as [->|Hne].
        * left. rewrite Nat.sub_diag in Hl. simpl in Hl. congruence.
        * right. split; [lia|].
          replace (i - k)%nat with (Datatypes.S (i - Datatypes.S k)) in Hl by lia.
          exact Hl. }
  rewrite G, Nat.sub_0_r. split; [now intros [_ ?] | split; [lia | assumption]].
Qed.

Lemma enumerate_increasing {A} (l : list A) :
  StronglySorted (fun p1 p2 : nat * A => (fst p1 < fst p2)%nat) (enumerate l).
Proof.
  unfold enumerate. generalize 0%nat.
  induction l as [|y l IH]; intros k; simpl; constructor; [apply IH|].
  apply Forall_forall. intros [i x] Hin. simpl.
  clear -Hin. revert k Hin. induction l as [|z l IH]; intros k Hin; simpl in Hin.
  - inversion Hin.
  - apply elem_of_cons in Hin as [[= -> ->]|Hin]; [lia|].
    specialize (IH _ Hin). lia.
Qed.

Lemma enumerate_length {A} (l : list A) : length (enumerate l) = length l.
Proof. unfold enumerate. rewrite length_combine, length_seq. lia. Qed.

Section SearchRun.

Context {E : Env}.

Lemma state_eta (s : state E) :
  {| mem := mem s; companies := companies s;
     enriched_companies := enriched_companies s |} = s.
Proof. now destruct s. Qed.

Lemma embedding_of_eq e (s : state E) :
  embedding_of E e s
  = (match heap (mem s) !! e with
     | Some d => match dict_get "embedding" d with
                 | Some v => Ok v
                 | None => Raised
                 end
     | None => Raised
     end, s).
Proof.
  unfold embedding_of, bind, on_store, deref, of_option, ret, raise.
  destruct (heap (mem s) !! e) as [d|]; simpl; rewrite ?state_eta; [|reflexivity].
  now destruct (dict_get "embedding" d).
Qed.

Lemma similarity_score_eq r (s : state E) :
  similarity_score E r s
  = (match heap (mem s) !! r with
     | Some d => match dict_get "similarity_score" d with
                 | Some v => match float_key v with
                             | Some x => Ok x
                             | None => Raised
                             end
                 | None => Raised
                 end
     | None => Raised
     end, s).
Proof.
  unfold similarity_score, bind, on_store, deref, of_option, ret, raise.
  destruct (heap (mem s) !! r) as [d|]; simpl; rewrite ?state_eta; [|reflexivity].
  destruct (dict_get "similarity_score" d) as [v|]; [|reflexivity].
  now destruct (float_key v).
Qed.

(** A loop of reads: the state stays, and the results are the reads. *)
Lemma map_m_reads {A B} (f : A -> M (state E) B) (g : A -> outcome B)
    (l : list A) (s : state E) :
  (forall x, f x s = (g x, s)) ->
  exists ro,
    map_m f l s = (ro, s)
    /\ forall ys, ro = Ok ys <-> Forall2 (fun x y => g x = Ok y) l ys.
Proof.
  intros Hf. induction l as [|x l (ro & Hrun & Hro)]; simpl.
  - exists (Ok []). split; [reflexivity|]. intros ys. split.
    + intros [= <-]. constructor.
    + intros H. inversion H. reflexivity.
  - unfold bind at 1. rewrite Hf. destruct (g x) as [y|] eqn:Hg.
    + unfold bind at 1. rewrite Hrun. destruct ro as [ys|].
      * exists (Ok (y :: ys)). split; [reflexivity|]. intros ys'. split.
        -- intros [= <-]. constructor; [assumption | now apply Hro].
        -- intros H. inversion H as [|? y' ? ys2 Hy Hrest]; subst.
           apply Hro in Hrest. congruence.
      * exists Raised. split; [reflexivity|]. intros ys'. split; [discriminate|].
        intros H. inversion H as [|? y' ? ys2 Hy Hrest]; subst.
        apply Hro in Hrest. discriminate.
    + exists Raised. split; [reflexivity|]. intros ys'. split; [discriminate|].
      intros H. inversion H; subst. congruence.
Qed.

(** The loop of [semantic_search] over items that are all there. *)
Lemma collect_results_run sims items : forall results (s : state E),
  Forall (fun p => is_Some (sims !! fst p)
                   /\ is_Some (heap (mem s) !! snd p)) items ->
  collect_results E sims items results s
  = (Ok (results ++ map pick_copy (picks sims items (length (heap (mem s))))),
     {| mem := {| world := world (mem s);
                  heap := heap (mem s)
                          ++ map (scored_copy (heap (mem s)))
                               (picks sims items (length (heap (mem s)))) |};
        companies := companies s;
        enriched_companies := enriched_companies s |}).
Proof.
  induction items as [|[i e] items IH]; intros results s Hall.
  - simpl. rewrite !app_nil_r. unfold ret. f_equal.
    destruct s as [[w h] cs en]. reflexivity.
  - apply Forall_cons in Hall as [[[x Hx] [d Hd]] Hall]. simpl in Hx, Hd.
    cbn [collect_results picks]. rewrite Hx. simpl of_option.
    erewrite bind_ok by reflexivity.
    destruct (Flt.threshold_literal <? x)%float.
    + erewrite bind_ok by (apply on_store_eq, dict_copy_ok; exact Hd).
      erewrite bind_ok by (apply on_store_eq; simpl; apply setitem_last).
      rewrite IH.
      2:{ simpl. eapply Forall_impl; [exact Hall|]. intros p [H1 [d' H2]].
          split; [exact H1|]. exists d'. now apply lookup_app_l_Some. }
      simpl. rewrite length_app. simpl. rewrite Nat.add_1_r.
      rewrite <- !app_assoc. simpl. do 4 f_equal.
      f_equal.
      { unfold scored_copy, pick_source, with_score. simpl. now rewrite Hd. }
      apply map_ext_Forall.
      pose proof (picks_items sims items (Datatypes.S (length (heap (mem s))))) as Hit.
      rewrite Forall_forall in Hit. rewrite Forall_forall in Hall.
      apply Forall_forall. intros t Ht.
      destruct (Hall _ (Hit t Ht)) as [_ [d' Hd']]. simpl in Hd'.
      unfold scored_copy. now rewrite (lookup_app_l_Some _ _ _ _ Hd'), Hd'.
    + apply IH. exact Hall.
Qed.

Lemma stores_row_reads (h : list dict) es ys :
  Forall2 (stores_row h) es ys ->
  exists vs,
    Forall2 (fun e v => read_embedding h e = Ok v) es vs
    /\ mapM Sklearn.as_row vs = Some ys.
Proof.
  induction 1 as [|e y es ys (d & v & Hd & Hv & Hrow) _ (vs & Hvs & Hrows)].
  - exists []. split; [constructor | reflexivity].
  - exists (v :: vs). split.
    + constructor; [|exact Hvs]. unfold read_embedding. now rewrite Hd, Hv.
    + apply mapM_Some. constructor; [exact Hrow | now apply mapM_Some].
Qed.

(** The copy made for a pick is where the pick says. *)
Lemma picks_heap_lookup sims items (h : list dict) t :
  t ∈ picks sims items (length h) ->
  (h ++ map (scored_copy h) (picks sims items (length h))) !! pick_copy t
  = Some (scored_copy h t).
Proof.
  intros Ht. apply list_elem_of_lookup in Ht as [j Hj].
  pose proof (picks_copies sims items (length h)) as Hc.
  assert (Hpc : map pick_copy (picks sims items (length h)) !! j = Some (pick_copy t)).
  { change (map pick_copy ?l) with (pick_copy <$> l).
    now rewrite list_lookup_fmap, Hj. }
  rewrite Hc in Hpc. apply lookup_seq in Hpc as [-> _].
  rewrite lookup_app_r by lia.
  replace (length h + j - length h)%nat with j by lia.
  change (map (scored_copy h) ?l) with (scored_copy h <$> l).
  now rewrite list_lookup_fmap, Hj.
Qed.

Lemma combine_maps {A B C} (f : A -> B) (g : A -> C) (l : list A) :
  combine (map f l) (map g l) = map (fun x => (f x, g x)) l.
Proof. induction l; simpl; congruence. Qed.

Lemma read_embeddings_spec (h : list dict) es vs :
  read_embeddings h es = Some vs
  <-> Forall2 (fun e v => read_embedding h e = Ok v) es vs.
Proof.
  unfold read_embeddings. rewrite mapM_Some.
  split; intros H; (eapply Forall2_impl; [exact H|]); simpl; intros e v;
    destruct (read_embedding h e); congruence.
Qed.

(** The records whose embeddings were read are in the heap, with the
    embedding read. *)
Lemma read_embeddings_lookup (h : list dict) es vs i e :
  read_embeddings h es = Some vs ->
  es !! i = Some e ->
  exists d v,
    h !! e = Some d /\ dict_get "embedding" d = Some v /\ vs !! i = Some v.
Proof.
  intros Hre He. apply read_embeddings_spec in Hre.
  destruct (Forall2_lookup_l _ _ _ _ _ Hre He) as (v & Hv & Hread).
  unfold read_embedding in Hread.
  destruct (h !! e) as [d|]; [|discriminate].
  destruct (dict_get "embedding" d) as [v'|] eqn:Hg; [|discriminate].
  injection Hread as ->. eauto.
Qed.

(** The [try] block of [semantic_search]: when the embeddings of the
    collection can be read and the library returns its scores, it returns
    the copies of the picks, sorted and cut; otherwise it raises, having
    allocated nothing. *)
Lemma search_try_run query top_k es (s : state E) :
  exists w1,
    generate_embedding E (VStr query) (mem s)
    = (Ok (query_embedding E query s), {| world := w1; heap := heap (mem s) |})
    /\ ((exists vs sims,
            read_embeddings (heap (mem s)) es = Some vs
            /\ cosine_similarity E
                 [VList (map VFloat (query_embedding E query s))] vs
               = Some [sims]
            /\ length sims = length es
            /\ search_try E query top_k es s
               = (Ok (slice_to
                        (map pick_copy
                           (sort_desc
                              (picks sims (enumerate es) (length (heap (mem s))))))
                        top_k),
                  {| mem := {| world := w1;
                               heap := heap (mem s)
                                 ++ map (scored_copy (heap (mem s)))
                                      (picks sims (enumerate es)
                                         (length (heap (mem s)))) |};
                     companies := companies s;
                     enriched_companies := enriched_companies s |}))
        \/ (match read_embeddings (heap (mem s)) es with
            | Some vs =>
                cosine_similarity E
                  [VList (map VFloat (query_embedding E query s))] vs = None
            | None => True
            end
            /\ search_try E query top_k es s
               = (Raised,
                  {| mem := {| world := w1; heap := heap (mem s) |};
                     companies := companies s;
                     enriched_companies := enriched_companies s |}))).
Proof.
  destruct (generate_embedding_run (VStr query) (mem s)) as (q & Hgen & _).
  assert (Hq : query_embedding E query s = q)
    by (unfold query_embedding; now rewrite Hgen).
  rewrite Hq.
  exists (snd (embeddings_create E (VStr query) (world (mem s)))).
  split; [exact Hgen|].
  set (w1 := snd (embeddings_create E (VStr query) (world (mem s)))) in *.
  set (s1 := {| mem := {| world := w1; heap := heap (mem s) |};
                companies := companies s;
                enriched_companies := enriched_companies s |}).
  unfold search_try.
  erewrite bind_ok by (apply on_store_eq, Hgen). fold s1.
  destruct (map_m_reads (embedding_of E) (read_embedding (heap (mem s))) es s1)
    as (ro & Hrun & Hro).
  { intros e. rewrite embedding_of_eq. reflexivity. }
  destruct ro as [vs|].
  2:{ right. split.
      - destruct (read_embeddings (heap (mem s)) es) as [vs|] eqn:Hre; [|exact I].
        apply read_embeddings_spec, Hro in Hre. discriminate.
      - now rewrite (bind_raised _ _ _ _ Hrun). }
  rewrite (bind_ok _ _ _ _ _ Hrun).
  assert (Hvs : Forall2 (fun e v => read_embedding (heap (mem s)) e = Ok v) es vs)
    by now apply Hro.
  assert (Hre : read_embeddings (heap (mem s)) es = Some vs)
    by now apply read_embeddings_spec.
  destruct (cosine_similarity E [VList (map VFloat q)] vs) as [m|] eqn:Hcos.
  2:{ right. rewrite Hre. split; [exact Hcos | reflexivity]. }
  destruct (cosine_similarity_shape E _ _ _ Hcos) as [Hrows Hcols].
  destruct m as [|sims [|? ?]]; try discriminate. clear Hrows.
  apply Forall_cons in Hcols as [Hlen _].
  rewrite <- (Forall2_length _ _ _ Hvs) in Hlen.
  left. exists vs, sims. split; [exact Hre|]. split; [exact Hcos|].
  split; [exact Hlen|].
  simpl of_option. erewrite bind_ok by reflexivity.
  simpl of_option. erewrite bind_ok by reflexivity.
  assert (Hitems : Forall (fun p => is_Some (sims !! fst p)
                                    /\ is_Some (heap (mem s1) !! snd p))
                     (enumerate es)).
  { apply Forall_forall. intros [i e] Hin. apply elem_of_enumerate in Hin. simpl.
    split.
    - apply lookup_lt_is_Some. rewrite Hlen. eapply lookup_lt_Some, Hin.
    - destruct (read_embeddings_lookup _ _ _ _ _ Hre Hin) as (d & _ & Hd & _).
      now exists d. }
  rewrite (bind_ok _ _ _ _ _ (collect_results_run sims (enumerate es) [] s1 Hitems)).
  unfold s1. cbn [mem heap world companies enriched_companies app].
  unfold bind at 1.
  set (pk := picks sims (enumerate es) (length (heap (mem s)))).
  set (s2 := {| mem := {| world := w1;
                          heap := heap (mem s) ++ map (scored_copy (heap (mem s))) pk |};
                companies := companies s;
                enriched_companies := enriched_companies s |}).
  destruct (map_m_reads (similarity_score E)
              (fun r => match heap (mem s2) !! r with
                        | Some d => match dict_get "similarity_score" d with
                                    | Some v => match float_key v with
                                                | Some x => Ok x
                                                | None => Raised
                                                end
                                    | None => Raised
                                    end
                        | None => Raised
                        end)
              (map pick_copy pk) s2) as (ro2 & Hrun2 & Hro2).
  { intros r. apply similarity_score_eq. }
  assert (Hkeys : ro2 = Ok (map fst pk)).
  { apply Hro2. change (map pick_copy pk) with (pick_copy <$> pk).
    change (map fst pk) with (fst <$> pk).
    apply Forall2_fmap, Forall_Forall2_diag, Forall_forall. intros t Ht.
    unfold s2. cbn [mem heap]. unfold pk.
    rewrite (picks_heap_lookup sims (enumerate es) _ t Ht).
    unfold scored_copy, with_score. now rewrite dict_get_set_eq. }
  subst ro2. rewrite Hrun2. unfold ret. f_equal. f_equal.
  rewrite combine_maps.
  change (map (fun x : float * (nat * (loc * loc)) => (fst x, pick_copy x)) pk)
    with (map (fun p : float * (nat * (loc * loc)) => (fst p, snd (snd (snd p)))) pk).
  rewrite (sort_desc_map (fun a : nat * (loc * loc) => snd (snd a)) pk).
  rewrite map_map. reflexivity.
Qed.

End SearchRun.

Section SearchCases.

Context {E : Env}.

Lemma slice_to_nonneg {A} (l : list A) (k : Z) :
  0 <= k -> slice_to l k = take (Z.to_nat k) l.
Proof.
  intros Hk. unfold slice_to, slice, clamp_index. simpl.
  destruct (Z.ltb_spec k 0) as [?|_]; [lia|].
  rewrite (Z.min_l 0) by lia. change (Z.to_nat 0) with 0%nat.
  rewrite drop_0, Z.sub_0_r.
  destruct (Z.le_gt_cases k (Z.of_nat (length l))).
  - now rewrite Z.min_l by lia.
  - rewrite Z.min_r, Nat2Z.id by lia.
    rewrite (take_ge l (length l)), (take_ge l (Z.to_nat k)) by lia. reflexivity.
Qed.

Lemma slice_to_subset {A} (l : list A) (k : Z) x :
  x ∈ slice_to l k -> x ∈ l.
Proof.
  unfold slice_to, slice. intros H.
  apply elem_of_take in H as (i & H & _).
  rewrite lookup_drop in H. eapply list_elem_of_lookup_2, H.
Qed.

Lemma slice_to_nil {A} (k : Z) : slice_to (@nil A) k = [].
Proof. unfold slice_to, slice. now rewrite drop_nil, take_nil. Qed.

Lemma picks_none sims items next :
  Forall (fun x => (Flt.threshold_literal <? x)%float = false) sims ->
  picks sims items next = [].
Proof.
  intros Hall. revert next. induction items as [|[i e] items IH]; intros next; simpl.
  - reflexivity.
  - destruct (sims !! i) as [x|] eqn:Hx; [|reflexivity].
    rewrite Forall_lookup in Hall. rewrite (Hall _ _ Hx). apply IH.
Qed.

(** The three ways [semantic_search] ends: on an empty collection; with the
    [try] block raised, nothing allocated; with the picks copied, sorted and
    cut. *)
Lemma semantic_search_cases query top_k (s : state E) :
  exists w1,
    generate_embedding E (VStr query) (mem s)
    = (Ok (query_embedding E query s), {| world := w1; heap := heap (mem s) |})
    /\ ((enriched_companies s = []
         /\ semantic_search E query top_k s = (Ok [], s))
        \/ (enriched_companies s <> []
            /\ search_scores E query s = None
            /\ semantic_search E query top_k s
               = (Ok [], {| mem := {| world := w1; heap := heap (mem s) |};
                            companies := companies s;
                            enriched_companies := enriched_companies s |}))
        \/ (exists vs sims,
               enriched_companies s <> []
               /\ read_embeddings (heap (mem s)) (enriched_companies s) = Some vs
               /\ cosine_similarity E
                    [VList (map VFloat (query_embedding E query s))] vs
                  = Some [sims]
               /\ search_scores E query s = Some sims
               /\ length sims = length (enriched_companies s)
               /\ semantic_search E query top_k s
                  = (Ok (slice_to
                           (map pick_copy
                              (sort_desc
                                 (picks sims
                                    (enumerate (enriched_companies s))
                                    (length (heap (mem s))))))
                           top_k),
                     {| mem := {| world := w1;
                                  heap := heap (mem s)
                                    ++ map (scored_copy (heap (mem s)))
                                         (picks sims
                                            (enumerate (enriched_companies s))
                                            (length (heap (mem s)))) |};
                        companies := companies s;
                        enriched_companies := enriched_companies s |}))).
Proof.
  destruct (search_try_run query top_k (enriched_companies s) s)
    as (w1 & Hgen & Hcases).
  exists w1. split; [exact Hgen|].
  unfold search_scores.
  unfold semantic_search, bind, gets. cbv beta iota.
  destruct (enriched_companies s) as [|e es] eqn:Hes.
  - left. split; reflexivity.
  - right. destruct Hcases as [(vs & sims & Hre & Hcos & Hlen & Hrun) | [Hno Hrun]].
    + right. exists vs, sims. rewrite (try_ok _ _ _ _ _ Hrun), Hre, Hcos.
      split; [discriminate|]. auto.
    + left. split; [discriminate|]. rewrite (try_raised _ _ _ _ Hrun).
      split; [|reflexivity].
      destruct (read_embeddings (heap (mem s)) (e :: es)); [|reflexivity].
      now rewrite Hno.
Qed.

(** The library accepts a collection whose embeddings are rows that suit
    the query embedding: the search has its scores. *)
Lemma well_formed_scores query (s : state E) ys :
  enriched_companies s <> [] ->
  Forall2 (stores_row (heap (mem s))) (enriched_companies s) ys ->
  compatible_rows (query_embedding E query s) ys = true ->
  exists sims, search_scores E query s = Some sims.
Proof.
  intros Hes Hys Hcompat.
  destruct (stores_row_reads _ _ _ Hys) as (vs & Hvs & Hrows).
  apply read_embeddings_spec in Hvs.
  unfold compatible_rows in Hcompat.
  apply andb_true_iff in Hcompat as [Hc Hoky].
  apply andb_true_iff in Hc as [Hn Hokx].
  assert (Hacc : is_Some (cosine_similarity E
                            [VList (map VFloat (query_embedding E query s))] vs)).
  { apply (cosine_similarity_accepts E _ _ [query_embedding E query s] ys
             (length (query_embedding E query s))).
    - apply mapM_Some. repeat constructor. apply as_row_floats.
    - exact Hrows.
    - discriminate.
    - intros ->. inversion Hys as [Hnil|]. congruence.
    - intros H0. rewrite H0 in Hn. discriminate.
    - exact Hokx.
    - exact Hoky. }
  destruct Hacc as [m Hcos].
  destruct (cosine_similarity_shape E _ _ _ Hcos) as [Hshape _].
  destruct m as [|sims [|? ?]]; try discriminate.
  exists sims. unfold search_scores. now rewrite Hvs, Hcos.
Qed.

End SearchCases.

(** ** C8: search does not raise *)

(** C8: [semantic_search] returns to its caller on every state and every
    query; on an empty collection it returns the empty list and changes
    nothing; when the embedding capability fails for the query it returns
    the empty list. *)
Theorem search_never_raises (E : Env) (query : string) (top_k : Z) (s : state E) :
  exists r s',
    semantic_search E query top_k s = (Ok r, s')
    /\ match enriched_companies s with
       | [] => r = [] /\ s' = s
       | _ :: _ => True
       end
    /\ match fst (embeddings_create E (VStr query) (world (mem s))) with
       | None => r = []
       | Some _ => True
       end.
Proof.
  destruct (semantic_search_cases query top_k s) as (w1 & _ & Hcases).
  destruct (generate_embedding_run (VStr query) (mem s)) as (q & Hgen & Hsrc).
  assert (Hq : query_embedding E query s = q)
    by (unfold query_embedding; now rewrite Hgen).
  destruct Hcases
    as [[Hes Hrun] | [(Hne & _ & Hrun)
                     | (vs & sims & Hne & _ & Hcos & _ & _ & Hrun)]].
  - exists [], s. rewrite Hes. split; [exact Hrun|]. split; [auto|].
    now destruct (fst (embeddings_create E (VStr query) (world (mem s)))).
  - eexists [], _. split; [exact Hrun|]. split.
    + destruct (enriched_companies s); [congruence | exact I].
    + now destruct (fst (embeddings_create E (VStr query) (world (mem s)))).
  - eexists _, _. split; [exact Hrun|]. split.
    + destruct (enriched_companies s); [congruence | exact I].
    + destruct (fst (embeddings_create E (VStr query) (world (mem s)))); [exact I|].
      rewrite picks_none; [simpl; apply slice_to_nil|].
      eapply Forall_impl.
      * apply (cosine_similarity_zero_l E _ _ _ 0%nat sims _
                 (query_embedding E query s) Hcos eq_refl eq_refl
                 (as_row_floats _)).
        rewrite Hq, Hsrc. apply Forall_replicate. reflexivity.
      * intros x Hx.
        apply FloatFacts.ltb_zero_or_nan; [apply threshold_nonneg | exact Hx].
Qed.

(** ** C9: search leaves the collection alone *)

Lemma search_frame (E : Env) (query : string) (top_k : Z) (s : state E) :
  exists res s',
    semantic_search E query top_k s = (Ok res, s')
    /\ companies s' = companies s
    /\ enriched_companies s' = enriched_companies s
    /\ heap (mem s) `prefix_of` heap (mem s')
    /\ Forall (fun e => heap (mem s') !! e = heap (mem s) !! e)
         (enriched_companies s)
    /\ Forall (fun l => (length (heap (mem s)) <= l)%nat) res.
Proof.
  destruct (semantic_search_cases query top_k s) as (w1 & _ & Hcases).
  destruct Hcases
    as [[Hes Hrun] | [(_ & _ & Hrun)
                     | (vs & sims & _ & Hre & _ & _ & _ & Hrun)]].
  - exists [], s. split; [exact Hrun|]. repeat split; auto.
    now apply Forall_forall.
  - eexists [], _. split; [exact Hrun|]. simpl. repeat split; auto.
    now apply Forall_forall.
  - eexists _, _. split; [exact Hrun|]. simpl. repeat split.
    + now apply prefix_app_r.
    + apply Forall_forall. intros e He.
      apply list_elem_of_lookup in He as [i Hi].
      destruct (read_embeddings_lookup _ _ _ _ _ Hre Hi) as (d & _ & Hd & _).
      rewrite Hd. now apply lookup_app_l_Some.
    + apply Forall_forall. intros l Hl. apply slice_to_subset in Hl.
      change (map pick_copy ?l) with (pick_copy <$> l) in Hl.
      rewrite sort_desc_perm in Hl.
      change (pick_copy <$> ?l) with (map pick_copy l) in Hl.
      rewrite picks_copies in Hl. apply elem_of_seq in Hl. lia.
Qed.

(** C9: [semantic_search] returns and leaves [companies] and
    [enriched_companies] as they were; every object that existed before the
    call, so every record of the collection, is unchanged; the results are
    references to objects allocated by the call (the scored copies), none of
    them a record of the collection; a further search still sees every
    record of the collection as it was before the first one. *)
Theorem search_read_only (E : Env) (query query' : string) (top_k top_k' : Z)
    (s : state E) :
  exists res s',
    semantic_search E query top_k s = (Ok res, s')
    /\ companies s' = companies s
    /\ enriched_companies s' = enriched_companies s
    /\ heap (mem s) `prefix_of` heap (mem s')
    /\ Forall (fun e => heap (mem s') !! e = heap (mem s) !! e)
         (enriched_companies s)
    /\ Forall (fun l => (length (heap (mem s)) <= l)%nat) res
    /\ exists res' s'',
         semantic_search E query' top_k' s' = (Ok res', s'')
         /\ enriched_companies s'' = enriched_companies s
         /\ Forall (fun e => heap (mem s'') !! e = heap (mem s) !! e)
              (enriched_companies s).
Proof.
  destruct (search_frame E query top_k s)
    as (res & s' & Hrun & Hcs & Hen & Hpre & Hsame & Hfresh).
  destruct (search_frame E query' top_k' s')
    as (res' & s'' & Hrun' & _ & Hen' & _ & Hsame' & _).
  exists res, s'. repeat (split; [assumption|]).
  exists res', s''. split; [exact Hrun'|]. split; [congruence|].
  rewrite Hen in Hsame'. rewrite Forall_forall in Hsame. rewrite Forall_forall in Hsame'.
  apply Forall_forall. intros e He. rewrite (Hsame' e He). auto.
Qed.

(** ** C5: records with an all-zero embedding are not returned *)

Section ZeroExclusion.

Context {E : Env}.

Lemma with_score_embedding x d :
  dict_get "embedding" (with_score x d) = dict_get "embedding" d.
Proof. unfold with_score. now apply dict_get_set_ne. Qed.

(** What a result of a search is: the scored copy of a record of the
    collection whose similarity to the query is above the threshold. *)
Lemma search_results_scored query top_k (s : state E) res s' l :
  semantic_search E query top_k s = (Ok res, s') ->
  l ∈ res ->
  exists i e d v vs sims x,
    enriched_companies s !! i = Some e
    /\ heap (mem s) !! e = Some d
    /\ dict_get "embedding" d = Some v
    /\ read_embeddings (heap (mem s)) (enriched_companies s) = Some vs
    /\ vs !! i = Some v
    /\ cosine_similarity E [VList (map VFloat (query_embedding E query s))] vs
       = Some [sims]
    /\ sims !! i = Some x
    /\ heap (mem s') !! l = Some (with_score x d)
    /\ (Flt.threshold_literal <? x)%float = true.
Proof.
  intros Hrun Hl.
  destruct (semantic_search_cases query top_k s) as (w1 & _ & Hcases).
  destruct Hcases
    as [[_ Hrun'] | [(_ & _ & Hrun')
                    | (vs & sims & _ & Hre & Hcos & _ & _ & Hrun')]];
    rewrite Hrun in Hrun'; injection Hrun' as -> ->; try (now inversion Hl).
  apply slice_to_subset in Hl.
  change (map pick_copy ?l) with (pick_copy <$> l) in Hl.
  rewrite sort_desc_perm in Hl.
  apply list_elem_of_fmap in Hl as (t & -> & Ht).
  pose proof (picks_items sims (enumerate (enriched_companies s)) (length (heap (mem s)))) as Hit.
  pose proof (picks_above sims (enumerate (enriched_companies s)) (length (heap (mem s)))) as Hab.
  rewrite Forall_forall in Hit. rewrite Forall_forall in Hab.
  specialize (Hit t Ht). destruct (Hab t Ht) as [Hsim Hlt].
  apply elem_of_enumerate in Hit.
  destruct (read_embeddings_lookup _ _ _ _ _ Hre Hit) as (d & v & Hd & Hv & Hvs).
  exists (pick_index t), (pick_source t), d, v, vs, sims, (fst t).
  split; [exact Hit|]. split; [exact Hd|]. split; [exact Hv|].
  split; [exact Hre|]. split; [exact Hvs|]. split; [exact Hcos|].
  split; [exact Hsim|]. split; [|exact Hlt].
  cbn [mem heap]. rewrite (picks_heap_lookup sims _ _ t Ht).
  unfold scored_copy. now rewrite Hd.
Qed.

(** C5: no result of a search carries an all-zero embedding, and no result
    is the scored copy of a record of the collection with an all-zero
    embedding, whatever the query; for any threshold that is not negative,
    the similarity of any vector with an all-zero vector is not above the
    threshold. *)
Theorem zero_embedding_excluded query top_k (s : state E) res s' :
  semantic_search E query top_k s = (Ok res, s') ->
  Forall (fun l => ~ has_zero_embedding (heap (mem s')) l) res
  /\ Forall (fun l =>
               forall e d x, has_zero_embedding (heap (mem s)) e ->
                             heap (mem s) !! e = Some d ->
                             heap (mem s') !! l <> Some (with_score x d)) res
  /\ forall (t : float) (q zs : list float),
       (0 <=? t)%float = true ->
       Forall (fun z => is_zero z = true) zs ->
       (t <? Sklearn.similarity q zs)%float = false.
Proof.
  intros Hrun.
  assert (Hgen : forall (t : float) (q zs : list float),
             (0 <=? t)%float = true ->
             Forall (fun z => is_zero z = true) zs ->
             (t <? Sklearn.similarity q zs)%float = false).
  { intros t q zs Ht Hzs. apply FloatFacts.ltb_zero_or_nan; [exact Ht|].
    now apply similarity_zero_r. }
  assert (Hmain : Forall (fun l => ~ has_zero_embedding (heap (mem s')) l) res).
  { apply Forall_forall. intros l Hl (zs & (d' & v' & Hd' & Hv' & Hrow') & Hzs).
    destruct (search_results_scored query top_k s res s' l Hrun Hl)
      as (i & e & d & v & vs & sims & x
          & _ & _ & Hv & _ & Hvs & Hcos & Hx & Hcopy & Hlt).
    rewrite Hcopy in Hd'. injection Hd' as <-.
    rewrite with_score_embedding, Hv in Hv'. injection Hv' as <-.
    rewrite (FloatFacts.ltb_zero_or_nan Flt.threshold_literal x threshold_nonneg)
      in Hlt; [discriminate|].
    exact (cosine_similarity_zero_r E _ _ _ 0%nat sims i x v zs
             Hcos eq_refl Hx Hvs Hrow' Hzs). }
  split; [exact Hmain|]. split; [|exact Hgen].
  rewrite Forall_forall in Hmain. apply Forall_forall.
  intros l Hl e d x (zs & (d0 & v & Hd0 & Hv & Hrow) & Hzs) Hd Hcopy.
  apply (Hmain l Hl). exists zs. split; [|exact Hzs].
  exists (with_score x d), v. split; [exact Hcopy|].
  rewrite with_score_embedding. split; [congruence | exact Hrow].
Qed.

End ZeroExclusion.

Lemma zero_embedding_excluded_witness :
  exists res s',
    semantic_search toy_env "q" 2 toy_state = (Ok res, s')
    /\ length res = 2%nat
    /\ Forall (fun l => ~ has_zero_embedding (heap (mem s')) l) res.
Proof.
  eexists _, _. split; [cbv -[Flt.of_Z]; reflexivity|]. split; [reflexivity|].
  apply (@zero_embedding_excluded toy_env "q" 2 toy_state). cbv -[Flt.of_Z]. reflexivity.
Defined.

(** ** C4: what search returns *)

Lemma StronglySorted_lt_NoDup (l : list nat) :
  StronglySorted lt l -> NoDup l.
Proof.
  induction 1 as [|x l _ IH Hx]; constructor; [|exact IH].
  intros Hin. rewrite Forall_forall in Hx. specialize (Hx x Hin). lia.
Qed.

Lemma StronglySorted_map_members {A B} (R1 : A -> A -> Prop) (R2 : B -> B -> Prop)
    (P : A -> Prop) (f : A -> B) (l : list A) :
  (forall x y, P x -> P y -> R1 x y -> R2 (f x) (f y)) ->
  Forall P l ->
  StronglySorted R1 l ->
  StronglySorted R2 (map f l).
Proof.
  intros Hf HP Hs. induction Hs as [|x l _ IH Hx]; simpl; [constructor|].
  apply Forall_cons in HP as [Px HP].
  constructor; [now apply IH|].
  change (map f l) with (f <$> l). apply Forall_fmap.
  rewrite Forall_forall in Hx. rewrite Forall_forall in HP.
  apply Forall_forall. intros y Hy. apply Hf; auto.
Qed.

Section Ranking.

Context {E : Env}.

(** C4: on a non-empty collection whose embeddings are rows that suit the
    query embedding, and for [top_k >= 0], the library returns one cosine
    similarity per record ([sims], row 0 of its result), and
    [semantic_search] returns the first [top_k] of the references [locs],
    where [locs] are scored copies of exactly the records whose similarity
    is strictly above 0.3 (one copy per such record, each with its record's
    items and its similarity under [similarity_score]), in descending order
    of similarity, records of equal similarity in the order of the
    collection; so the result has at most [min top_k n] entries for a
    collection of [n] records. *)
Theorem search_ranked (query : string) (top_k : Z) (s : state E)
    (ys : list (list float)) :
  enriched_companies s <> [] ->
  Forall2 (stores_row (heap (mem s))) (enriched_companies s) ys ->
  compatible_rows (query_embedding E query s) ys = true ->
  0 <= top_k ->
  exists sims s' idxs locs,
    search_scores E query s = Some sims
    /\ length sims = length (enriched_companies s)
    /\ let sim i := default 0%float (sims !! i) in
       semantic_search E query top_k s = (Ok (take (Z.to_nat top_k) locs), s')
       /\ NoDup idxs
       /\ (forall i, i ∈ idxs
                     <-> (i < length (enriched_companies s))%nat
                         /\ (0.3 <? sim i)%float = true)
       /\ StronglySorted (ranked_before sim) idxs
       /\ Forall2 (fun i l =>
                     exists e d,
                       enriched_companies s !! i = Some e
                       /\ heap (mem s) !! e = Some d
                       /\ heap (mem s') !! l = Some (with_score (sim i) d))
            idxs locs
       /\ (length (take (Z.to_nat top_k) locs)
           <= Nat.min (Z.to_nat top_k) (length (enriched_companies s)))%nat.
Proof.
  intros Hes Hys Hcompat Hk.
  destruct (well_formed_scores query s ys Hes Hys Hcompat) as [sims Hsc].
  destruct (semantic_search_cases query top_k s) as (w1 & _ & Hcases).
  destruct Hcases
    as [[Hnil _] | [(_ & Hnone & _)
                   | (vs & sims' & _ & _ & _ & Hsc' & Hlen & Hrun)]];
    [congruence | congruence |].
  rewrite Hsc in Hsc'. injection Hsc' as <-.
  set (h := heap (mem s)) in *.
  set (pk := picks sims (enumerate (enriched_companies s)) (length h)) in *.
  rewrite slice_to_nonneg in Hrun by exact Hk.
  exists sims.
  eexists _, (map pick_index (sort_desc pk)), (map pick_copy (sort_desc pk)).
  split; [exact Hsc|]. split; [exact Hlen|]. intros sim.
  split; [exact Hrun|].
  pose proof (picks_items sims (enumerate (enriched_companies s)) (length h)) as Hit.
  pose proof (picks_above sims (enumerate (enriched_companies s)) (length h)) as Hab.
  fold pk in Hit, Hab.
  assert (Hsimt : forall t, t ∈ pk -> sim (pick_index t) = fst t).
  { intros t Ht. rewrite Forall_forall in Hab. unfold sim.
    destruct (Hab t Ht) as [-> _]. reflexivity. }
  assert (Hinc : StronglySorted (fun t1 t2 => (pick_index t1 < pick_index t2)%nat) pk)
    by apply picks_increasing, enumerate_increasing.
  split; [|split; [|split; [|split]]].
  - change (map pick_index ?l) with (pick_index <$> l).
    rewrite sort_desc_perm. apply StronglySorted_lt_NoDup.
    change (pick_index <$> pk) with (map pick_index pk).
    eapply (StronglySorted_map_members _ lt (fun _ => True)); [| |exact Hinc]; auto.
    now apply Forall_forall.
  - intros i. change (map pick_index ?l) with (pick_index <$> l).
    rewrite sort_desc_perm, list_elem_of_fmap. split.
    + intros (t & -> & Ht). rewrite (Hsimt t Ht).
      rewrite Forall_forall in Hit. rewrite Forall_forall in Hab.
      specialize (Hit t Ht). apply elem_of_enumerate in Hit.
      split; [eapply lookup_lt_Some, Hit | apply (Hab t Ht)].
    + intros [Hi Hlt].
      destruct (lookup_lt_is_Some_2 (enriched_companies s) i Hi) as [e He].
      destruct (lookup_lt_is_Some_2 sims i ltac:(lia)) as [x Hx].
      unfold sim in Hlt. rewrite Hx in Hlt. simpl in Hlt.
      destruct (picks_complete sims (enumerate (enriched_companies s)) (length h) i e x)
        as [c Hpick].
      * apply Forall_forall. intros [j e'] Hin. apply elem_of_enumerate in Hin.
        apply lookup_lt_is_Some. simpl. rewrite Hlen. eapply lookup_lt_Some, Hin.
      * now apply elem_of_enumerate.
      * exact Hx.
      * exact Hlt.
      * exists (x, (i, (e, c))). split; [reflexivity | exact Hpick].
  - eapply (StronglySorted_map_members (item_before fst) _ (fun t => t ∈ pk)).
    + intros t1 t2 H1 H2 [Hle Htie]. unfold ranked_before.
      rewrite (Hsimt t1 H1), (Hsimt t2 H2). split; [exact Hle | exact Htie].
    + apply Forall_forall. intros t Ht. now rewrite sort_desc_perm in Ht.
    + apply sort_desc_sorted; [|exact Hinc].
      eapply Forall_impl; [exact Hab|]. intros t [_ Hlt].
      now destruct (FloatFacts.ltb_not_nan _ _ Hlt).
  - change (map pick_index ?l) with (pick_index <$> l).
    change (map pick_copy ?l) with (pick_copy <$> l).
    apply Forall2_fmap, Forall_Forall2_diag, Forall_forall. intros t Ht.
    rewrite sort_desc_perm in Ht.
    rewrite Forall_forall in Hit. specialize (Hit t Ht).
    apply elem_of_enumerate in Hit.
    destruct (Forall2_lookup_l _ _ _ _ _ Hys Hit) as (y & _ & d & v & Hd & _).
    exists (pick_source t), d. split; [exact Hit|]. split; [exact Hd|].
    cbn [mem heap]. unfold pk. rewrite (picks_heap_lookup sims _ _ t Ht).
    unfold scored_copy. fold h. rewrite Hd, (Hsimt t Ht). reflexivity.
  - rewrite length_take, length_map, sort_desc_length.
    pose proof (picks_length sims (enumerate (enriched_companies s)) (length h)).
    rewrite enumerate_length in *. fold pk in H. lia.
Qed.

End Ranking.

Lemma toy_state_rows :
  Forall2 (stores_row (heap (mem toy_state))) (enriched_companies toy_state)
    toy_collection_rows.
Proof.
  repeat constructor; eexists _, _; (split; [reflexivity|]); split; reflexivity.
Defined.

Lemma toy_state_records :
  Forall2 (fun e d => heap (mem toy_state) !! e = Some d)
    (enriched_companies toy_state) toy_collection.
Proof. repeat constructor. Defined.

Lemma search_ranked_witness :
  exists sims s' idxs locs,
    search_scores toy_env "q" toy_state = Some sims
    /\ length sims = 4%nat
    /\ let sim i := default 0%float (sims !! i) in
       semantic_search toy_env "q" 2 toy_state = (Ok (take 2 locs), s')
       /\ NoDup idxs
       /\ (forall i, i ∈ idxs
                     <-> (i < 4)%nat /\ (0.3 <? sim i)%float = true)
       /\ StronglySorted (ranked_before sim) idxs
       /\ Forall2 (fun i l =>
                     exists e d,
                       enriched_companies toy_state !! i = Some e
                       /\ heap (mem toy_state) !! e = Some d
                       /\ heap (mem s') !! l = Some (with_score (sim i) d))
            idxs locs
       /\ (length (take 2 locs) <= Nat.min 2 4)%nat.
Proof.
  apply (@search_ranked toy_env "q" 2 toy_state toy_collection_rows).
  - discriminate.
  - apply toy_state_rows.
  - cbv -[Flt.of_Z]. reflexivity.
  - lia.
Defined.

(** The scenario of the specification: the record along the query comes
    first with score 1, the record at similarity about 0.5 second, the
    record with the zero embedding and the one below 0.3 are left out. *)
Example search_scenario :
  exists s',
    semantic_search toy_env "q" 2 toy_state = (Ok [5%nat; 4%nat], s')
    /\ heap (mem s') !! 5%nat
       = Some (with_score 1%float (toy_record "A" [2%float; 0%float]))
    /\ option_map (dict_get "companyName") (heap (mem s') !! 4%nat)
       = Some (Some (VStr "B")).
Proof. eexists. split; [cbv -[Flt.of_Z]; reflexivity|]. split; reflexivity. Qed.

(** ** C6: the threshold *)

Section Threshold.

Local Open Scope float_scope.

Lemma filter_length_impl {A} (f g : A -> bool) (l : list A) :
  (forall x, f x = true -> g x = true) ->
  (length (List.filter f l) <= length (List.filter g l))%nat.
Proof.
  intros Hfg. induction l as [|x l IH]; simpl; [lia|].
  destruct (f x) eqn:Hf.
  - rewrite (Hfg x Hf). simpl. lia.
  - destruct (g x); simpl; lia.
Qed.

(** The search of the specification returns no more results for a higher
    threshold. *)
Lemma search_spec_monotone sims records top_k t1 t2 :
  (t1 <=? t2) = true ->
  (length (search_spec sims records top_k t2)
   <= length (search_spec sims records top_k t1))%nat.
Proof.
  intros Hle. unfold search_spec.
  rewrite !length_take, !length_map, !sort_desc_length.
  apply Nat.min_le_compat_l, filter_length_impl.
  intros p. apply FloatFacts.leb_ltb_trans, Hle.
Qed.

(** The picks are the records of the specification's filter. *)
Lemma picks_spec (h : list dict) sims : forall es ds k next,
  Forall2 (fun e d => h !! e = Some d) es ds ->
  (k + length es <= length sims)%nat ->
  map (fun t => (fst t, default [] (h !! pick_source t)))
    (picks sims (combine (seq k (length es)) es) next)
  = List.filter (fun p => Flt.threshold_literal <? fst p)
      (combine (drop k sims) ds).
Proof.
  intros es ds k next Hds. revert k next.
  induction Hds as [|e d es ds Hd _ IH]; intros k next Hlen.
  - simpl. now rewrite combine_nil.
  - simpl in Hlen.
    destruct (lookup_lt_is_Some_2 sims k ltac:(lia)) as [x Hx].
    rewrite (drop_S _ _ _ Hx).
    cbn [length seq combine picks map List.filter fst snd]. rewrite Hx.
    destruct (Flt.threshold_literal <? x).
    + cbn [map]. unfold pick_source at 1. cbn [fst snd]. rewrite Hd. cbn [default].
      f_equal. apply IH. lia.
    + apply IH. lia.
Qed.

End Threshold.

Section ThresholdClaim.

Context {E : Env}.

(** On a well-formed collection the records [semantic_search] returns are
    the ones the search of the specification returns, at threshold 0.3, for
    the similarities the library gave. *)
Lemma search_refines_spec (query : string) (top_k : Z) (s : state E)
    (ys : list (list float)) (ds : list dict) :
  enriched_companies s <> [] ->
  Forall2 (stores_row (heap (mem s))) (enriched_companies s) ys ->
  Forall2 (fun e d => heap (mem s) !! e = Some d) (enriched_companies s) ds ->
  compatible_rows (query_embedding E query s) ys = true ->
  0 <= top_k ->
  exists sims res s',
    search_scores E query s = Some sims
    /\ semantic_search E query top_k s = (Ok res, s')
    /\ map (fun l => heap (mem s') !! l) res
       = map Some (search_spec sims ds (Z.to_nat top_k) 0.3%float).
Proof.
  intros Hes Hys Hds Hcompat Hk.
  destruct (well_formed_scores query s ys Hes Hys Hcompat) as [sims Hsc].
  destruct (semantic_search_cases query top_k s) as (w1 & _ & Hcases).
  destruct Hcases
    as [[Hnil _] | [(_ & Hnone & _)
                   | (vs & sims' & _ & _ & _ & Hsc' & Hlen & Hrun)]];
    [congruence | congruence |].
  rewrite Hsc in Hsc'. injection Hsc' as <-.
  set (h := heap (mem s)) in *.
  set (pk := picks sims (enumerate (enriched_companies s)) (length h)) in *.
  rewrite slice_to_nonneg in Hrun by exact Hk.
  exists sims. eexists _, _. split; [exact Hsc|]. split; [exact Hrun|].
  cbn [mem heap]. unfold search_spec.
  pose proof (picks_spec h sims (enriched_companies s) ds 0 (length h) Hds
                ltac:(lia)) as Hspec.
  rewrite drop_0 in Hspec.
  change (List.filter (fun p : float * dict => (0.3 <? fst p)%float)
            (combine sims ds))
    with (List.filter (fun p : float * dict => (Flt.threshold_literal <? fst p)%float)
            (combine sims ds)).
  rewrite <- Hspec.
  fold (enumerate (enriched_companies s)). fold pk.
  change (map (fun t : float * (nat * (loc * loc)) =>
                 (fst t, default [] (h !! pick_source t))) pk)
    with (map (fun p : float * (nat * (loc * loc)) =>
                 (fst p, (fun a : nat * (loc * loc) =>
                            default [] (h !! fst (snd a))) (snd p))) pk).
  rewrite sort_desc_map.
  change (map ?f ?l) with (f <$> l).
  rewrite <- !list_fmap_compose, <- !fmap_take, <- !list_fmap_compose.
  apply Forall_fmap_ext, Forall_forall. intros t Ht.
  apply elem_of_take in Ht as (j & Ht & _). apply list_elem_of_lookup_2 in Ht.
  rewrite sort_desc_perm in Ht. simpl.
  unfold pk in Ht |- *. rewrite (picks_heap_lookup sims _ _ t Ht). reflexivity.
Qed.

(** C6 (as amended): [semantic_search] has no threshold parameter, its
    cut-off is the literal 0.3.  On a well-formed collection it returns the
    records the search of the specification returns at threshold 0.3 for
    the similarities the library gave; the search of the specification at a
    threshold of 0.3 or more never returns more records than
    [semantic_search] does, and at a threshold of 0.3 or less never fewer;
    for these similarities, a higher threshold never gives more results. *)
Theorem threshold_fixed_and_monotone (query : string) (top_k : Z) (s : state E)
    (ys : list (list float)) (ds : list dict) :
  enriched_companies s <> [] ->
  Forall2 (stores_row (heap (mem s))) (enriched_companies s) ys ->
  Forall2 (fun e d => heap (mem s) !! e = Some d) (enriched_companies s) ds ->
  compatible_rows (query_embedding E query s) ys = true ->
  0 <= top_k ->
  exists sims res s',
    search_scores E query s = Some sims
    /\ semantic_search E query top_k s = (Ok res, s')
    /\ map (fun l => heap (mem s') !! l) res
       = map Some (search_spec sims ds (Z.to_nat top_k) 0.3%float)
    /\ (forall t, (0.3 <=? t)%float = true ->
                  (length (search_spec sims ds (Z.to_nat top_k) t)
                   <= length res)%nat)
    /\ (forall t, (t <=? 0.3)%float = true ->
                  (length res
                   <= length (search_spec sims ds (Z.to_nat top_k) t))%nat)
    /\ (forall t1 t2, (t1 <=? t2)%float = true ->
                      (length (search_spec sims ds (Z.to_nat top_k) t2)
                       <= length (search_spec sims ds (Z.to_nat top_k) t1))%nat).
Proof.
  intros Hes Hys Hds Hcompat Hk.
  destruct (search_refines_spec query top_k s ys ds Hes Hys Hds Hcompat Hk)
    as (sims & res & s' & Hsc & Hrun & Hres).
  assert (Hlen : length res
                 = length (search_spec sims ds (Z.to_nat top_k) 0.3%float)).
  { rewrite <- (length_map (fun l => heap (mem s') !! l) res), Hres.
    apply length_map. }
  exists sims, res, s'. split; [exact Hsc|]. split; [exact Hrun|].
  split; [exact Hres|]. rewrite Hlen.
  split; [|split]; intros; now apply search_spec_monotone.
Qed.

End ThresholdClaim.

(** The code cannot be asked for another threshold: for the similarities
    of the toy collection, the search of the specification at threshold
    0.125 returns three records, [semantic_search] returns two (C6 as
    stated fails). *)
Lemma threshold_not_tunable :
  exists sims,
    search_scores toy_env "q" toy_state = Some sims
    /\ length (search_spec sims toy_collection 5 0.125%float) = 3%nat
    /\ exists res s',
         semantic_search toy_env "q" 5 toy_state = (Ok res, s')
         /\ length res = 2%nat.
Proof.
  eexists. split; [cbv -[Flt.of_Z]; reflexivity|].
  split; [cbv -[Flt.of_Z]; reflexivity|].
  eexists _, _. split; [cbv -[Flt.of_Z]; reflexivity | reflexivity].
Qed.

Lemma threshold_fixed_and_monotone_witness :
  exists sims res s',
    search_scores toy_env "q" toy_state = Some sims
    /\ semantic_search toy_env "q" 5 toy_state = (Ok res, s')
    /\ map (fun l => heap (mem s') !! l) res
       = map Some (search_spec sims toy_collection (Z.to_nat 5) 0.3%float)
    /\ (forall t, (0.3 <=? t)%float = true ->
                  (length (search_spec sims toy_collection (Z.to_nat 5) t)
                   <= length res)%nat)
    /\ (forall t, (t <=? 0.3)%float = true ->
                  (length res
                   <= length (search_spec sims toy_collection (Z.to_nat 5) t))%nat)
    /\ (forall t1 t2, (t1 <=? t2)%float = true ->
                      (length (search_spec sims toy_collection (Z.to_nat 5) t2)
                       <= length (search_spec sims toy_collection (Z.to_nat 5) t1))%nat).
Proof.
  apply (@threshold_fixed_and_monotone toy_env "q" 5 toy_state
           toy_collection_rows toy_collection).
  - discriminate.
  - apply toy_state_rows.
  - apply toy_state_records.
  - cbv -[Flt.of_Z]. reflexivity.
  - lia.
Defined.

(** ** Outside the hypotheses *)

(** A batch size of zero raises ([range] refuses a zero step), before any
    record is handled. *)
Example batch_size_zero_raises :
  batch_enrich_companies offline_env 0 (sample_state offline_env tt)
  = (Raised, sample_state offline_env tt).
Proof. reflexivity. Qed.

(** A negative batch size handles no record. *)
Example batch_size_negative_handles_nothing :
  batch_enrich_companies offline_env (-2) (sample_state offline_env tt)
  = (Ok tt, sample_state offline_env tt).
Proof. reflexivity. Qed.

(** A negative [top_k] cuts from the end: of the two records above the
    threshold the last one is dropped. *)
Example negative_top_k_cuts_from_the_end :
  fst (semantic_search toy_env "q" (-1) toy_state) = Ok [5%nat].
Proof. cbv -[Flt.of_Z]. reflexivity. Qed.

(** Embeddings of another dimension than the query embedding make
    [cosine_similarity] raise: the search returns the empty list.  Here the
    embedding call fails, so the query vector has 1536 zeros, against rows
    of two coordinates. *)
Example dimension_mismatch_returns_nothing :
  fst (semantic_search offline_env "q" 2
         {| mem := offline_store toy_records; companies := [];
            enriched_companies := [0%nat; 1%nat] |}) = Ok [].
Proof. cbv -[Flt.of_Z]. reflexivity. Qed.

(** * Further properties *)

(** ** Dictionaries, continued *)

Lemma dict_update_snoc d upd k v :
  dict_update d (upd ++ [(k, v)]) = dict_set k v (dict_update d upd).
Proof. now rewrite dict_update_app. Qed.

(** After [d.update(upd)] a key reads as the last item of [upd] under it,
    and as in [d] when [upd] has none. *)
Lemma dict_get_update k d upd :
  dict_get k (dict_update d upd)
  = match dict_get k (rev upd) with
    | Some v => Some v
    | None => dict_get k d
    end.
Proof.
  induction upd as [|[k' v'] upd IH] using rev_ind; [reflexivity|].
  rewrite dict_update_snoc, rev_unit. simpl.
  destruct (String.eqb k k') eqn:Hk.
  - apply String.eqb_eq in Hk. subst k'. apply dict_get_set_eq.
  - now rewrite dict_get_set_ne.
Qed.

Lemma has_key_update k d upd :
  has_key k d = true -> has_key k (dict_update d upd) = true.
Proof.
  unfold has_key. rewrite dict_get_update.
  now destruct (dict_get k (rev upd)).
Qed.

(** ** The enrichment service, on every path *)

Section EnrichmentPaths.

Context {E : Env}.

(** X1: on a record, [enrich_company_description] never raises, whatever
    the text-generation call and the parser do: it returns a new object,
    leaves every object that existed, the record among them, as it was, and
    the object it returns has every key of the record and a string under
    [searchableText]. *)
Theorem enrich_returns_fresh_copy company c (s : store E) :
  heap s !! company = Some c ->
  exists e s' d text,
    enrich_company_description E company s = (Ok e, s')
    /\ (length (heap s) <= e)%nat
    /\ heap s `prefix_of` heap s'
    /\ heap s' !! company = Some c
    /\ heap s' !! e = Some d
    /\ (forall k, has_key k c = true -> has_key k d = true)
    /\ dict_get "searchableText" d = Some (VStr text).
Proof.
  intros Hc.
  destruct (enrich_company_description_run company c s Hc)
    as (w' & garbage & upd & Hrun & _ & text & Htext).
  assert (P : heap s `prefix_of` (heap s ++ garbage) ++ [dict_update c upd])
    by (rewrite <- app_assoc; now apply prefix_app_r).
  eexists _, _, (dict_update c upd), text. split; [exact Hrun|]. cbn [heap].
  split; [rewrite length_app; lia|].
  split; [exact P|].
  split; [eapply prefix_lookup; eauto|].
  split; [apply list_lookup_middle; reflexivity|].
  split; [intros k; apply has_key_update | exact Htext].
Qed.

(** The [try] block, when the response parses to an object whose tags
    join. *)
Lemma enrich_try_success company c (s : store E) content w1 ai text :
  heap s !! company = Some c ->
  chat_completions_create E (prompt E c) (world s) = (Some content, w1) ->
  json_loads E content = Some (VDict ai) ->
  searchable_text E c ai = Some text ->
  enrich_try E company s
  = (Ok (length (heap s)),
     {| world := w1;
        heap := heap s ++ [dict_set "searchableText" (VStr (str_strip E text))
                             (dict_update c ai)] |}).
Proof.
  intros Hc Hchat Hjson Htext. unfold enrich_try.
  rewrite (bind_ok _ _ s c s) by (rewrite deref_eq, Hc; reflexivity).
  rewrite (bind_ok _ _ s content {| world := w1; heap := heap s |})
    by (unfold call_chat; now rewrite Hchat).
  rewrite Hjson. simpl of_option. erewrite bind_ok by reflexivity.
  erewrite bind_ok by (apply dict_copy_ok; simpl; exact Hc). simpl.
  erewrite bind_ok by reflexivity.
  erewrite bind_ok by apply update_last.
  rewrite Htext. simpl of_option. erewrite bind_ok by reflexivity.
  erewrite bind_ok by apply setitem_last.
  reflexivity.
Qed.

(** X2: when the response parses to an object whose tags join, the result
    is a copy of the record updated with every item of the response, then
    with the stripped searchable text: under any other key it reads as the
    response where the response has the key (its last item under it), and
    as the record elsewhere.  An item of the response thus overrides the
    record's item of the same key. *)
Theorem enrich_success_merges_response company c (s : store E) content w1 ai text :
  heap s !! company = Some c ->
  chat_completions_create E (prompt E c) (world s) = (Some content, w1) ->
  json_loads E content = Some (VDict ai) ->
  searchable_text E c ai = Some text ->
  exists d,
    enrich_company_description E company s
    = (Ok (length (heap s)), {| world := w1; heap := heap s ++ [d] |})
    /\ dict_get "searchableText" d = Some (VStr (str_strip E text))
    /\ forall k, String.eqb k "searchableText" = false ->
         dict_get k d = match dict_get k (rev ai) with
                        | Some v => Some v
                        | None => dict_get k c
                        end.
Proof.
  intros Hc Hchat Hjson Htext.
  exists (dict_set "searchableText" (VStr (str_strip E text)) (dict_update c ai)).
  split; [|split].
  - unfold enrich_company_description.
    apply try_ok.
    exact (enrich_try_success company c s content w1 ai text Hc Hchat Hjson Htext).
  - apply dict_get_set_eq.
  - intros k Hk. rewrite dict_get_set_ne by exact Hk. apply dict_get_update.
Qed.

(** The [try] block, when the response parses to something it cannot use:
    it raises, and leaves the copy it made behind. *)
Lemma enrich_try_rejected company c (s : store E) content w1 v :
  heap s !! company = Some c ->
  chat_completions_create E (prompt E c) (world s) = (Some content, w1) ->
  json_loads E content = Some v ->
  shape_rejected E c v = true ->
  exists dropped,
    enrich_try E company s
    = (Raised, {| world := w1; heap := heap s ++ [dropped] |}).
Proof.
  intros Hc Hchat Hjson Hrej. unfold enrich_try.
  rewrite (bind_ok _ _ s c s) by (rewrite deref_eq, Hc; reflexivity).
  rewrite (bind_ok _ _ s content {| world := w1; heap := heap s |})
    by (unfold call_chat; now rewrite Hchat).
  rewrite Hjson. simpl of_option. erewrite bind_ok by reflexivity.
  erewrite bind_ok by (apply dict_copy_ok; simpl; exact Hc). simpl.
  destruct (as_dict v) as [ai|] eqn:Hai.
  - destruct v; try discriminate. injection Hai as ->.
    simpl of_option. erewrite bind_ok by reflexivity.
    erewrite bind_ok by apply update_last.
    simpl in Hrej. destruct (searchable_text E c ai); [discriminate|].
    exists (dict_update c ai). reflexivity.
  - exists c. reflexivity.
Qed.

(** X3: when the response parses, but not to an object whose tags join (a
    JSON array, a number, an object whose [projectTypes] is a number, ...),
    the result is the fallback record: a new copy of the record as it was,
    updated with the fallback items only.  Nothing of the response shows in
    it, although the [try] block had already merged the response into its
    own copy. *)
Theorem enrich_rejected_response_falls_back company c (s : store E) content w1 v :
  heap s !! company = Some c ->
  chat_completions_create E (prompt E c) (world s) = (Some content, w1) ->
  json_loads E content = Some v ->
  shape_rejected E c v = true ->
  exists e s',
    enrich_company_description E company s = (Ok e, s')
    /\ world s' = w1
    /\ heap s `prefix_of` heap s'
    /\ heap s' !! e = Some (dict_update c (fallback_fields E c))
    /\ (forall k, has_key k (fallback_fields E c) = false ->
                  dict_get k (dict_update c (fallback_fields E c)) = dict_get k c).
Proof.
  intros Hc Hchat Hjson Hrej.
  destruct (enrich_try_rejected company c s content w1 v Hc Hchat Hjson Hrej)
    as [dropped Hrun].
  unfold enrich_company_description. rewrite (try_raised _ _ _ _ Hrun).
  rewrite (enrich_except_run company c) by (simpl; now apply lookup_app_l_Some).
  eexists _, _. split; [reflexivity|]. cbn [world heap].
  split; [reflexivity|].
  split; [rewrite <- app_assoc; now apply prefix_app_r|].
  split; [apply list_lookup_middle; reflexivity|].
  intros k Hk. rewrite dict_get_update.
  unfold has_key in Hk.
  destruct (dict_get k (fallback_fields E c)) eqn:Hget; [discriminate|].
  clear Hk. unfold fallback_fields in *. simpl rev. simpl in Hget |- *.
  repeat match type of Hget with
         | context [String.eqb k ?x] =>
             destruct (String.eqb k x); [discriminate|]
         end.
  reflexivity.
Qed.

End EnrichmentPaths.

(** ** The batch orchestrator with the processor's own steps *)

Section BatchPaths.

Context {E : Env}.

(** The [try] block of the loop body, run with [enrich_company_description]
    and [generate_embedding] on a record: it returns. *)
Lemma process_try_real_run c d (s : state E) :
  heap (mem s) !! c = Some d ->
  exists w' garbage upd text v sa sb,
    process_try E (enrich_company_description E) (generate_embedding E) c s
    = (Ok tt,
       {| mem := {| world := w';
                    heap := (heap (mem s) ++ garbage)
                            ++ [dict_set "embedding" (VList (map VFloat v))
                                  (dict_update d upd)] |};
          companies := companies s;
          enriched_companies :=
            enriched_companies s ++ [length (heap (mem s) ++ garbage)] |})
    /\ dict_get "searchableText" (dict_update d upd) = Some (VStr text)
    /\ generate_embedding E (VStr text) sa = (Ok v, sb).
Proof.
  intros Hd.
  destruct (enrich_company_description_run c d (mem s) Hd)
    as (w1 & garbage & upd & Hrun & _ & text & Htext).
  destruct (generate_embedding_run (VStr text)
              {| world := w1;
                 heap := (heap (mem s) ++ garbage) ++ [dict_update d upd] |})
    as (v & Hgen & _).
  eexists _, garbage, upd, text, v, _, _.
  split; [|split; [exact Htext | exact Hgen]].
  unfold process_try.
  erewrite bind_ok by (apply on_store_eq, Hrun).
  erewrite bind_ok
    by (apply on_store_eq; rewrite deref_eq; cbn [mem heap];
        rewrite list_lookup_middle by reflexivity; reflexivity).
  rewrite Htext. simpl of_option. erewrite bind_ok by reflexivity.
  erewrite bind_ok by (apply on_store_eq; cbn [mem]; exact Hgen).
  erewrite bind_ok by (apply on_store_eq; cbn [mem world heap]; apply setitem_last).
  reflexivity.
Qed.

Lemma entry_of_prefix (h h' : list dict) c e :
  h `prefix_of` h' -> entry_of h c e -> entry_of h' c e.
Proof.
  intros P (d & upd & text & v & Hne & Hc & He & Ht & Hv).
  exists d, upd, text, v.
  split; [exact Hne|]. split; [eapply prefix_lookup; eauto|].
  split; [eapply prefix_lookup; eauto | auto].
Qed.

(** The loop body on a record, with the processor's own steps. *)
Lemma real_step_run c d (s : state E) :
  heap (mem s) !! c = Some d ->
  exists e s',
    process_try E (enrich_company_description E) (generate_embedding E) c s
    = (Ok tt, s')
    /\ process_company E (enrich_company_description E) (generate_embedding E) c s
       = (Ok tt, s')
    /\ companies s' = companies s
    /\ enriched_companies s' = enriched_companies s ++ [e]
    /\ heap (mem s) `prefix_of` heap (mem s')
    /\ entry_of (heap (mem s')) c e
    /\ (length (heap (mem s)) <= e < length (heap (mem s')))%nat.
Proof.
  intros Hd.
  destruct (process_try_real_run c d s Hd)
    as (w' & garbage & upd & text & v & sa & sb & Hrun & Htext & _).
  eexists _, _. split; [exact Hrun|].
  split; [unfold process_company; apply try_ok, Hrun|].
  cbn [mem heap companies enriched_companies].
  split; [reflexivity|]. split; [reflexivity|].
  assert (P : heap (mem s)
              `prefix_of` (heap (mem s) ++ garbage)
                          ++ [dict_set "embedding" (VList (map VFloat v))
                                (dict_update d upd)])
    by (rewrite <- app_assoc; now apply prefix_app_r).
  split; [exact P|]. split.
  - exists d, (upd ++ [("embedding", VList (map VFloat v))]), text, v.
    rewrite dict_update_snoc.
    split; [apply lookup_lt_Some in Hd; rewrite length_app; lia|].
    split; [eapply prefix_lookup; eauto|].
    split; [apply list_lookup_middle; reflexivity|].
    split; [now rewrite dict_get_set_ne | apply dict_get_set_eq].
  - rewrite !length_app. simpl. lia.
Qed.

(** X4: with the processor's own steps the [try] block of the loop body
    returns for every record, because [enrich_company_description] and
    [generate_embedding] both handle their failures and the enriched record
    always has a [searchableText]: the [except] block of the orchestrator is
    never entered.  The entry appended is a new object, the record with
    items set or added, among them a searchable text and an embedding; no
    object that existed before changes. *)
Theorem orchestrator_fallback_unreachable c d (s : state E) :
  heap (mem s) !! c = Some d ->
  exists e s',
    process_try E (enrich_company_description E) (generate_embedding E) c s
    = (Ok tt, s')
    /\ process_company E (enrich_company_description E) (generate_embedding E) c s
       = (Ok tt, s')
    /\ enriched_companies s' = enriched_companies s ++ [e]
    /\ heap (mem s) `prefix_of` heap (mem s')
    /\ entry_of (heap (mem s')) c e.
Proof.
  intros Hd.
  destruct (real_step_run c d s Hd) as (e & s' & H1 & H2 & _ & H3 & H4 & H5 & _).
  exists e, s'. auto.
Qed.

Lemma processed_real_entries cs (s : state E) es s' :
  valid_refs (heap (mem s)) cs ->
  processed E (process_company E (enrich_company_description E)
                 (generate_embedding E)) cs s es s' ->
  heap (mem s) `prefix_of` heap (mem s')
  /\ Forall2 (entry_of (heap (mem s'))) cs es
  /\ Forall (fun e => (length (heap (mem s)) <= e < length (heap (mem s')))%nat) es
  /\ StronglySorted lt es.
Proof.
  intros Hv Hp. induction Hp as [|c cs s e s1 es s2 Hrun Hcs Hen Hp IH].
  - split; [reflexivity|]. repeat split; constructor.
  - apply Forall_cons in Hv as [Hc Hv].
    destruct (lookup_lt_is_Some_2 _ _ Hc) as [d Hd].
    destruct (real_step_run c d s Hd)
      as (e' & s1' & _ & Hrun' & _ & Hen' & P & Hent & Hlo).
    rewrite Hrun in Hrun'. injection Hrun' as <-.
    rewrite Hen in Hen'. apply app_inj_tail in Hen' as [_ <-].
    pose proof (prefix_length _ _ P) as L1.
    destruct IH as (P2 & Hall & Hb & Hs).
    { eapply Forall_impl; [exact Hv|]. simpl. intros l Hl. lia. }
    pose proof (prefix_length _ _ P2) as L2.
    split; [etransitivity; eauto|].
    split; [constructor; [eapply entry_of_prefix; eauto | exact Hall]|].
    split.
    + constructor; [lia|]. eapply Forall_impl; [exact Hb|]. simpl. intros; lia.
    + constructor; [exact Hs|]. eapply Forall_impl; [exact Hb|]. simpl. intros; lia.
Qed.

(** X5: for a batch size of at least one, [batch_enrich_companies] appends
    one entry per record, in order; the entry for a record is an object of
    its own (never the record), the record with items set or added, among
    them a string under [searchableText] and a list of floats under
    [embedding]; the entries are pairwise distinct objects allocated by the
    run; and every object that existed before the run (the loaded records,
    the entries of an earlier run) is left exactly as it was. *)
Theorem batch_entries_extend_records (bs : Z) (s : state E) :
  1 <= bs ->
  valid_refs (heap (mem s)) (companies s) ->
  exists new s',
    batch_enrich_companies E bs s = (Ok tt, s')
    /\ enriched_companies s' = enriched_companies s ++ new
    /\ Forall2 (entry_of (heap (mem s'))) (companies s) new
    /\ heap (mem s) `prefix_of` heap (mem s')
    /\ Forall (fun e => (length (heap (mem s)) <= e)%nat) new
    /\ NoDup new.
Proof.
  intros Hbs Hv. unfold batch_enrich_companies.
  destruct (batch_loop_processed _ _ enrich_company_description_preserves
              generate_embedding_preserves
              (fun _ _ _ => True) (trivial_rel_step _) bs s Hbs Hv)
    as (new & s' & Hrun & Hp & _ & Hen & _).
  destruct (processed_real_entries _ _ _ _ Hv Hp) as (P & Hall & Hb & Hs).
  exists new, s'. split; [exact Hrun|]. split; [exact Hen|].
  split; [exact Hall|]. split; [exact P|]. split.
  - eapply Forall_impl; [exact Hb|]. simpl. intros; lia.
  - now apply StronglySorted_lt_NoDup.
Qed.

(** X7: a batch size that is not positive.  With zero the run raises
    ([range] refuses a zero step) and with a negative size it returns; in
    both cases before any record is handled: the state is unchanged, nothing
    is appended, no service is called. *)
Theorem batch_nonpositive_size
    (enrich_step : loc -> M (store E) loc)
    (embed_step : value -> M (store E) (list float))
    (bs : Z) (s : state E) :
  bs <= 0 ->
  batch_loop E enrich_step embed_step bs s
  = (if bs =? 0 then Raised else Ok tt, s).
Proof.
  intros Hbs. unfold batch_loop, bind, gets, range.
  destruct (Z.eqb_spec bs 0) as [->|Hne]; [reflexivity|].
  cbn [of_option]. unfold ret at 1.
  replace (Z.to_nat (range_len 0 (Z.of_nat (length (companies s))) bs))
    with 0%nat; [reflexivity|].
  unfold range_len. destruct (Z.ltb_spec 0 bs) as [?|_]; [lia|].
  assert ((0 - Z.of_nat (length (companies s)) - bs - 1) / - bs < 1)
    by (apply Z.div_lt_upper_bound; lia).
  lia.
Qed.

End BatchPaths.

Lemma orchestrator_fallback_unreachable_witness :
  exists e s',
    process_try offline_env (enrich_company_description offline_env)
      (generate_embedding offline_env) 0%nat (sample_state offline_env tt)
    = (Ok tt, s')
    /\ enriched_companies s' = [e]
    /\ entry_of (heap (mem s')) 0%nat e.
Proof.
  destruct (@orchestrator_fallback_unreachable offline_env 0%nat
              [("companyName", VStr "Acme"); ("companyType", VStr "school")]
              (sample_state offline_env tt) eq_refl)
    as (e & s' & H1 & _ & H2 & _ & H3).
  exists e, s'. auto.
Defined.

Lemma batch_entries_extend_records_witness :
  exists new s',
    batch_enrich_companies offline_env 2 (sample_state offline_env tt) = (Ok tt, s')
    /\ enriched_companies s' = [] ++ new
    /\ Forall2 (entry_of (heap (mem s'))) [0%nat; 1%nat; 2%nat] new
    /\ sample_records `prefix_of` heap (mem s')
    /\ Forall (fun e => (3 <= e)%nat) new
    /\ NoDup new.
Proof.
  apply (@batch_entries_extend_records offline_env 2 (sample_state offline_env tt)).
  - lia.
  - apply sample_state_valid.
Defined.

Lemma batch_nonpositive_size_witness :
  batch_enrich_companies online_env (-3) (sample_state online_env tt)
  = (Ok tt, sample_state online_env tt).
Proof.
  apply (@batch_nonpositive_size online_env
           (enrich_company_description online_env)
           (generate_embedding online_env) (-3) (sample_state online_env tt)).
  lia.
Defined.

(** ** Search: the cut, and collections it cannot score *)

Lemma slice_to_prefix {A} (l : list A) (k1 k2 : Z) :
  0 <= k1 <= k2 -> slice_to l k1 `prefix_of` slice_to l k2.
Proof.
  intros [H1 H2]. rewrite !slice_to_nonneg by lia.
  replace (take (Z.to_nat k1) l)
    with (take (Z.to_nat k1) (take (Z.to_nat k2) l))
    by (rewrite take_take; f_equal; lia).
  apply prefix_take.
Qed.

(** X8: [top_k] only cuts the list of results.  For a state and a query
    there is one ranked list of candidates: every [top_k] returns its slice
    [[:top_k]] and ends in the same state, so that a smaller [top_k] (from
    zero on) returns a prefix of what a larger one returns.  The search
    makes a scored copy for every candidate before it cuts: the heap grows
    by the number of candidates, whatever [top_k] is. *)
Theorem search_top_k_truncates (E : Env) (query : string) (s : state E) :
  exists full s',
    (forall top_k,
        semantic_search E query top_k s = (Ok (slice_to full top_k), s'))
    /\ (length full <= length (enriched_companies s))%nat
    /\ length (heap (mem s')) = (length (heap (mem s)) + length full)%nat
    /\ forall k1 k2, 0 <= k1 <= k2 ->
                     slice_to full k1 `prefix_of` slice_to full k2.
Proof.
  destruct (enriched_companies s) as [|e0 es0] eqn:Hes.
  { exists [], s. split.
    - intros top_k. unfold semantic_search, bind, gets. rewrite Hes.
      now rewrite slice_to_nil.
    - split; [simpl; lia|]. split; [simpl; lia|].
      intros. now apply slice_to_prefix. }
  rewrite <- Hes.
  destruct (semantic_search_cases query 0 s) as (w1 & Hgen & Hcases).
  destruct Hcases
    as [[Hnil _] | [(_ & Hnone & Hrun)
                   | (vs & sims & _ & _ & _ & Hsc & Hlen & Hrun)]];
    [congruence | |].
  - eexists [], _. split.
    + intros top_k.
      destruct (semantic_search_cases query top_k s) as (w1' & Hgen' & Hcases').
      rewrite Hgen in Hgen'. injection Hgen' as <-.
      destruct Hcases'
        as [[Hnil _] | [(_ & _ & Hrun')
                       | (vs & sims & _ & _ & _ & Hsc & _)]];
        [congruence | | congruence].
      rewrite slice_to_nil. exact Hrun'.
    + cbn [mem heap length]. split; [lia|]. split; [lia|].
      intros. now apply slice_to_prefix.
  - eexists _, _. split.
    + intros top_k.
      destruct (semantic_search_cases query top_k s) as (w1' & Hgen' & Hcases').
      rewrite Hgen in Hgen'. injection Hgen' as <-.
      destruct Hcases'
        as [[Hnil _] | [(_ & Hnone & _)
                       | (vs' & sims' & _ & _ & _ & Hsc' & _ & Hrun')]];
        [congruence | congruence |].
      rewrite Hsc in Hsc'. injection Hsc' as <-. exact Hrun'.
    + cbn [mem heap]. rewrite length_app, !length_map, sort_desc_length.
      pose proof (picks_length sims
                    (enumerate (enriched_companies s)) (length (heap (mem s)))) as Hl.
      rewrite enumerate_length in Hl.
      split; [exact Hl|]. split; [reflexivity|].
      intros. now apply slice_to_prefix.
Qed.

(** X9: one record is enough to disable the search.  If some record of the
    collection has no [embedding], or its embedding is a list of another
    length than the query embedding, or a list that holds an infinite or
    not-a-number float, then the list comprehension or [cosine_similarity]
    raises for the whole collection and the handler turns this into an
    empty result: the search returns [[]] for that query, allocates
    nothing, and does not raise. *)
Theorem malformed_embedding_disables_search (E : Env) (query : string)
    (top_k : Z) (s : state E) (e : loc) (d : dict) :
  e ∈ enriched_companies s ->
  heap (mem s) !! e = Some d ->
  unusable_embedding (length (query_embedding E query s)) d ->
  exists s',
    semantic_search E query top_k s = (Ok [], s')
    /\ heap (mem s') = heap (mem s)
    /\ enriched_companies s' = enriched_companies s.
Proof.
  intros He Hd Hbad.
  destruct (semantic_search_cases query top_k s) as (w1 & _ & Hcases).
  destruct Hcases
    as [[Hnil _] | [(_ & _ & Hrun) | (vs & sims & _ & Hre & Hcos & _)]].
  - rewrite Hnil in He. inversion He.
  - eexists. split; [exact Hrun|]. split; reflexivity.
  - exfalso. apply list_elem_of_lookup in He as [i Hi].
    destruct (read_embeddings_lookup _ _ _ _ _ Hre Hi) as (d' & v & Hd' & Hv & Hvs).
    rewrite Hd in Hd'. injection Hd' as <-.
    destruct Hbad as [Hnone | (l & Hl & Hwhy)]; [congruence|].
    rewrite Hv in Hl. injection Hl as ->.
    apply list_elem_of_lookup_2 in Hvs.
    destruct Hwhy as [Hlen | (x & Hx & Hinf)].
    + rewrite (cosine_similarity_dimension E _ vs
                 (map VFloat (query_embedding E query s)) l) in Hcos;
        [discriminate | constructor | exact Hvs |].
      rewrite length_map. congruence.
    + rewrite (cosine_similarity_finite E _ vs l x Hvs Hx Hinf) in Hcos.
      discriminate.
Qed.

Lemma malformed_embedding_disables_search_witness :
  exists s',
    semantic_search offline_env "q" 2
      {| mem := offline_store toy_records; companies := [];
         enriched_companies := [0%nat; 1%nat] |} = (Ok [], s')
    /\ heap (mem s') = toy_records
    /\ enriched_companies s' = [0%nat; 1%nat].
Proof.
  apply (@malformed_embedding_disables_search offline_env "q" 2
           {| mem := offline_store toy_records; companies := [];
              enriched_companies := [0%nat; 1%nat] |} 0%nat
           (toy_record "A" [2%float; 0%float])).
  - constructor.
  - reflexivity.
  - right. eexists. split; [reflexivity|]. left.
    cbv -[Flt.of_Z]. discriminate.
Defined.

(** ** From the batch run to the search *)

Section Searchable.

Context {E : Env}.

Lemma forallb_finite_zeros n : forallb is_finite (replicate n 0%float) = true.
Proof. induction n as [|n IH]; [reflexivity|]. cbn [replicate forallb]. now rewrite IH. Qed.

Lemma generate_embedding_finite text (sa sb : store E) v :
  capability_finite E ->
  generate_embedding E text sa = (Ok v, sb) ->
  length v = EMBEDDING_DIM /\ forallb is_finite v = true.
Proof.
  intros Hcap Hv.
  destruct (generate_embedding_run text sa) as (v' & Heq & Hsrc).
  rewrite Heq in Hv. injection Hv as -> _.
  destruct (embeddings_create E text (world sa)) as [[v0|] w0] eqn:Hcall;
    cbn [fst] in Hsrc; subst v.
  - eapply Hcap; eauto.
  - split; [apply length_replicate | apply forallb_finite_zeros].
Qed.

Lemma has_finite_embedding_prefix (h h' : list dict) e :
  h `prefix_of` h' -> has_finite_embedding h e -> has_finite_embedding h' e.
Proof.
  intros P (d & v & Hd & Hrest). exists d, v.
  split; [eapply prefix_lookup; eauto | exact Hrest].
Qed.

Lemma has_finite_embedding_insert (h : list dict) l d v e :
  h !! l = Some d ->
  length v = EMBEDDING_DIM ->
  forallb is_finite v = true ->
  has_finite_embedding h e ->
  has_finite_embedding (<[l := dict_set "embedding" (VList (map VFloat v)) d]> h) e.
Proof.
  intros Hl Hv Hfin (d' & v' & Hd' & Hrest).
  destruct (decide (l = e)) as [->|Hne].
  - exists (dict_set "embedding" (VList (map VFloat v)) d), v.
    split; [apply list_lookup_insert_eq; eapply lookup_lt_Some; eauto|].
    split; [apply dict_get_set_eq | auto].
  - exists d', v'. split; [now rewrite list_lookup_insert_ne | exact Hrest].
Qed.

(** The loop body establishes and keeps [has_finite_embedding]. *)
Lemma has_finite_embedding_step (enrich_step : loc -> M (store E) loc) :
  (forall c, preserves (enrich_step c)) ->
  capability_finite E ->
  forall c (d : dict) (s : state E) e s',
    heap (mem s) !! c = Some d ->
    process_company E enrich_step (generate_embedding E) c s = (Ok tt, s') ->
    enriched_companies s' = enriched_companies s ++ [e] ->
    has_finite_embedding (heap (mem s')) e
    /\ forall c0 e0 : loc, has_finite_embedding (heap (mem s)) e0 ->
                           has_finite_embedding (heap (mem s')) e0.
Proof.
  intros He Hcap c d s e s' Hd Hrun Hen.
  destruct (process_company_cases enrich_step (generate_embedding E) He
              generate_embedding_preserves c d s Hd)
    as (e' & s2 & h1 & Hrun' & _ & Hen' & P & Hcases).
  rewrite Hrun in Hrun'. injection Hrun' as <-.
  rewrite Hen in Hen'. apply app_inj_tail in Hen' as [_ <-].
  destruct Hcases as [(-> & Hheap & _) | (d1 & v & t & sa & sb & Hd1 & Hv & Hheap)];
    rewrite Hheap.
  - split.
    + exists (dict_set "embedding" zero_embedding d), (replicate EMBEDDING_DIM 0%float).
      split; [apply list_lookup_middle; reflexivity|].
      split; [|split; [apply length_replicate | apply forallb_finite_zeros]].
      rewrite dict_get_set_eq. unfold zero_embedding.
      now rewrite map_VFloat_replicate.
    + intros _ e0 H0. eapply has_finite_embedding_prefix; [|exact H0].
      etransitivity; [exact P | now apply prefix_app_r].
  - destruct (generate_embedding_finite t sa sb v Hcap Hv) as [Hlen Hfin].
    split.
    + exists (dict_set "embedding" (VList (map VFloat v)) d1), v.
      split; [apply list_lookup_insert_eq; eapply lookup_lt_Some; eauto|].
      split; [apply dict_get_set_eq | auto].
    + intros _ e0 H0. apply has_finite_embedding_insert; auto.
      eapply has_finite_embedding_prefix; eauto.
Qed.

(** Finite embeddings of the model's dimension read as rows that pass the
    validation against a query of that dimension. *)
Lemma finite_rows (h : list dict) es :
  Forall (has_finite_embedding h) es ->
  exists ys,
    Forall2 (stores_row h) es ys
    /\ forallb (Sklearn.row_ok EMBEDDING_DIM) ys = true.
Proof.
  induction 1 as [|e es (d & v & Hd & Hv & Hlen & Hfin) _ (ys & Hys & Hok)].
  - exists []. split; [constructor | reflexivity].
  - exists (v :: ys). split.
    + constructor; [|exact Hys]. exists d, (VList (map VFloat v)).
      split; [exact Hd|]. split; [exact Hv | apply as_row_floats].
    + cbn [forallb]. rewrite Hok, andb_true_r.
      unfold Sklearn.row_ok. now rewrite Hlen, Nat.eqb_refl, Hfin.
Qed.

(** X10: what [batch_enrich_companies] produces, [semantic_search] can
    score.  When the embedding capability answers with finite vectors of
    the model's dimension whenever it answers, and the entries already in
    the collection carry such embeddings, then after a batch run (batch
    size at least one) every entry of the collection stores a row, and for
    every query these rows and the query embedding pass the validation of
    [cosine_similarity]: the search reaches the scoring loop instead of its
    handler, also for the entries whose embedding is the zero fallback. *)
Theorem batch_output_searchable (bs : Z) (s : state E) (query : string) :
  capability_finite E ->
  1 <= bs ->
  valid_refs (heap (mem s)) (companies s) ->
  Forall (has_finite_embedding (heap (mem s))) (enriched_companies s) ->
  exists s' ys,
    batch_enrich_companies E bs s = (Ok tt, s')
    /\ Forall2 (stores_row (heap (mem s'))) (enriched_companies s') ys
    /\ compatible_rows (query_embedding E query s') ys = true.
Proof.
  intros Hcap Hbs Hv Hold. unfold batch_enrich_companies.
  destruct (batch_loop_processed _ _ enrich_company_description_preserves
              generate_embedding_preserves
              (fun h _ e => has_finite_embedding h e)
              (has_finite_embedding_step _ enrich_company_description_preserves Hcap)
              bs s Hbs Hv)
    as (new & s' & Hrun & _ & _ & Hen & _ & _ & Hall & Hkeep).
  assert (Hfin : Forall (has_finite_embedding (heap (mem s'))) (enriched_companies s')).
  { rewrite Hen. apply Forall_app. split.
    - eapply Forall_impl; [exact Hold|]. intros e0. apply (Hkeep 0%nat).
    - clear -Hall. induction Hall; constructor; auto. }
  destruct (finite_rows _ _ Hfin) as (ys & Hys & Hok).
  exists s', ys. split; [exact Hrun|]. split; [exact Hys|].
  destruct (generate_embedding_run (VStr query) (mem s')) as (q & Hgen & _).
  destruct (generate_embedding_finite _ _ _ _ Hcap Hgen) as [Hlen Hqfin].
  unfold query_embedding. rewrite Hgen. cbn [fst].
  unfold compatible_rows. rewrite Hlen, Hok, andb_true_r.
  cbn [forallb]. unfold Sklearn.row_ok. rewrite Hlen, Nat.eqb_refl, Hqfin.
  reflexivity.
Qed.

End Searchable.

Lemma online_finite : capability_finite online_env.
Proof.
  intros t w v w' H.
  assert (Hv : Some (replicate EMBEDDING_DIM 1%float) = Some v)
    by exact (f_equal fst H).
  assert (Hl : replicate EMBEDDING_DIM 1%float = v)
    by exact (f_equal (fun o => match o with Some x => x | None => [] end) Hv).
  rewrite <- Hl. split; [apply length_replicate|].
  generalize EMBEDDING_DIM. intros n.
  induction n as [|n IH]; [reflexivity|]. cbn [replicate forallb]. now rewrite IH.
Defined.

Lemma batch_output_searchable_witness :
  exists s' ys,
    batch_enrich_companies online_env 2 (sample_state online_env tt) = (Ok tt, s')
    /\ Forall2 (stores_row (heap (mem s'))) (enriched_companies s') ys
    /\ compatible_rows (query_embedding online_env "schools" s') ys = true.
Proof.
  apply (@batch_output_searchable online_env 2 (sample_state online_env tt) "schools").
  - apply online_finite.
  - lia.
  - apply sample_state_valid.
  - constructor.
Defined.

(** ** [test_search] *)

Section TestSearch.

Context {E : Env}.

Lemma for_each_reads {A} (f : A -> M (state E) unit) (l : list A) (s : state E) :
  Forall (fun x => f x s = (Ok tt, s)) l -> for_each f l s = (Ok tt, s).
Proof.
  induction 1 as [|x l Hx _ IH]; [reflexivity|].
  simpl. now rewrite (bind_ok _ _ _ _ _ Hx).
Qed.

(** The line logged for a result that carries a float score. *)
Lemma log_result_scored l (s : state E) d x :
  heap (mem s) !! l = Some d ->
  dict_get "similarity_score" d = Some (VFloat x) ->
  log_result E l s = (Ok tt, s).
Proof.
  intros Hd Hx. unfold log_result.
  rewrite (bind_ok _ _ s d s).
  - now rewrite Hx.
  - erewrite on_store_eq by (rewrite deref_eq, Hd; reflexivity).
    now rewrite state_eta.
Qed.

Lemma test_query_run query (s : state E) :
  exists s',
    test_query E query s = (Ok tt, s')
    /\ companies s' = companies s
    /\ enriched_companies s' = enriched_companies s
    /\ heap (mem s) `prefix_of` heap (mem s').
Proof.
  destruct (search_frame E query 5 s)
    as (res & s1 & Hrun & Hcs & Hen & P & _ & _).
  exists s1. split; [|auto].
  unfold test_query. rewrite (bind_ok _ _ _ _ _ Hrun).
  destruct res as [|r0 res0] eqn:Hres; [reflexivity|]. rewrite <- Hres in *.
  apply for_each_reads, Forall_forall. intros l Hl.
  apply slice_to_subset in Hl.
  destruct (search_results_scored query 5 s res s1 l Hrun Hl)
    as (i & e & d & v & vs & sims & x & _ & _ & _ & _ & _ & _ & _ & Hcopy & _).
  eapply log_result_scored; [exact Hcopy|].
  unfold with_score. apply dict_get_set_eq.
Qed.

(** X11: [test_search] returns for every list of queries and every state,
    although nothing in it handles exceptions: each search returns, and
    every result it is handed carries a float under [similarity_score], so
    the formatting of the three lines logged per query goes through.  It
    leaves [companies] and [enriched_companies] as they were and changes no
    object that existed; it only adds the scored copies of its searches. *)
Theorem test_search_never_raises (test_queries : list string) (s : state E) :
  exists s',
    test_search E test_queries s = (Ok tt, s')
    /\ companies s' = companies s
    /\ enriched_companies s' = enriched_companies s
    /\ heap (mem s) `prefix_of` heap (mem s').
Proof.
  revert s. induction test_queries as [|query qs IH]; intros s.
  - exists s. repeat split; reflexivity.
  - destruct (test_query_run query s) as (s1 & Hrun & Hcs & Hen & P).
    destruct (IH s1) as (s2 & Hrun2 & Hcs2 & Hen2 & P2).
    exists s2. split.
    + unfold test_search in *. simpl. now rewrite (bind_ok _ _ _ _ _ Hrun).
    + split; [congruence|]. split; [congruence|]. etransitivity; eauto.
Qed.

End TestSearch.

(** ** [save_enhanced_data] *)

Section Save.

Context {E : Env}.

Lemma valid_refs_records (h : list dict) es :
  valid_refs h es -> exists ds, Forall2 (fun e d => h !! e = Some d) es ds.
Proof.
  induction 1 as [|e es He _ [ds Hds]].
  - exists []. constructor.
  - destruct (lookup_lt_is_Some_2 _ _ He) as [d Hd].
    exists (d :: ds). now constructor.
Qed.

Lemma read_records (s : state E) es ds :
  Forall2 (fun e d => heap (mem s) !! e = Some d) es ds ->
  map_m (fun e => on_store E (deref E e)) es s = (Ok ds, s).
Proof.
  induction 1 as [|e d es ds Hd _ IH]; [reflexivity|].
  simpl. rewrite (bind_ok _ _ s d s).
  - now rewrite (bind_ok _ _ _ _ _ IH).
  - erewrite on_store_eq by (rewrite deref_eq, Hd; reflexivity).
    now rewrite state_eta.
Qed.

(** X12: [save_enhanced_data] on a processor whose collection is in the
    heap.  It never changes the heap, [companies], [enriched_companies] or
    the two attributes.  When [regions] or [company_types] was never set
    (only [load_company_data] sets them) it raises before the clock is read
    or the file is opened: the processor and the world are unchanged.
    Otherwise it reads the clock once and dumps one document, which holds
    the two attributes, the records of the collection in order, and their
    number as [total_companies]; it returns when the dump succeeds and
    raises when the dump fails: a failure is never swallowed. *)
Theorem save_enhanced_data_outcome (io : IO E) (output_file : string)
    (p : processor E) :
  valid_refs (heap (mem (core p))) (enriched_companies (core p)) ->
  exists r p',
    save_enhanced_data E io output_file p = (r, p')
    /\ heap (mem (core p')) = heap (mem (core p))
    /\ companies (core p') = companies (core p)
    /\ enriched_companies (core p') = enriched_companies (core p)
    /\ regions p' = regions p
    /\ company_types p' = company_types p
    /\ match regions p, company_types p with
       | Some rg, Some ct =>
           exists ds,
             Forall2 (fun e d => heap (mem (core p)) !! e = Some d)
               (enriched_companies (core p)) ds
             /\ let (ts, w1) :=
                  strftime io "%Y-%m-%d %H:%M:%S" (world (mem (core p))) in
                let (written, w2) :=
                  dump_json io output_file
                    (enhanced_data rg ct (Z.of_nat (length ds)) ds ts) w1 in
                r = (if written then Ok tt else Raised)
                /\ world (mem (core p')) = w2
       | _, _ => r = Raised /\ p' = p
       end.
Proof.
  intros Hv. destruct (valid_refs_records _ _ Hv) as [ds Hds].
  unfold save_enhanced_data.
  destruct p as [c rg ct]. cbn [core regions company_types] in *.
  destruct rg as [rg|].
  2:{ eexists _, _. split; [reflexivity|]. repeat split. }
  destruct ct as [ct|].
  2:{ eexists _, _. split; [reflexivity|]. repeat split. }
  unfold bind at 1. cbn [of_option ret regions].
  unfold bind at 1. cbn [of_option ret company_types].
  unfold bind at 1. unfold gets at 1. cbn [core].
  unfold bind at 1. unfold on_core at 1, on_world at 1. cbn [core mem world heap].
  destruct (strftime io "%Y-%m-%d %H:%M:%S" (world (mem c))) as [ts w1] eqn:Hts.
  cbn [regions company_types].
  unfold bind at 1. unfold gets at 1. cbn [core enriched_companies].
  unfold bind at 1. unfold on_core at 1. cbn [core regions company_types].
  rewrite (read_records _ _ ds) by (cbn [mem heap]; exact Hds).
  unfold bind at 1. unfold on_core at 1, on_world at 1.
  cbn [core mem world heap companies enriched_companies regions company_types].
  rewrite (Forall2_length _ _ _ Hds).
  destruct (dump_json io output_file
              (enhanced_data rg ct (Z.of_nat (length ds)) ds ts) w1)
    as [written w2] eqn:Hdump.
  destruct written; (eexists _, _; split; [reflexivity|]);
    cbn [core mem heap world companies enriched_companies regions company_types];
    repeat (split; [reflexivity|]); exists ds; (split; [exact Hds|]);
    rewrite Hdump; split; reflexivity.
Qed.

End Save.

Lemma save_enhanced_data_outcome_witness :
  exists r p',
    save_enhanced_data toy_env toy_io "map-enhanced.json" toy_processor = (r, p')
    /\ heap (mem (core p')) = toy_records
    /\ enriched_companies (core p') = [2%nat; 1%nat; 0%nat; 3%nat].
Proof.
  destruct (@save_enhanced_data_outcome toy_env toy_io "map-enhanced.json"
              toy_processor ltac:(repeat constructor))
    as (r & p' & H1 & H2 & _ & H3 & _).
  exists r, p'. auto.
Defined.

(** ** What the enrichment reads of a record *)

Section FieldsRead.

Context {E : Env}.

Lemma prompt_agree (c1 c2 : dict) :
  agree_on_fields_read c1 c2 -> prompt E c1 = prompt E c2.
Proof.
  intros H. unfold agree_on_fields_read, fields_read in H.
  apply Forall_cons in H as [H1 H]. apply Forall_cons in H as [H2 H].
  apply Forall_cons in H as [H3 H]. apply Forall_cons in H as [H4 _].
  unfold prompt, company_context, dict_get_default.
  now rewrite H1, H2, H3, H4.
Qed.

Lemma enrichment_text_agree (c1 c2 : dict) (w : World E) :
  agree_on_fields_read c1 c2 -> enrichment_text E c1 w = enrichment_text E c2 w.
Proof.
  intros H. pose proof (prompt_agree c1 c2 H) as Hp.
  unfold agree_on_fields_read, fields_read in H.
  apply Forall_cons in H as [H1 H]. apply Forall_cons in H as [H2 H].
  apply Forall_cons in H as [H3 _].
  unfold enrichment_text, searchable_text, dict_get_default.
  now rewrite Hp, H1, H2, H3.
Qed.

(** The text of the [except] block. *)
Lemma fallback_searchable_text (c : dict) :
  dict_get "searchableText" (dict_update c (fallback_fields E c))
  = Some (VStr (fmt E (dict_get_default "companyName" (VStr "") c) ++ " "
                ++ fmt E (dict_get_default "companyType" (VStr "") c) ++ " "
                ++ fmt E (dict_get_default "region" (VStr "") c))%string).
Proof. rewrite dict_get_update. reflexivity. Qed.

(** The [except] block, entered after the [try] block raised with some
    objects left behind. *)
Lemma enrich_handler_run company c (s : store E) w dropped :
  heap s !! company = Some c ->
  enrich_try E company s = (Raised, {| world := w; heap := heap s ++ dropped |}) ->
  enrich_company_description E company s
  = (Ok (length (heap s ++ dropped)),
     {| world := w;
        heap := (heap s ++ dropped) ++ [dict_update c (fallback_fields E c)] |}).
Proof.
  intros Hc Hrun. unfold enrich_company_description.
  rewrite (try_raised _ _ _ _ Hrun).
  now rewrite (enrich_except_run company c) by (simpl; now apply lookup_app_l_Some).
Qed.

(** The result of [enrich_company_description], by what the service
    answers. *)
Lemma enrich_text_run company c (s : store E) :
  heap s !! company = Some c ->
  exists e s' d,
    enrich_company_description E company s = (Ok e, s')
    /\ heap s' !! e = Some d
    /\ world s' = snd (chat_completions_create E (prompt E c) (world s))
    /\ dict_get "searchableText" d = Some (VStr (enrichment_text E c (world s))).
Proof.
  intros Hc. unfold enrichment_text.
  destruct (chat_completions_create E (prompt E c) (world s))
    as [[content|] w1] eqn:Hchat; cbn [fst snd].
  2:{ destruct (enrich_try_fails company c s Hc) as [w' Hrun].
      { unfold generation_fails. now rewrite Hchat. }
      assert (w' = w1) as ->.
      { unfold enrich_try in Hrun.
        rewrite (bind_ok _ _ s c s) in Hrun by (rewrite deref_eq, Hc; reflexivity).
        unfold bind, call_chat in Hrun. rewrite Hchat in Hrun.
        now injection Hrun. }
      rewrite <- (app_nil_r (heap s)) in Hrun.
      eexists _, _, _. split; [apply (enrich_handler_run _ _ _ _ _ Hc Hrun)|].
      cbn [world heap]. split; [apply list_lookup_middle; reflexivity|].
      split; [reflexivity | apply fallback_searchable_text]. }
  destruct (json_loads E content) as [v|] eqn:Hj.
  2:{ destruct (enrich_try_fails company c s Hc) as [w' Hrun].
      { unfold generation_fails. now rewrite Hchat, Hj. }
      assert (w' = w1) as ->.
      { unfold enrich_try in Hrun.
        rewrite (bind_ok _ _ s c s) in Hrun by (rewrite deref_eq, Hc; reflexivity).
        rewrite (bind_ok _ _ s content {| world := w1; heap := heap s |}) in Hrun
          by (unfold call_chat; now rewrite Hchat).
        rewrite Hj in Hrun. unfold bind in Hrun. simpl in Hrun.
        now injection Hrun. }
      rewrite <- (app_nil_r (heap s)) in Hrun.
      eexists _, _, _. split; [apply (enrich_handler_run _ _ _ _ _ Hc Hrun)|].
      cbn [world heap]. split; [apply list_lookup_middle; reflexivity|].
      split; [reflexivity | apply fallback_searchable_text]. }
  destruct (shape_rejected E c v) eqn:Hrej.
  - destruct (enrich_try_rejected company c s content w1 v Hc Hchat Hj Hrej)
      as [dropped Hrun].
    eexists _, _, _. split; [apply (enrich_handler_run _ _ _ _ _ Hc Hrun)|].
    cbn [world heap]. split; [apply list_lookup_middle; reflexivity|].
    split; [reflexivity|].
    rewrite fallback_searchable_text.
    destruct v as [| | | | |? |ai]; try reflexivity.
    simpl in Hrej. now destruct (searchable_text E c ai).
  - destruct v as [| | | | | |ai]; try discriminate.
    simpl in Hrej. destruct (searchable_text E c ai) as [text|] eqn:Ht;
      [|discriminate].
    eexists _, _, _. split.
    + unfold enrich_company_description. apply try_ok.
      exact (enrich_try_success company c s content w1 ai text Hc Hchat Hj Ht).
    + cbn [world heap]. split; [apply list_lookup_middle; reflexivity|].
      split; [reflexivity | apply dict_get_set_eq].
Qed.

(** X13: of a record, [enrich_company_description] reads four keys only:
    [companyName], [companyType], [region] and [comment].  For any record
    that agrees with the given one on these four, the prompt sent to the
    text-generation service is the same, and the run on the given record
    leaves the service in the state, and the result with the searchable
    text (the text later sent to the embedding service), that the other
    record determines.  No other item of a record reaches either
    service. *)
Theorem enrich_reads_four_fields company c c' (s : store E) :
  heap s !! company = Some c ->
  agree_on_fields_read c c' ->
  prompt E c = prompt E c'
  /\ exists e s' d,
       enrich_company_description E company s = (Ok e, s')
       /\ heap s' !! e = Some d
       /\ world s' = snd (chat_completions_create E (prompt E c') (world s))
       /\ dict_get "searchableText" d
          = Some (VStr (enrichment_text E c' (world s))).
Proof.
  intros Hc Hagree.
  pose proof (prompt_agree c c' Hagree) as Hp.
  split; [exact Hp|].
  destruct (enrich_text_run company c s Hc) as (e & s' & d & Hrun & He & Hw & Ht).
  exists e, s', d. split; [exact Hrun|]. split; [exact He|].
  rewrite <- Hp, <- (enrichment_text_agree c c' (world s) Hagree). auto.
Qed.

End FieldsRead.

(** *** Instances *)

Lemma enrich_returns_fresh_copy_witness :
  exists e s' d text,
    enrich_company_description listy_env 0%nat
      (Build_store listy_env tt [[("companyName", VStr "Acme")]]) = (Ok e, s')
    /\ (1 <= e)%nat
    /\ heap s' !! 0%nat = Some [("companyName", VStr "Acme")]
    /\ heap s' !! e = Some d
    /\ dict_get "searchableText" d = Some (VStr text).
Proof.
  destruct (@enrich_returns_fresh_copy listy_env 0%nat
              [("companyName", VStr "Acme")]
              (Build_store listy_env tt [[("companyName", VStr "Acme")]])
              eq_refl)
    as (e & s' & d & text & H1 & H2 & _ & H3 & H4 & _ & H5).
  exists e, s', d, text. repeat split; assumption.
Defined.

Lemma enrich_success_merges_response_witness :
  exists d,
    enrich_company_description chatty_env 0%nat
      (Build_store chatty_env tt
         [[("companyName", VStr "Acme"); ("region", VStr "north")]])
    = (Ok 1%nat,
       Build_store chatty_env tt
         ([[("companyName", VStr "Acme"); ("region", VStr "north")]] ++ [d]))
    /\ dict_get "companyName" d = Some (VStr "Renamed")
    /\ dict_get "region" d = Some (VStr "north").
Proof.
  destruct (@enrich_success_merges_response chatty_env 0%nat
              [("companyName", VStr "Acme"); ("region", VStr "north")]
              (Build_store chatty_env tt
                 [[("companyName", VStr "Acme"); ("region", VStr "north")]])
              "{...}" tt
              [ ("companyName", VStr "Renamed");
                ("projectTypes", VList [VStr "schools"; VStr "clinics"]) ]
              _ eq_refl eq_refl eq_refl eq_refl)
    as (d & H1 & _ & H3).
  exists d. split; [exact H1|]. split.
  - rewrite (H3 "companyName" eq_refl). reflexivity.
  - rewrite (H3 "region" eq_refl). reflexivity.
Defined.

Lemma enrich_rejected_response_falls_back_witness :
  exists e s',
    enrich_company_description listy_env 0%nat
      (Build_store listy_env tt [[("companyName", VStr "Acme")]]) = (Ok e, s')
    /\ heap s' !! e
       = Some (dict_update [("companyName", VStr "Acme")]
                 (fallback_fields listy_env [("companyName", VStr "Acme")])).
Proof.
  destruct (@enrich_rejected_response_falls_back listy_env 0%nat
              [("companyName", VStr "Acme")]
              (Build_store listy_env tt [[("companyName", VStr "Acme")]])
              "[]" tt (VList []) eq_refl eq_refl eq_refl eq_refl)
    as (e & s' & H1 & _ & _ & H2 & _).
  exists e, s'. split; assumption.
Defined.

Lemma enrich_reads_four_fields_witness :
  prompt chatty_env [("companyName", VStr "Acme"); ("phone", VStr "555")]
  = prompt chatty_env [("embedding", VList []); ("companyName", VStr "Acme")]
  /\ exists e s' d,
       enrich_company_description chatty_env 0%nat
         (Build_store chatty_env tt
            [[("companyName", VStr "Acme"); ("phone", VStr "555")]]) = (Ok e, s')
       /\ heap s' !! e = Some d
       /\ world s' = tt
       /\ dict_get "searchableText" d
          = Some (VStr (enrichment_text chatty_env
                          [("embedding", VList []); ("companyName", VStr "Acme")]
                          tt)).
Proof.
  apply (@enrich_reads_four_fields chatty_env 0%nat
           [("companyName", VStr "Acme"); ("phone", VStr "555")]
           [("embedding", VList []); ("companyName", VStr "Acme")]
           (Build_store chatty_env tt
              [[("companyName", VStr "Acme"); ("phone", VStr "555")]])).
  - reflexivity.
  - repeat constructor.
Defined.
